(** * The scull drivers of ldd3 (scullc, scullv, scullp) and the USB skeleton

    A shallow embedding of [scullc/main.c] and [scullv/main.c] (open,
    read, write, ioctl, seek, trim, module load and unload; the scullp
    [main.c] is the text of scullv's with another block allocator), of the
    memory-mapping files [scullv/mmap.c] and the scullp [mmap.c], and of
    [usb/usb-skeleton.c], followed by the properties proved about them.
    The [/proc] dump of the scull drivers is not modelled.

    Conventions.  C integers are mathematical integers ([Z]) with every
    conversion written out: [wrap_int] for [int], [wrap_long] for
    [long] / [loff_t] / [ssize_t], [wrap_ulong] for [unsigned long] /
    [size_t] (LP64, kernel built with wrapping signed arithmetic).
    A nullable pointer is an [option].  Calls into the kernel whose
    answer the driver does not control (lock wait, allocators) read their
    answer from an [env] record.  A kernel fault (divide error, NULL or
    out-of-bounds access) is the outcome [Oops]. *)

From Stdlib Require Import ZArith List Lia Bool.
From Stdlib Require Import Strings.Byte.
Import ListNotations.
Open Scope Z_scope.
Set Warnings "-register-all".

(** ** Machine integers *)

Definition wrap_int (z : Z) : Z := (z + 2 ^ 31) mod 2 ^ 32 - 2 ^ 31.
Definition wrap_uint (z : Z) : Z := z mod 2 ^ 32.
Definition wrap_long (z : Z) : Z := (z + 2 ^ 63) mod 2 ^ 64 - 2 ^ 63.
Definition wrap_ulong (z : Z) : Z := z mod 2 ^ 64.

(** Error numbers and fault codes of the kernel headers. *)
Definition ENOMEM : Z := 12.
Definition EFAULT : Z := 14.
Definition EBUSY : Z := 16.
Definition ENODEV : Z := 19.
Definition EINVAL : Z := 22.
Definition ERESTARTSYS : Z := 512.
Definition VM_FAULT_NOPAGE : Z := 256.

(** ** Data model *)

(** One quantum: the kernel address the allocator returned and the bytes
    stored there.  The length of [bytes] is the allocated size. *)
Record block := mk_block { baddr : Z; bytes : list byte }.

(** Modelled from the spec: the headers [scullc.h], [scullv.h] and
    [scullp.h] with the declarations of [struct scullc_dev],
    [struct scullv_dev] and [struct scullp_dev] are not among the sources.
    The fields are those the functions access; the same record is the
    device and every list item behind it.  [quantum] is the scullc field,
    [order] the scullv / scullp one.  As in the specification, [size] is a
    non-negative integer (a [size_t], which is how the sources compare and
    print it), [vmas], [quantum], [order] and [qset] are [int]. *)
Inductive scull_dev : Type := mk_dev {
  data : option (list (option block));
  next : option scull_dev;
  vmas : Z;
  quantum : Z;
  order : Z;
  qset : Z;
  size : Z }.

(** A list item as [kmalloc] + [memset(.., 0, ..)] leaves it. *)
Definition zero_dev : scull_dev := mk_dev None None 0 0 0 0 0.

Definition set_data (d : scull_dev) (x : option (list (option block))) :=
  mk_dev x (next d) (vmas d) (quantum d) (order d) (qset d) (size d).
Definition set_next (d : scull_dev) (x : option scull_dev) :=
  mk_dev (data d) x (vmas d) (quantum d) (order d) (qset d) (size d).
Definition set_vmas (d : scull_dev) (x : Z) :=
  mk_dev (data d) (next d) x (quantum d) (order d) (qset d) (size d).
Definition set_size (d : scull_dev) (x : Z) :=
  mk_dev (data d) (next d) (vmas d) (quantum d) (order d) (qset d) x.

(** The two drivers whose [main.c] is modelled, and the two whose
    [mmap.c] is. *)
Inductive driver := Scullc | Scullv.
Inductive mapper := Scullp_map | Scullv_map.

(** What the running kernel fixes: the page shift and the two
    address-to-page translations used by the fault handlers. *)
Record kernel := mk_kernel {
  PAGE_SHIFT : Z;
  virt_to_page : Z -> Z;
  vmalloc_to_page : Z -> Z }.

Definition PAGE_SIZE (k : kernel) : Z := wrap_ulong (Z.shiftl 1 (PAGE_SHIFT k)).

(** The module-wide variables: the load-time parameters (which the ioctl
    commands may change later; their defaults [SCULLC_QUANTUM], ... come
    from the missing headers and are left open) and the object size the
    scullc cache was created with in [scullc_init]. *)
Record params := mk_params {
  scullc_quantum : Z;
  scullc_qset : Z;
  scullv_order : Z;
  scullv_qset : Z;
  scullc_cache_size : Z }.

(** The answers of the kernel to one call of a driver entry point. *)
Record env := mk_env {
  lock_interrupted : bool;   (* the interruptible lock wait returned nonzero *)
  kmalloc_item : bool;       (* kmalloc of a list item succeeds *)
  kmalloc_array : bool;      (* kmalloc of a quantum-set array succeeds *)
  alloc_addr : Z;            (* pointer returned by the block allocator, 0 is NULL *)
  junk : nat -> byte }.      (* old contents of memory handed out uninitialised *)

(** Result of an entry point: a returned value or a kernel fault.  The
    device reported with a fault is the device at the time of the fault. *)
Inductive result := Ret (v : Z) | Oops.

(** [PAGE_SIZE << n] for an [int n]: the shift of an [unsigned long] by a
    count read at run time.  C defines it for counts 0..63 only; the shift
    instructions of the 64-bit targets use the low six bits of the count,
    and that is what is modelled: [PAGE_SIZE << -1] is [PAGE_SIZE << 63],
    which is 0 for every page size above one byte. *)
Definition shl_ulong (x n : Z) : Z := wrap_ulong (Z.shiftl x (n mod 64)).

(** [int quantum = dev->quantum;] in scullc,
    [int quantum = PAGE_SIZE << dev->order;] in scullv. *)
Definition quantum_of (k : kernel) (v : driver) (dev : scull_dev) : Z :=
  match v with
  | Scullc => quantum dev
  | Scullv => wrap_int (shl_ulong (PAGE_SIZE k) (order dev))
  end.

(** ** Follow the list *)

(** [scullc_follow] / [scullv_follow]: [n] steps along [next], creating a
    zeroed item wherever the link is NULL.  The result is the list as it
    is afterwards together with the item reached ([dptr]).  The source
    does not test the [kmalloc]: when it fails, the [memset] faults,
    which is [None] here. *)
Fixpoint scull_follow (ok : bool) (dev : scull_dev) (n : nat) {struct n}
  : option (scull_dev * scull_dev) :=
  match n with
  | O => Some (dev, dev)
  | S n' =>
      let nx := match next dev with
                | Some d => Some d
                | None => if ok then Some zero_dev else None
                end in
      match nx with
      | None => None
      | Some d =>
          match scull_follow ok d n' with
          | None => None
          | Some (d', dptr) => Some (set_next dev (Some d'), dptr)
          end
      end
  end.

(** Number of iterations of [while (n--)] for an [int n]. *)
Definition follow_steps (item : Z) : nat := Z.to_nat (wrap_uint item).

(** Store [f dptr] back through the pointer that [n] steps reach. *)
Fixpoint upd_item (dev : scull_dev) (n : nat) (f : scull_dev -> scull_dev)
  {struct n} : scull_dev :=
  match n with
  | O => f dev
  | S n' =>
      match next dev with
      | Some d => set_next dev (Some (upd_item d n' f))
      | None => dev
      end
  end.

(** The item [n] steps from [dev], without allocating. *)
Fixpoint item_at (dev : scull_dev) (n : nat) {struct n} : option scull_dev :=
  match n with
  | O => Some dev
  | S n' => match next dev with Some d => item_at d n' | None => None end
  end.

(** [arr[i]] for a C index: [None] is an access outside the array. *)
Definition slot {A : Type} (arr : list A) (i : Z) : option A :=
  if i <? 0 then None else nth_error arr (Z.to_nat i).

Fixpoint set_nth {A : Type} (arr : list A) (i : nat) (x : A) : list A :=
  match arr, i with
  | [], _ => []
  | _ :: t, O => x :: t
  | h :: t, S i' => h :: set_nth t i' x
  end.

(** The [count] bytes at [p + q] lie inside the block. *)
Definition in_bounds (bs : list byte) (q n : Z) : bool :=
  (n =? 0) || ((0 <=? q) && (0 <=? n) && (q + n <=? Z.of_nat (length bs))).

(** ** Address translation (the four lines shared by read and write) *)

Record position := mk_position { item : Z; s_pos : Z; q_pos : Z }.

Definition translate (quantum qset f_pos : Z) : position :=
  let itemsize := wrap_int (quantum * qset) in
  let item := wrap_int (Z.quot f_pos itemsize) in
  let rest := wrap_int (Z.rem f_pos itemsize) in
  mk_position item (Z.quot rest quantum) (Z.rem rest quantum).

(** [if (count > quantum - q_pos) count = quantum - q_pos;] with the
    comparison done in [size_t]. *)
Definition clamp (quantum q_pos count : Z) : Z :=
  let room := wrap_ulong (wrap_int (quantum - q_pos)) in
  if room <? count then room else count.

(** ** read *)

(** [scullc_read] / [scullv_read].  [buf_len] is the number of bytes of
    the user buffer that are writable ([copy_to_user] stops there and
    reports the rest as not copied).  Result: return value, device,
    file position, bytes delivered to the user buffer. *)
Definition scull_read (k : kernel) (v : driver) (e : env) (dev : scull_dev)
    (buf_len count f_pos : Z) : result * scull_dev * Z * list byte :=
  let quantum := quantum_of k v dev in
  let qset := qset dev in
  let itemsize := wrap_int (quantum * qset) in
  if lock_interrupted e then (Ret (- ERESTARTSYS), dev, f_pos, []) else
  if size dev <? wrap_ulong f_pos then (Ret 0, dev, f_pos, []) else
  let count := if size dev <? wrap_ulong (f_pos + count)
               then wrap_ulong (size dev - f_pos) else count in
  if itemsize =? 0 then (Oops, dev, f_pos, []) else
  let p := translate quantum qset f_pos in
  match scull_follow (kmalloc_item e) dev (follow_steps (item p)) with
  | None => (Oops, dev, f_pos, [])
  | Some (dev1, dptr) =>
      match data dptr with
      | None => (Ret 0, dev1, f_pos, [])
      | Some arr =>
          match slot arr (s_pos p) with
          | None => (Oops, dev1, f_pos, [])
          | Some None => (Ret 0, dev1, f_pos, [])
          | Some (Some b) =>
              let count := clamp quantum (q_pos p) count in
              let copied := Z.min count (Z.max 0 buf_len) in
              if in_bounds (bytes b) (q_pos p) copied then
                let out := firstn (Z.to_nat copied)
                                  (skipn (Z.to_nat (q_pos p)) (bytes b)) in
                if copied <? count then (Ret (- EFAULT), dev1, f_pos, out)
                else (Ret (wrap_long count), dev1, wrap_long (f_pos + count), out)
              else (Oops, dev1, f_pos, [])
          end
      end
  end.

Definition scullc_read := fun k => scull_read k Scullc.
Definition scullv_read := fun k => scull_read k Scullv.

(** ** write *)

(** Outcome of allocating and clearing one quantum: no memory; an object
    that the [memset] overruns (the object is cleared, then the [memset]
    runs on behind it); a cleared object. *)
Inductive alloc_result := Alloc_null | Alloc_fault (b : block) | Alloc_ok (b : block).

(** scullc: [kmem_cache_alloc(scullc_cache, ..)] then
    [memset(.., 0, scullc_quantum)]: an object of the cache's size whose
    first [scullc_quantum] bytes are cleared.
    scullv: [vmalloc(PAGE_SIZE << dptr->order)] then [memset] of the same
    size; the order is read from the list item [dptr], not from the
    device. *)
Definition alloc_quantum (k : kernel) (v : driver) (g : params) (e : env)
    (dptr : scull_dev) : alloc_result :=
  if alloc_addr e =? 0 then Alloc_null else
  match v with
  | Scullc =>
      let n := wrap_ulong (scullc_quantum g) in
      if scullc_cache_size g <? n
      then Alloc_fault (mk_block (alloc_addr e)
                          (repeat x00 (Z.to_nat (scullc_cache_size g))))
      else Alloc_ok (mk_block (alloc_addr e)
             (repeat x00 (Z.to_nat n) ++
              map (junk e) (seq (Z.to_nat n) (Z.to_nat (scullc_cache_size g) - Z.to_nat n))))
  | Scullv =>
      let n := shl_ulong (PAGE_SIZE k) (order dptr) in
      Alloc_ok (mk_block (alloc_addr e) (repeat x00 (Z.to_nat n)))
  end.

(** [copy_from_user(p + q, buf, n)]: the readable user bytes are [buf];
    what cannot be read is left as zero bytes in the destination. *)
Definition copy_in (bs : list byte) (q n : Z) (buf : list byte) : list byte :=
  let copied := Z.min n (Z.of_nat (length buf)) in
  firstn (Z.to_nat q) bs ++ firstn (Z.to_nat copied) buf
    ++ repeat x00 (Z.to_nat (n - copied)) ++ skipn (Z.to_nat (q + n)) bs.

(** [dptr->data] after the first allocation step of a write: the array
    found, or a new one with every slot NULL ([kmalloc] of
    [qset] pointers, which fails for a negative [qset]).
    [None]: the allocation failed. *)
Definition write_array (e : env) (qset : Z) (dptr : scull_dev)
  : option (list (option block)) :=
  match data dptr with
  | Some arr => Some arr
  | None => if kmalloc_array e && (0 <=? qset)
            then Some (repeat None (Z.to_nat qset)) else None
  end.

(** [dptr->data[s_pos]] after the second allocation step: the block found,
    or a new cleared one. *)
Definition write_block (k : kernel) (v : driver) (g : params) (e : env)
    (dptr : scull_dev) (old : option block) : alloc_result :=
  match old with
  | Some b => Alloc_ok b
  | None => alloc_quantum k v g e dptr
  end.

(** [scullc_write] / [scullv_write].  [buf] holds the readable bytes of
    the user buffer.  Result: return value, device, file position. *)
Definition scull_write (k : kernel) (v : driver) (g : params) (e : env)
    (dev : scull_dev) (buf : list byte) (count f_pos : Z)
  : result * scull_dev * Z :=
  let quantum := quantum_of k v dev in
  let qset := qset dev in
  let itemsize := wrap_int (quantum * qset) in
  if lock_interrupted e then (Ret (- ERESTARTSYS), dev, f_pos) else
  if itemsize =? 0 then (Oops, dev, f_pos) else
  let p := translate quantum qset f_pos in
  let n := follow_steps (item p) in
  match scull_follow (kmalloc_item e) dev n with
  | None => (Oops, dev, f_pos)
  | Some (dev1, dptr) =>
      (* scullc also tests [dptr == NULL]; follow never returns NULL *)
      match write_array e qset dptr with
      | None => (Ret (- ENOMEM), dev1, f_pos)
      | Some arr =>
          let store := fun x => upd_item dev1 n (fun d => set_data d (Some x)) in
          match slot arr (s_pos p) with
          | None => (Oops, store arr, f_pos)
          | Some old =>
              match write_block k v g e dptr old with
              | Alloc_null => (Ret (- ENOMEM), store arr, f_pos)
              | Alloc_fault b =>
                  (* the pointer is in [dptr->data[s_pos]] when [memset] runs *)
                  (Oops, store (set_nth arr (Z.to_nat (s_pos p)) (Some b)), f_pos)
              | Alloc_ok b =>
                  let count := clamp quantum (q_pos p) count in
                  if in_bounds (bytes b) (q_pos p) count then
                    let b' := mk_block (baddr b) (copy_in (bytes b) (q_pos p) count buf) in
                    let dev3 := store (set_nth arr (Z.to_nat (s_pos p)) (Some b')) in
                    if Z.of_nat (length buf) <? count then (Ret (- EFAULT), dev3, f_pos)
                    else
                      let f_pos' := wrap_long (f_pos + count) in
                      let size' := if size dev3 <? wrap_ulong f_pos'
                                   then wrap_ulong f_pos' else size dev3 in
                      (Ret (wrap_long count), set_size dev3 size', f_pos')
                  else
                    (Oops, store (set_nth arr (Z.to_nat (s_pos p)) (Some b)), f_pos)
              end
          end
      end
  end.

Definition scullc_write := fun k => scull_write k Scullc.
Definition scullv_write := fun k => scull_write k Scullv.

(** ** llseek *)

(** [scullc_llseek] / [scullv_llseek]: return value and file position. *)
Definition scull_llseek (dev : scull_dev) (f_pos off whence : Z) : Z * Z :=
  let newpos :=
    if whence =? 0 then Some off
    else if whence =? 1 then Some (wrap_long (f_pos + off))
    else if whence =? 2 then Some (wrap_long (wrap_ulong (size dev + off)))
    else None in
  match newpos with
  | None => (- EINVAL, f_pos)
  | Some np => if np <? 0 then (- EINVAL, f_pos) else (np, np)
  end.

(** ** trim *)

(** What trim hands back to the allocators, in call order. *)
Inductive freed := Free_block (addr : Z) | Free_array | Free_item.

(** The body of the loop for one list item: every non-NULL
    [dptr->data[i]], [i < qset], then the array.  [None]: the loop reads
    behind the end of the array. *)
Definition trim_item (qset : Z) (d : scull_dev) : option (list freed) :=
  match data d with
  | None => Some []
  | Some arr =>
      if Z.of_nat (length arr) <? qset then None
      else Some (flat_map (fun s => match s with
                                    | Some b => [Free_block (baddr b)]
                                    | None => []
                                    end) (firstn (Z.to_nat qset) arr)
                 ++ [Free_array])
  end.

Fixpoint trim_walk (qset : Z) (head : bool) (dptr : scull_dev) : option (list freed) :=
  match dptr with
  | mk_dev dt nx _ _ _ _ _ =>
      match trim_item qset dptr with
      | None => None
      | Some fr =>
          let self := if head then [] else [Free_item] in
          match nx with
          | None => Some (fr ++ self)
          | Some d =>
              match trim_walk qset false d with
              | None => None
              | Some rest => Some (fr ++ self ++ rest)
              end
          end
      end
  end.

(** [scullc_trim] / [scullv_trim]. *)
Definition scull_trim (v : driver) (g : params) (dev : scull_dev)
  : result * scull_dev * list freed :=
  if negb (vmas dev =? 0) then (Ret (- EBUSY), dev, []) else
  match trim_walk (qset dev) true dev with
  | None => (Oops, dev, [])
  | Some fr =>
      (Ret 0,
       match v with
       | Scullc => mk_dev None None (vmas dev) (scullc_quantum g) (order dev) (scullc_qset g) 0
       | Scullv => mk_dev None None (vmas dev) (quantum dev) (scullv_order g) (scullv_qset g) 0
       end,
       fr)
  end.

Definition scullc_trim := scull_trim Scullc.
Definition scullv_trim := scull_trim Scullv.

(** [scullc_open] / [scullv_open]: a write-only open trims the device and
    ignores the result. *)
Definition scull_open (v : driver) (g : params) (e : env) (dev : scull_dev)
    (wronly : bool) : result * scull_dev :=
  if wronly then
    if lock_interrupted e then (Ret (- ERESTARTSYS), dev)
    else match scull_trim v g dev with
         | (Oops, d, _) => (Oops, d)
         | (Ret _, d, _) => (Ret 0, d)
         end
  else (Ret 0, dev).

(** ** Memory mapping *)

Definition scull_vma_open (dev : scull_dev) : scull_dev :=
  set_vmas dev (wrap_int (vmas dev + 1)).
Definition scull_vma_close (dev : scull_dev) : scull_dev :=
  set_vmas dev (wrap_int (vmas dev - 1)).

(** [scullp_mmap] refuses a device whose order is not 0;
    [scullv_mmap] has no such test. *)
Definition scull_mmap (m : mapper) (dev : scull_dev) : Z * scull_dev :=
  match m with
  | Scullp_map => if negb (order dev =? 0) then (- ENODEV, dev)
                  else (0, scull_vma_open dev)
  | Scullv_map => (0, scull_vma_open dev)
  end.

Definition scullp_mmap := scull_mmap Scullp_map.
Definition scullv_mmap := scull_mmap Scullv_map.

(** The loop of the fault handler:
    [for (ptr = dev; ptr && offset >= dev->qset;)
       { ptr = ptr->next; offset -= dev->qset; }] *)
Fixpoint nopage_walk (qs : Z) (ptr : scull_dev) (offset : Z) {struct ptr}
  : option scull_dev * Z :=
  if wrap_ulong qs <=? offset then
    match ptr with
    | mk_dev _ nx _ _ _ _ _ =>
        match nx with
        | Some d => nopage_walk qs d (wrap_ulong (offset - qs))
        | None => (None, wrap_ulong (offset - qs))
        end
    end
  else (Some ptr, offset).

Definition page_of (k : kernel) (m : mapper) (pageptr : Z) : Z :=
  match m with
  | Scullp_map => virt_to_page k pageptr
  | Scullv_map => vmalloc_to_page k pageptr
  end.

(** [get_page]: one more reference on that page. *)
Definition get_page (refs : Z -> Z) (page : Z) : Z -> Z :=
  fun p => if p =? page then refs p + 1 else refs p.

(** [offset = (unsigned long)(vmf->address - vma->vm_start)
             + (vma->vm_pgoff << PAGE_SHIFT);] *)
Definition fault_offset (k : kernel) (address vm_start vm_pgoff : Z) : Z :=
  wrap_ulong (wrap_ulong (address - vm_start)
              + wrap_ulong (Z.shiftl vm_pgoff (PAGE_SHIFT k))).

(** [scullp_vma_nopage] / [scullv_vma_nopage].  Result: return value,
    [vmf->page], the page reference counts. *)
Definition scull_vma_nopage (k : kernel) (m : mapper) (dev : scull_dev)
    (refs : Z -> Z) (address vm_start vm_pgoff : Z)
  : result * option Z * (Z -> Z) :=
  let offset := fault_offset k address vm_start vm_pgoff in
  if size dev <=? offset then (Ret VM_FAULT_NOPAGE, None, refs) else
  let offset := Z.shiftr offset (PAGE_SHIFT k) in
  match nopage_walk (qset dev) dev offset with
  | (None, _) => (Ret VM_FAULT_NOPAGE, None, refs)
  | (Some ptr, offset) =>
      match data ptr with
      | None => (Ret VM_FAULT_NOPAGE, None, refs)
      | Some arr =>
          match slot arr offset with
          | None => (Oops, None, refs)
          | Some None => (Ret VM_FAULT_NOPAGE, None, refs)
          | Some (Some b) =>
              let page := page_of k m (baddr b) in
              (Ret 0, Some page, get_page refs page)
          end
      end
  end.

Definition scullp_vma_nopage := fun k => scull_vma_nopage k Scullp_map.
Definition scullv_vma_nopage := fun k => scull_vma_nopage k Scullv_map.

(** ** Sequences of calls *)

(** The calls user space can make on an open device, trim apart. *)
Inductive op :=
| Op_read (e : env) (buf_len count : Z)
| Op_write (e : env) (buf : list byte) (count : Z)
| Op_llseek (off whence : Z)
| Op_mmap (m : mapper)
| Op_vma_close
| Op_fault (m : mapper) (address vm_start vm_pgoff : Z).

(** The device, the position of the open file, the page reference counts. *)
Record state := mk_state { st_dev : scull_dev; st_pos : Z; st_refs : Z -> Z }.

Definition step (k : kernel) (v : driver) (g : params) (st : state) (o : op) : state :=
  match o with
  | Op_read e buf_len count =>
      let '(_, d, pos, _) := scull_read k v e (st_dev st) buf_len count (st_pos st) in
      mk_state d pos (st_refs st)
  | Op_write e buf count =>
      let '(_, d, pos) := scull_write k v g e (st_dev st) buf count (st_pos st) in
      mk_state d pos (st_refs st)
  | Op_llseek off whence =>
      mk_state (st_dev st) (snd (scull_llseek (st_dev st) (st_pos st) off whence))
               (st_refs st)
  | Op_mmap m => mk_state (snd (scull_mmap m (st_dev st))) (st_pos st) (st_refs st)
  | Op_vma_close => mk_state (scull_vma_close (st_dev st)) (st_pos st) (st_refs st)
  | Op_fault m address vm_start vm_pgoff =>
      let '(_, _, refs) := scull_vma_nopage k m (st_dev st) (st_refs st)
                             address vm_start vm_pgoff in
      mk_state (st_dev st) (st_pos st) refs
  end.

Definition run (k : kernel) (v : driver) (g : params) (st : state) (ops : list op)
  : state :=
  fold_left (step k v g) ops st.

(** ** Views of the stored data *)

(** The array of list item [n] (NULL when the item or its array is
    missing) and the block in slot [s] of it. *)
Definition data_at (dev : scull_dev) (n : nat) : option (list (option block)) :=
  match item_at dev n with
  | Some d => data d
  | None => None
  end.

Definition block_at (dev : scull_dev) (n : nat) (s : Z) : option block :=
  match data_at dev n with
  | Some arr => match slot arr s with
                | Some (Some b) => Some b
                | _ => None
                end
  | None => None
  end.

(** The list items in order, head first. *)
Fixpoint items (dev : scull_dev) : list scull_dev :=
  match dev with
  | mk_dev dt nx vm qu od qs sz =>
      mk_dev dt nx vm qu od qs sz ::
      match nx with
      | Some d => items d
      | None => []
      end
  end.

(** The addresses of the blocks a device holds, in list order, and what a
    trim log says was freed. *)
Definition item_blocks (d : scull_dev) : list Z :=
  match data d with
  | None => []
  | Some arr => flat_map (fun s => match s with
                                   | Some b => [baddr b]
                                   | None => []
                                   end) arr
  end.

Definition all_blocks (dev : scull_dev) : list Z := flat_map item_blocks (items dev).

Definition freed_blocks (fr : list freed) : list Z :=
  flat_map (fun f => match f with Free_block a => [a] | _ => [] end) fr.

Definition freed_items (fr : list freed) : nat :=
  length (filter (fun f => match f with Free_item => true | _ => false end) fr).

Definition freed_arrays (fr : list freed) : nat :=
  length (filter (fun f => match f with Free_array => true | _ => false end) fr).

Definition arrays_held (dev : scull_dev) : nat :=
  length (filter (fun d => match data d with Some _ => true | None => false end)
                 (items dev)).

(** The device a successful trim leaves. *)
Definition trimmed (v : driver) (g : params) (dev : scull_dev) : scull_dev :=
  match v with
  | Scullc => mk_dev None None (vmas dev) (scullc_quantum g) (order dev) (scullc_qset g) 0
  | Scullv => mk_dev None None (vmas dev) (quantum dev) (scullv_order g) (scullv_qset g) 0
  end.

(** The byte stored for file offset [x] under block size [q] and array
    width [qs]: the byte at the in-block offset of [x] in the block of [x],
    if there is one. *)
Definition stored (q qs : Z) (dev : scull_dev) (x : Z) : option byte :=
  let p := translate q qs x in
  match block_at dev (follow_steps (item p)) (s_pos p) with
  | Some b => nth_error (bytes b) (Z.to_nat (q_pos p))
  | None => None
  end.

(** ** The loop of the caller *)

(** From the specification: one call stays inside one block, so a caller
    with more to transfer calls again with what is left, from the position
    the last call left.  [es i] holds the kernel's answers to call [i].
    [None]: a call failed or transferred nothing. *)
Fixpoint write_all (fuel : nat) (k : kernel) (v : driver) (g : params)
    (es : nat -> env) (dev : scull_dev) (buf : list byte) (f_pos : Z)
  : option (scull_dev * Z) :=
  match buf with
  | [] => Some (dev, f_pos)
  | _ :: _ =>
      match fuel with
      | O => None
      | S fuel' =>
          match scull_write k v g (es O) dev buf (Z.of_nat (length buf)) f_pos with
          | (Ret n, dev', pos') =>
              if 0 <? n
              then write_all fuel' k v g (fun i => es (S i)) dev'
                             (skipn (Z.to_nat n) buf) pos'
              else None
          | (Oops, _, _) => None
          end
      end
  end.

Fixpoint read_all (fuel : nat) (k : kernel) (v : driver)
    (es : nat -> env) (dev : scull_dev) (count f_pos : Z)
  : option (list byte * scull_dev * Z) :=
  if count <=? 0 then Some ([], dev, f_pos) else
  match fuel with
  | O => None
  | S fuel' =>
      match scull_read k v (es O) dev count count f_pos with
      | (Ret n, dev', pos', out) =>
          if 0 <? n
          then match read_all fuel' k v (fun i => es (S i)) dev' (count - n) pos' with
               | Some (rest, dev'', pos'') => Some (out ++ rest, dev'', pos'')
               | None => None
               end
          else None
      | (Oops, _, _, _) => None
      end
  end.

(** The kernel grants the call everything: the lock, the memory for list
    items and arrays, and a block. *)
Definition env_ok (e : env) : bool :=
  negb (lock_interrupted e) && kmalloc_item e && kmalloc_array e
  && negb (alloc_addr e =? 0).

(** ** Predicates and sample data used by the statements *)

(** The fields of the head other than [data] and [next]. *)
Definition same_head (d d' : scull_dev) : Prop :=
  vmas d' = vmas d /\ quantum d' = quantum d /\ order d' = order d /\
  qset d' = qset d /\ size d' = size d.

(** A usable configuration: positive block size and array width, and the
    bytes of one list item fit an [int]. *)
Definition config_ok (quantum qset : Z) : Prop :=
  0 < quantum /\ 0 < qset /\ quantum * qset < 2 ^ 31.

(** Every array present has the width the device is configured with. *)
Definition item_ok (qs : Z) (d : scull_dev) : bool :=
  match data d with
  | None => true
  | Some arr => Z.of_nat (length arr) =? qs
  end.

Definition arrays_ok (dev : scull_dev) : bool :=
  forallb (item_ok (qset dev)) (items dev).

Definition demo_kernel : kernel := mk_kernel 12 (fun a => a / 4096) (fun a => a / 4096).
Definition demo_env : env := mk_env false true true 4096 (fun _ => x00).

(** A device as [scullc_init] / [scullv_init] leaves it, for the given
    configuration. *)
Definition fresh_dev (quantum order qset : Z) : scull_dev :=
  mk_dev None None 0 quantum order qset 0.

(** Two writes of four bytes fill the only list item of a scullc device
    with [quantum = 4] and [qset = 2]. *)
Definition small_params : params := mk_params 4 2 0 2 4.
Definition small_env (addr : Z) : env := mk_env false true true addr (fun _ => x00).
Definition small_full_dev : scull_dev :=
  let d0 := fresh_dev 4 0 2 in
  let d1 := snd (fst (scull_write demo_kernel Scullc small_params (small_env 4096)
                        d0 [x01; x02; x03; x04] 4 0)) in
  snd (fst (scull_write demo_kernel Scullc small_params (small_env 8192)
              d1 [x05; x06; x07; x08] 4 4)).

(** The number of bytes a return value stands for: errors are negative. *)
Definition bytes_returned (r : result) : Z :=
  match r with
  | Ret n => Z.max 0 n
  | Oops => 0
  end.

(** The page index of a fault and the slot it is served from. *)
Definition fault_page (k : kernel) (address vm_start vm_pgoff : Z) : Z :=
  Z.shiftr (fault_offset k address vm_start vm_pgoff) (PAGE_SHIFT k).

(** A scullv device with one page of data: order 0, two slots per item. *)
Definition page_params : params := mk_params 4096 2 0 2 4096.
Definition one_page_dev : scull_dev :=
  snd (fst (scull_write demo_kernel Scullv page_params
              (mk_env false true true 8192 (fun _ => x00))
              (fresh_dev 0 0 2) (repeat x01 4096) 4096 0)).

(** A property of the array and of the order field of every list item. *)
Definition all_items (P : option (list (option block)) -> Z -> Prop)
    (dev : scull_dev) : Prop :=
  forall n d, item_at dev n = Some d -> P (data d) (order d).

(** A fresh block is long enough for block size [q]: scullc blocks have the
    size of the cache objects and are cleared over [scullc_quantum] bytes;
    scullv blocks have the size the order field [od] of their list item
    gives. *)
Definition alloc_fits (k : kernel) (v : driver) (g : params) (q od : Z) : bool :=
  match v with
  | Scullc => (wrap_ulong (scullc_quantum g) <=? scullc_cache_size g)
              && (q <=? scullc_cache_size g)
  | Scullv => q <=? shl_ulong (PAGE_SIZE k) od
  end.

(** The array has the configured width and its blocks hold [q] bytes. *)
Definition array_fits (q qs : Z) (dt : option (list (option block))) : Prop :=
  forall arr, dt = Some arr ->
    Z.of_nat (length arr) = qs /\
    forall s b, slot arr s = Some (Some b) -> q <= Z.of_nat (length (bytes b)).

Definition item_fits (k : kernel) (v : driver) (g : params) (q qs : Z)
    (dt : option (list (option block))) (od : Z) : Prop :=
  array_fits q qs dt /\ alloc_fits k v g q od = true.

Definition dev_fits (k : kernel) (v : driver) (g : params) (dev : scull_dev) : Prop :=
  all_items (item_fits k v g (quantum_of k v dev) (qset dev)) dev /\
  alloc_fits k v g (quantum_of k v dev) 0 = true.

Definition scenario_params : params := mk_params 4096 4 0 4 4096.

(** A new scullv device loaded with [scullv_order=1] and [scullv_qset=1]. *)
Definition multipage_dev : scull_dev := fresh_dev 0 1 1.

(** A new scullp / scullv device with order 1 and four slots per item. *)
Definition order_one_dev : scull_dev := fresh_dev 0 1 4.

Definition width_ok (qs : Z) (dt : option (list (option block))) (od : Z) : Prop :=
  forall arr, dt = Some arr -> Z.of_nat (length arr) = qs.

(** ** The addressing of the specification *)

(** From the specification (data model): for offset [o],
    [segment_index = o / itemsize], [rest = o % itemsize],
    [block_index = rest / quantum], [intra_offset = rest % quantum], with
    [itemsize = quantum * qset], on unbounded integers.  These follow the
    specification's words and are what [translate], which computes in
    [int], is compared with. *)
Definition segment_index (quantum qset o : Z) : Z := o / (quantum * qset).
Definition block_index (quantum qset o : Z) : Z := (o mod (quantum * qset)) / quantum.
Definition intra_offset (quantum qset o : Z) : Z := (o mod (quantum * qset)) mod quantum.

(** The block that holds offset [o] under that addressing, if it is
    allocated. *)
Definition block_of (quantum qset : Z) (dev : scull_dev) (o : Z) : option block :=
  block_at dev (Z.to_nat (segment_index quantum qset o)) (block_index quantum qset o).

(** The bytes the allocation step of a write clears in a new block:
    [scullc_quantum] bytes in scullc, the whole block in scullv. *)
Definition cleared (v : driver) (g : params) (b : block) : Prop :=
  match v with
  | Scullc => firstn (Z.to_nat (wrap_ulong (scullc_quantum g))) (bytes b)
              = repeat x00 (Z.to_nat (wrap_ulong (scullc_quantum g)))
  | Scullv => bytes b = repeat x00 (length (bytes b))
  end.

(** More sample devices. *)

(** Two bytes written at offset 10 of a new scullc device with
    [quantum = 4] and [qset = 2]: the second list item holds them, the
    first has no array. *)
Definition hole_dev : scull_dev :=
  snd (fst (scull_write demo_kernel Scullc small_params (small_env 4096)
              (fresh_dev 4 0 2) [x01; x02] 2 10)).

(** [small_full_dev] after a write of one byte at offset [2^35 + 7]. *)
Definition far_written_dev : scull_dev :=
  snd (fst (scull_write demo_kernel Scullc small_params (small_env 12288)
              small_full_dev [x09] 1 (2 ^ 35 + 7))).

(** A scullc device trimmed after [scullc_quantum] was set to 0, and one
    trimmed after both parameters were set to 65536, whose product does not
    fit an [int]. *)
Definition zero_quantum_params : params := mk_params 0 2 0 2 4.
Definition zero_quantum_dev : scull_dev :=
  snd (fst (scull_trim Scullc zero_quantum_params small_full_dev)).
Definition wide_params : params := mk_params 65536 65536 0 2 4.
Definition wide_dev : scull_dev :=
  snd (fst (scull_trim Scullc wide_params small_full_dev)).

(** A scullv device with order 1 and four slots per item, after 8192
    bytes were written at offset 0 and a mapping was set up. *)
Definition order_one_params : params := mk_params 4096 4 1 4 4096.
Definition order_one_mapped_dev : scull_dev :=
  snd (scullv_mmap
         (snd (fst (scull_write demo_kernel Scullv order_one_params demo_env
                      order_one_dev (repeat x01 (Z.to_nat 8192)) 8192 0)))).

(** ** scullp *)

(** The [main.c] of scullp is the text of scullv's with the block
    allocator exchanged: a block is
    [__get_free_pages(GFP_KERNEL, dptr->order)], a run of pages of
    [PAGE_SIZE << dptr->order] bytes cleared by the same [memset], and is
    released by [free_pages].  Its parameters [scullp_order] and
    [scullp_qset] take the places of [scullv_order] and [scullv_qset]. *)
Definition scullp_read := fun k => scull_read k Scullv.
Definition scullp_write := fun k => scull_write k Scullv.
Definition scullp_trim := scull_trim Scullv.

(** ** ioctl *)

Definition ENOTTY : Z := 25.

(** The command word as [<asm-generic/ioctl.h>] splits it: number in bits
    0-7, type in bits 8-15, size in bits 16-29, direction in bits 30-31. *)
Definition _IOC_NR (cmd : Z) : Z := Z.land cmd 255.
Definition _IOC_TYPE (cmd : Z) : Z := Z.land (Z.shiftr cmd 8) 255.
Definition _IOC_SIZE (cmd : Z) : Z := Z.land (Z.shiftr cmd 16) 16383.
Definition _IOC_DIR (cmd : Z) : Z := Z.land (Z.shiftr cmd 30) 3.
Definition _IOC_WRITE : Z := 1.
Definition _IOC_READ : Z := 2.

(** The two module parameters a command can address: the block size
    ([scullc_quantum]; [scullv_order], [scullp_order]) and the array width
    ([scullc_qset]; [scullv_qset], [scullp_qset]). *)
Inductive tunable := Tune_block | Tune_qset.

(** The case labels of the switch, in the order of the source:
    [SCULLC_IOCRESET], then Set, Tell, Get, Query, eXchange and sHift for
    the block size, then the same six for the array width. *)
Inductive ioc :=
| IOCRESET
| IOCS (t : tunable) | IOCT (t : tunable) | IOCG (t : tunable)
| IOCQ (t : tunable) | IOCX (t : tunable) | IOCH (t : tunable).

Definition ioc_labels : list ioc :=
  [IOCRESET;
   IOCS Tune_block; IOCT Tune_block; IOCG Tune_block;
   IOCQ Tune_block; IOCX Tune_block; IOCH Tune_block;
   IOCS Tune_qset; IOCT Tune_qset; IOCG Tune_qset;
   IOCQ Tune_qset; IOCX Tune_qset; IOCH Tune_qset].

(** What the missing headers define for one driver: the magic number, the
    largest command number, the command word of every case label and the
    two defaults ([SCULLC_QUANTUM] or [SCULLV_ORDER], and [SCULLC_QSET]). *)
Record ioctl_abi := mk_abi {
  IOC_MAGIC : Z;
  IOC_MAXNR : Z;
  ioc_code : ioc -> Z;
  DEFAULT_BLOCK : Z;
  DEFAULT_QSET : Z }.

(** [switch (cmd)]: the case whose label is [cmd]. *)
Definition ioc_switch (abi : ioctl_abi) (cmd : Z) : option ioc :=
  find (fun c => ioc_code abi c =? cmd) ioc_labels.

(** User space as the call sees it: the answer of [access_ok_wrapper]
    (for a write or a read of the user area, its address and its size) and
    the [int] behind a user address, [None] where the access faults. *)
Record user := mk_user {
  access_ok : bool -> Z -> Z -> bool;
  user_int : Z -> option Z }.

(** [__get_user(x, ptr)]: the return value and the value assigned to [x],
    which is 0 when the access faults. *)
Definition __get_user (u : user) (ptr : Z) : Z * Z :=
  match user_int u ptr with
  | Some x => (0, x)
  | None => (- EFAULT, 0)
  end.

(** [__put_user(x, ptr)]: the return value and user space afterwards. *)
Definition __put_user (u : user) (x ptr : Z) : Z * user :=
  match user_int u ptr with
  | Some _ => (0, mk_user (access_ok u)
                    (fun a => if a =? ptr then Some x else user_int u a))
  | None => (- EFAULT, u)
  end.

Definition tune_get (v : driver) (t : tunable) (g : params) : Z :=
  match v, t with
  | Scullc, Tune_block => scullc_quantum g
  | Scullc, Tune_qset => scullc_qset g
  | Scullv, Tune_block => scullv_order g
  | Scullv, Tune_qset => scullv_qset g
  end.

Definition tune_set (v : driver) (t : tunable) (g : params) (x : Z) : params :=
  match v, t with
  | Scullc, Tune_block =>
      mk_params x (scullc_qset g) (scullv_order g) (scullv_qset g) (scullc_cache_size g)
  | Scullc, Tune_qset =>
      mk_params (scullc_quantum g) x (scullv_order g) (scullv_qset g) (scullc_cache_size g)
  | Scullv, Tune_block =>
      mk_params (scullc_quantum g) (scullc_qset g) x (scullv_qset g) (scullc_cache_size g)
  | Scullv, Tune_qset =>
      mk_params (scullc_quantum g) (scullc_qset g) (scullv_order g) x (scullc_cache_size g)
  end.

(** The tests before the switch: the error returned, if any. *)
Definition ioctl_refused (abi : ioctl_abi) (u : user) (cmd arg : Z) : option Z :=
  if negb (_IOC_TYPE cmd =? IOC_MAGIC abi) then Some (- ENOTTY) else
  if IOC_MAXNR abi <? _IOC_NR cmd then Some (- ENOTTY) else
  let err :=
    if negb (Z.land (_IOC_DIR cmd) _IOC_READ =? 0)
    then negb (access_ok u true arg (_IOC_SIZE cmd))
    else if negb (Z.land (_IOC_DIR cmd) _IOC_WRITE =? 0)
    then negb (access_ok u false arg (_IOC_SIZE cmd))
    else false in
  if err then Some (- EFAULT) else None.

(** [scullc_ioctl] / [scullv_ioctl] / [scullp_ioctl].  Result: return
    value, module parameters, user space. *)
Definition scull_ioctl (v : driver) (abi : ioctl_abi) (u : user) (g : params)
    (cmd arg : Z) : Z * params * user :=
  match ioctl_refused abi u cmd arg with
  | Some err => (err, g, u)
  | None =>
      match ioc_switch abi cmd with
      | Some IOCRESET =>
          (0, tune_set v Tune_qset (tune_set v Tune_block g (DEFAULT_BLOCK abi))
                (DEFAULT_QSET abi), u)
      | Some (IOCS t) =>
          let '(ret, x) := __get_user u arg in (ret, tune_set v t g x, u)
      | Some (IOCT t) => (0, tune_set v t g (wrap_int arg), u)
      | Some (IOCG t) =>
          let '(ret, u') := __put_user u (tune_get v t g) arg in (ret, g, u')
      | Some (IOCQ t) => (tune_get v t g, g, u)
      | Some (IOCX t) =>
          let tmp := tune_get v t g in
          let '(ret, x) := __get_user u arg in
          if ret =? 0
          then let '(ret', u') := __put_user u tmp arg in (ret', tune_set v t g x, u')
          else (ret, tune_set v t g x, u)
      | Some (IOCH t) => (tune_get v t g, tune_set v t g (wrap_int arg), u)
      | None => (- ENOTTY, g, u)
      end
  end.

Definition scullc_ioctl := scull_ioctl Scullc.
Definition scullv_ioctl := scull_ioctl Scullv.
Definition scullp_ioctl := scull_ioctl Scullv.

(** Sample command words, built the way [_IO], [_IOW], [_IOR] and [_IOWR]
    of [<asm-generic/ioctl.h>] build them for an [int] argument, with the
    command numbers 0 to 12 in the order of the case labels. *)
Definition _IOC (dir type nr size : Z) : Z :=
  Z.lor (Z.lor (Z.shiftl dir 30) (Z.shiftl type 8)) (Z.lor nr (Z.shiftl size 16)).

Definition sample_code (magic : Z) (c : ioc) : Z :=
  let base := fun t => match t with Tune_block => 0 | Tune_qset => 6 end in
  match c with
  | IOCRESET => _IOC 0 magic 0 0
  | IOCS t => _IOC _IOC_WRITE magic (base t + 1) 4
  | IOCT t => _IOC 0 magic (base t + 2) 0
  | IOCG t => _IOC _IOC_READ magic (base t + 3) 4
  | IOCQ t => _IOC 0 magic (base t + 4) 0
  | IOCX t => _IOC (Z.lor _IOC_READ _IOC_WRITE) magic (base t + 5) 4
  | IOCH t => _IOC 0 magic (base t + 6) 0
  end.

Definition sample_abi : ioctl_abi := mk_abi 129 12 (sample_code 129) 4000 500.

(** A user space where every address is accessible and holds [f a]. *)
Definition sample_user (f : Z -> Z) : user :=
  mk_user (fun _ _ _ => true) (fun a => Some (f a)).

(** The field of a device that a trim loads from the parameter. *)
Definition tune_of_dev (v : driver) (t : tunable) (dev : scull_dev) : Z :=
  match v, t with
  | Scullc, Tune_block => quantum dev
  | Scullv, Tune_block => order dev
  | _, Tune_qset => qset dev
  end.

(** ** Module load and unload *)

(** The calls into the kernel that take or give back a resource, in the
    order made.  A device-number region is named by its major number (the
    first minor is 0 throughout). *)
Inductive kcall :=
| Region_register (major count : Z)
| Region_unregister (major count : Z)
| Devices_kmalloc
| Devices_kfree
| Cdev_add (i : Z)
| Cdev_del (i : Z)
| Cache_create (size : Z)
| Cache_destroy
| Released (f : freed).

(** The variables of one module: [scullc_major], [scullc_devs], the
    parameters, [scullc_devices] and whether [scullc_cache] is set. *)
Record module_state := mk_module {
  scull_major : Z;
  scull_devs : Z;
  scull_params : params;
  scull_devices : option (list scull_dev);
  scull_cache : bool }.

(** The answers of the kernel during [scullc_init]. *)
Record init_env := mk_init_env {
  region_result : Z;   (* of register_chrdev_region / alloc_chrdev_region *)
  region_major : Z;    (* the major alloc_chrdev_region chose *)
  devices_ok : bool;   (* kmalloc of the device array succeeds *)
  cache_ok : bool }.   (* kmem_cache_create succeeds *)

(** One entry of the zeroed device array after the loop of [scullc_init]
    has set its block size and array width. *)
Definition init_device (v : driver) (g : params) : scull_dev :=
  match v with
  | Scullc => mk_dev None None 0 (scullc_quantum g) 0 (scullc_qset g) 0
  | Scullv => mk_dev None None 0 0 (scullv_order g) (scullv_qset g) 0
  end.

(** The loop of [scullc_cleanup]: [cdev_del] and trim of every device,
    the result of the trim being ignored.  [None]: a trim faults. *)
Fixpoint cleanup_devices (v : driver) (g : params) (i : Z) (l : list scull_dev)
  : option (list kcall) :=
  match l with
  | [] => Some []
  | d :: l' =>
      match scull_trim v g d with
      | (Oops, _, _) => None
      | (Ret _, _, fr) =>
          match cleanup_devices v g (i + 1) l' with
          | None => None
          | Some tr => Some (Cdev_del i :: map Released fr ++ tr)
          end
      end
  end.

(** [scullc_cleanup] / [scullv_cleanup]: the resources given back, or
    [None] when it faults (a trim faults, or the loop runs over a device
    array that is missing or too short). *)
Definition scull_cleanup (v : driver) (st : module_state) : option (list kcall) :=
  let n := Z.to_nat (scull_devs st) in
  let loop :=
    match scull_devices st with
    | Some l => if (length l <? n)%nat then None
                else cleanup_devices v (scull_params st) 0 (firstn n l)
    | None => if (n =? 0)%nat then Some [] else None
    end in
  match loop with
  | None => None
  | Some tr =>
      Some (tr
            ++ match scull_devices st with Some _ => [Devices_kfree] | None => [] end
            ++ match v with
               | Scullc => if scull_cache st then [Cache_destroy] else []
               | Scullv => []
               end
            ++ [Region_unregister (scull_major st) (scull_devs st)])
  end.

(** [scullc_init] / [scullv_init].  Result: return value, the variables of
    the module, the resource calls made. *)
Definition scull_init (v : driver) (ie : init_env) (st : module_state)
  : result * module_state * list kcall :=
  let g := scull_params st in
  let devs := scull_devs st in
  let major :=
    if scull_major st =? 0
    then (if region_result ie <? 0 then 0 else region_major ie)
    else scull_major st in
  if region_result ie <? 0
  then (Ret (region_result ie),
        mk_module major devs g (scull_devices st) (scull_cache st), [])
  else
    let tr0 := [Region_register major devs] in
    if negb (devices_ok ie)
    then (Ret (- ENOMEM), mk_module major devs g None (scull_cache st),
          tr0 ++ [Region_unregister major devs])
    else
      let n := Z.to_nat devs in
      let l := repeat (init_device v g) n in
      let tr1 := tr0 ++ [Devices_kmalloc] ++ map (fun i => Cdev_add (Z.of_nat i)) (seq 0 n) in
      match v with
      | Scullv => (Ret 0, mk_module major devs g (Some l) (scull_cache st), tr1)
      | Scullc =>
          if cache_ok ie
          then (Ret 0,
                mk_module major devs
                  (mk_params (scullc_quantum g) (scullc_qset g) (scullv_order g)
                     (scullv_qset g) (scullc_quantum g))
                  (Some l) true,
                tr1 ++ [Cache_create (scullc_quantum g)])
          else
            match scull_cleanup Scullc (mk_module major devs g (Some l) false) with
            | None => (Oops, mk_module major devs g (Some l) false, tr1)
            | Some tr2 => (Ret (- ENOMEM), mk_module major devs g None false, tr1 ++ tr2)
            end
      end.

Definition scullc_init := scull_init Scullc.
Definition scullv_init := scull_init Scullv.
Definition scullc_cleanup := scull_cleanup Scullc.
Definition scullv_cleanup := scull_cleanup Scullv.

(** The blocks, list items and arrays a sequence of resource calls gives
    back. *)
Definition released (tr : list kcall) : list freed :=
  flat_map (fun c => match c with Released f => [f] | _ => [] end) tr.

(** ** Calls on a loaded module *)

(** A call on device [i] through some open file at position [pos] (with
    the page reference counts [refs]), an open of device [i], an ioctl. *)
Inductive call :=
| Call_op (i : nat) (pos : Z) (refs : Z -> Z) (o : op)
| Call_open (i : nat) (e : env) (wronly : bool)
| Call_ioctl (abi : ioctl_abi) (u : user) (cmd arg : Z).

Definition on_device (st : module_state) (i : nat) (f : scull_dev -> scull_dev)
  : module_state :=
  match scull_devices st with
  | Some l =>
      match nth_error l i with
      | Some d => mk_module (scull_major st) (scull_devs st) (scull_params st)
                    (Some (set_nth l i (f d))) (scull_cache st)
      | None => st
      end
  | None => st
  end.

Definition module_step (k : kernel) (v : driver) (st : module_state) (c : call)
  : module_state :=
  match c with
  | Call_op i pos refs o =>
      on_device st i (fun d => st_dev (step k v (scull_params st) (mk_state d pos refs) o))
  | Call_open i e wronly =>
      on_device st i (fun d => snd (scull_open v (scull_params st) e d wronly))
  | Call_ioctl abi u cmd arg =>
      mk_module (scull_major st) (scull_devs st)
        (snd (fst (scull_ioctl v abi u (scull_params st) cmd arg)))
        (scull_devices st) (scull_cache st)
  end.

Definition module_run (k : kernel) (v : driver) (st : module_state) (cs : list call)
  : module_state :=
  fold_left (module_step k v) cs st.

(** A module before it is loaded, with the given parameters. *)
Definition unloaded (major devs : Z) (g : params) : module_state :=
  mk_module major devs g None false.

Definition sample_init_env : init_env := mk_init_env 0 250 true true.

(** The device array is there, has [n] entries, and every array of every
    device has the width of its device. *)
Definition module_ok (n : nat) (devs : Z) (st : module_state) : Prop :=
  scull_devs st = devs /\
  exists l, scull_devices st = Some l /\ length l = n /\
            forall d, In d l -> arrays_ok d = true.


(** * The USB skeleton driver ([usb/usb-skeleton.c]) *)

(** Constants of [<linux/usb/ch9.h>]. *)
Definition USB_DIR_IN : Z := 128.
Definition USB_ENDPOINT_XFERTYPE_MASK : Z := 3.
Definition USB_ENDPOINT_XFER_BULK : Z := 2.

(** The fields of an endpoint descriptor the probe looks at. *)
Record usb_endpoint_descriptor := mk_endpoint {
  bEndpointAddress : Z;
  bmAttributes : Z;
  wMaxPacketSize : Z }.

(** [struct usb_skel] without [udev] and [interface]: the receive buffer
    (NULL or its bytes, the length being the allocated size), its size,
    the two endpoint addresses and the reference count. *)
Record usb_skel := mk_skel {
  bulk_in_buffer : option (list byte);
  bulk_in_size : Z;
  bulk_in_endpointAddr : Z;
  bulk_out_endpointAddr : Z;
  kref : Z }.

(** The calls into the kernel that take or give back a resource or hand
    data to the USB core. *)
Inductive usb_call :=
| Kzalloc_dev
| Usb_get_dev
| Kmalloc_buffer (size : Z)
| Usb_put_dev
| Kfree_buffer
| Kfree_dev
| Usb_register_dev
| Usb_deregister_dev
| Usb_alloc_urb
| Usb_free_urb
| Usb_alloc_coherent (size : Z)
| Usb_free_coherent
| Kfree_transfer_buffer
| Usb_submit_urb (endpoint : Z) (data : list byte).

(** What the driver, the interface and the open files share: the device
    structure ([None]: not allocated, or freed), whether the interface
    data points to it, and whether the interface is registered (so that
    [usb_find_interface] finds it). *)
Record skel_world := mk_world {
  skel : option usb_skel;
  intfdata : bool;
  registered : bool }.

Definition set_kref (d : usb_skel) (x : Z) : usb_skel :=
  mk_skel (bulk_in_buffer d) (bulk_in_size d) (bulk_in_endpointAddr d)
          (bulk_out_endpointAddr d) x.

(** [skel_delete]: what it gives back. *)
Definition skel_delete (d : usb_skel) : list usb_call :=
  [Usb_put_dev]
  ++ match bulk_in_buffer d with Some _ => [Kfree_buffer] | None => [] end
  ++ [Kfree_dev].

(** [kref_get(&dev->kref)] and [kref_put(&dev->kref, skel_delete)] through
    a pointer to the device structure.  [None]: the structure has been
    freed. *)
Definition kref_get (w : skel_world) : option skel_world :=
  match skel w with
  | Some d => Some (mk_world (Some (set_kref d (kref d + 1))) (intfdata w) (registered w))
  | None => None
  end.

Definition kref_put (w : skel_world) : option (skel_world * list usb_call) :=
  match skel w with
  | Some d =>
      if kref d - 1 =? 0
      then Some (mk_world None (intfdata w) (registered w), skel_delete d)
      else Some (mk_world (Some (set_kref d (kref d - 1))) (intfdata w) (registered w), [])
  | None => None
  end.

Definition is_bulk (ep : usb_endpoint_descriptor) : bool :=
  Z.land (bmAttributes ep) USB_ENDPOINT_XFERTYPE_MASK =? USB_ENDPOINT_XFER_BULK.

Definition is_in (ep : usb_endpoint_descriptor) : bool :=
  negb (Z.land (bEndpointAddress ep) USB_DIR_IN =? 0).

(** The loop of [skel_probe] over the endpoints of the current setting.
    Result: the device structure, the resource calls, and whether the loop
    ran to its end ([false]: the receive buffer could not be allocated). *)
Fixpoint probe_endpoints (buffer_ok : bool) (junk : nat -> byte) (d : usb_skel)
    (eps : list usb_endpoint_descriptor) : usb_skel * list usb_call * bool :=
  match eps with
  | [] => (d, [], true)
  | ep :: rest =>
      let '(d1, tr1, ok) :=
        if (bulk_in_endpointAddr d =? 0) && is_in ep && is_bulk ep
        then
          let size := wMaxPacketSize ep in
          let buffer := if buffer_ok
                        then Some (map junk (seq 0 (Z.to_nat size))) else None in
          (mk_skel buffer size (bEndpointAddress ep) (bulk_out_endpointAddr d) (kref d),
           if buffer_ok then [Kmalloc_buffer size] else [], buffer_ok)
        else (d, [], true) in
      if ok then
        let d2 :=
          if (bulk_out_endpointAddr d1 =? 0) && negb (is_in ep) && is_bulk ep
          then mk_skel (bulk_in_buffer d1) (bulk_in_size d1) (bulk_in_endpointAddr d1)
                       (bEndpointAddress ep) (kref d1)
          else d1 in
        let '(d3, tr3, ok3) := probe_endpoints buffer_ok junk d2 rest in
        (d3, tr1 ++ tr3, ok3)
      else (d1, tr1, false)
  end.

(** The answers of the kernel during [skel_probe]. *)
Record probe_env := mk_probe_env {
  kzalloc_ok : bool;
  buffer_ok : bool;
  buffer_junk : nat -> byte;
  register_result : Z }.

(** [skel_probe] on an interface with the given endpoints.  Result: return
    value (or a fault), the shared state, the calls made. *)
Definition skel_probe (pe : probe_env) (eps : list usb_endpoint_descriptor)
  : result * skel_world * list usb_call :=
  if negb (kzalloc_ok pe) then (Ret (- ENOMEM), mk_world None false false, [])
  else
    let d0 := mk_skel None 0 0 0 1 in
    let '(d, tr, ok) := probe_endpoints (buffer_ok pe) (buffer_junk pe) d0 eps in
    let tr0 := [Kzalloc_dev; Usb_get_dev] ++ tr in
    let fail := fun (retval : Z) (tr' : list usb_call) =>
      match kref_put (mk_world (Some d) false false) with
      | Some (w, trd) => (Ret retval, w, tr' ++ trd)
      | None => (Oops, mk_world None false false, tr')
      end in
    if negb ok then fail (- ENOMEM) tr0
    else if negb (negb (bulk_in_endpointAddr d =? 0) && negb (bulk_out_endpointAddr d =? 0))
    then fail (- ENOMEM) tr0
    else if negb (register_result pe =? 0)
    then fail (register_result pe) tr0
    else (Ret 0, mk_world (Some d) true true, tr0 ++ [Usb_register_dev]).

(** [skel_open]: return value, the shared state, and whether the file now
    points to the device structure. *)
Definition skel_open (w : skel_world) : result * skel_world * bool :=
  if negb (registered w) then (Ret (- ENODEV), w, false)
  else if negb (intfdata w) then (Ret (- ENODEV), w, false)
  else match kref_get w with
       | Some w' => (Ret 0, w', true)
       | None => (Oops, w, false)
       end.

(** [skel_release] of a file whose private data points to the device
    structure ([private = true]) or is NULL. *)
Definition skel_release (w : skel_world) (private : bool)
  : result * skel_world * list usb_call :=
  if negb private then (Ret (- ENODEV), w, [])
  else match kref_put w with
       | Some (w', tr) => (Ret 0, w', tr)
       | None => (Oops, w, [])
       end.

(** [skel_disconnect]: [None] is a fault. *)
Definition skel_disconnect (w : skel_world) : option (skel_world * list usb_call) :=
  if negb (intfdata w) then None
  else match kref_put (mk_world (skel w) false false) with
       | Some (w', tr) => Some (w', Usb_deregister_dev :: tr)
       | None => None
       end.

(** The answers of the kernel during [skel_write]. *)
Record write_env := mk_write_env {
  urb_ok : bool;
  coherent_ok : bool;
  submit_result : Z }.

(** [skel_write]: [user] holds the readable bytes of the user buffer.
    Result: return value and the calls made. *)
Definition skel_write (we : write_env) (d : usb_skel) (user : list byte) (count : Z)
  : result * list usb_call :=
  if count =? 0 then (Ret (wrap_long count), [])
  else if negb (urb_ok we) then (Oops, [])
  else
    let tr0 := [Usb_alloc_urb] in
    if negb (coherent_ok we) then (Ret (- ENOMEM), tr0 ++ [Usb_free_urb])
    else
      let tr1 := tr0 ++ [Usb_alloc_coherent count] in
      let error := tr1 ++ [Usb_free_coherent; Usb_free_urb; Kfree_transfer_buffer] in
      if Z.of_nat (length user) <? count then (Ret (- EFAULT), error)
      else
        let tr2 := tr1 ++ [Usb_submit_urb (bulk_out_endpointAddr d)
                             (firstn (Z.to_nat count) user)] in
        if negb (submit_result we =? 0)
        then (Ret (submit_result we),
              tr2 ++ [Usb_free_coherent; Usb_free_urb; Kfree_transfer_buffer])
        else (Ret (wrap_long count), tr2 ++ [Usb_free_urb]).

(** [skel_write_bulk_callback], which the USB core calls when the urb
    completes: the status is only logged, the transfer buffer is given
    back. *)
Definition skel_write_bulk_callback (status : Z) : list usb_call :=
  [Usb_free_coherent].

(** The answers of the kernel during [skel_read]: the return value of
    [usb_bulk_msg] and the bytes the device sent, of which the call takes
    no more than the length it was given. *)
Record read_env := mk_read_env {
  bulk_result : Z;
  bulk_data : list byte }.

(** [skel_read]: [buf_len] is the number of writable bytes of the user
    buffer.  [usb_bulk_msg] stores the length received through
    [(int * )&count], that is into the low four bytes of the [size_t]
    (little-endian LP64).  Result: return value and the bytes delivered. *)
Definition skel_read (re : read_env) (d : usb_skel) (buf_len count : Z)
  : result * list byte :=
  match bulk_in_buffer d with
  | None => (Oops, [])
  | Some buffer =>
      let len := Z.min (bulk_in_size d) count in
      let got := firstn (Z.to_nat len) (bulk_data re) in
      let buffer' := got ++ skipn (length got) buffer in
      let count' := count - count mod 2 ^ 32 + Z.of_nat (length got) in
      if negb (bulk_result re =? 0) then (Ret (bulk_result re), [])
      else if Z.of_nat (length buffer') <? count' then (Oops, [])
      else
        let copied := Z.min count' (Z.max 0 buf_len) in
        let out := firstn (Z.to_nat copied) buffer' in
        if copied <? count' then (Ret (- EFAULT), out)
        else (Ret (wrap_int count'), out)
  end.

(** The calls the kernel makes on one bound interface. *)
Inductive skel_event := Ev_open | Ev_release | Ev_disconnect.

(** The shared state together with the number of open files that point to
    the device structure.  A release comes only for an open file, and a
    disconnect only while the interface is bound; [None]: a fault. *)
Definition skel_step (s : option (skel_world * nat)) (ev : skel_event)
  : option (skel_world * nat) :=
  match s with
  | None => None
  | Some (w, files) =>
      match ev with
      | Ev_open =>
          match skel_open w with
          | (Oops, _, _) => None
          | (Ret _, w', got) => Some (w', if got then S files else files)
          end
      | Ev_release =>
          match files with
          | O => Some (w, files)
          | S files' =>
              match skel_release w true with
              | (Oops, _, _) => None
              | (Ret _, w', _) => Some (w', files')
              end
          end
      | Ev_disconnect =>
          if registered w
          then match skel_disconnect w with
               | Some (w', _) => Some (w', files)
               | None => None
               end
          else Some (w, files)
      end
  end.

Definition skel_run (w : skel_world) (evs : list skel_event) : option (skel_world * nat) :=
  fold_left skel_step evs (Some (w, O)).

(** Descriptors used as sample data: a bulk-in endpoint, a bulk-out
    endpoint and an interrupt-in endpoint. *)
Definition ep_bulk_in : usb_endpoint_descriptor := mk_endpoint 129 2 64.
Definition ep_bulk_out : usb_endpoint_descriptor := mk_endpoint 2 2 64.
Definition ep_int_in : usb_endpoint_descriptor := mk_endpoint 131 3 8.
Definition sample_probe_env : probe_env := mk_probe_env true true (fun _ => x00) 0.

(** The endpoints the probe is after: the first bulk-in endpoint, and the
    first bulk-out endpoint whose address is not 0. *)
Definition bulk_in_of (eps : list usb_endpoint_descriptor)
  : option usb_endpoint_descriptor :=
  find (fun ep => is_in ep && is_bulk ep) eps.

Definition bulk_out_of (eps : list usb_endpoint_descriptor)
  : option usb_endpoint_descriptor :=
  find (fun ep => negb (is_in ep) && is_bulk ep && negb (bEndpointAddress ep =? 0)) eps.

(** What holds between the calls: the reference count is the number of
    open files plus one while the interface is bound, the interface data
    is set while it is bound, and the structure is gone only when the
    interface is unbound and no file is open. *)
Definition skel_inv (w : skel_world) (files : nat) : Prop :=
  intfdata w = registered w /\
  match skel w with
  | Some d => kref d = Z.of_nat files + (if registered w then 1 else 0) /\ 0 < kref d
  | None => registered w = false /\ files = O
  end.

(** ** Calls on one scullp device *)

(** A call on an open device together with the module parameters of the
    moment (ioctl may have changed them since the last call): one of the
    calls of [op] through a file at position [pos], or an open. *)
Inductive dev_call :=
| Dev_op (g : params) (pos : Z) (refs : Z -> Z) (o : op)
| Dev_open (g : params) (e : env) (wronly : bool).

(** What the kernel can ask of a scullp device: mappings come through
    [scullp_mmap] (fewer than [INT_MAX] of them at a time), page faults
    through [scullp_vma_nopage], and a vma is closed only if one is
    open. *)
Definition scullp_admits (d : scull_dev) (c : dev_call) : bool :=
  match c with
  | Dev_op _ _ _ (Op_mmap m) =>
      match m with Scullp_map => vmas d <? 2 ^ 31 - 1 | Scullv_map => false end
  | Dev_op _ _ _ (Op_fault m _ _ _) =>
      match m with Scullp_map => true | Scullv_map => false end
  | Dev_op _ _ _ Op_vma_close => 0 <? vmas d
  | _ => true
  end.

Definition dev_step (k : kernel) (d : scull_dev) (c : dev_call) : scull_dev :=
  match c with
  | Dev_op g pos refs o => st_dev (step k Scullv g (mk_state d pos refs) o)
  | Dev_open g e wronly => snd (scull_open Scullv g e d wronly)
  end.

(** The device after the calls, [None] when a call is not admitted. *)
Fixpoint scullp_run (k : kernel) (d : scull_dev) (cs : list dev_call)
  : option scull_dev :=
  match cs with
  | [] => Some d
  | c :: cs' => if scullp_admits d c then scullp_run k (dev_step k d c) cs' else None
  end.

(** The mapping count is a non-negative [int], and a mapped device has
    order 0. *)
Definition mapped_ok (d : scull_dev) : Prop :=
  0 <= vmas d < 2 ^ 31 /\ (vmas d <> 0 -> order d = 0).

(** * Properties *)

Ltac inv H := inversion H; subst; clear H.

(** ** Machine integers *)

Lemma wrap_int_id z : - 2 ^ 31 <= z < 2 ^ 31 -> wrap_int z = z.
Proof.
  intros H. unfold wrap_int. rewrite Z.mod_small; lia.
Qed.

Lemma wrap_uint_id z : 0 <= z < 2 ^ 32 -> wrap_uint z = z.
Proof. intros H. unfold wrap_uint. apply Z.mod_small; lia. Qed.

Lemma wrap_long_id z : - 2 ^ 63 <= z < 2 ^ 63 -> wrap_long z = z.
Proof.
  intros H. unfold wrap_long. rewrite Z.mod_small; lia.
Qed.

Lemma wrap_ulong_id z : 0 <= z < 2 ^ 64 -> wrap_ulong z = z.
Proof. intros H. unfold wrap_ulong. apply Z.mod_small; lia. Qed.

Lemma wrap_ulong_range z : 0 <= wrap_ulong z < 2 ^ 64.
Proof. unfold wrap_ulong. apply Z.mod_pos_bound. lia. Qed.

(** ** The list of items *)

Lemma follow_reaches ok n : forall dev dev1 dptr,
  scull_follow ok dev n = Some (dev1, dptr) -> item_at dev1 n = Some dptr.
Proof.
  induction n as [|n IH]; simpl; intros dev dev1 dptr H.
  - inv H; reflexivity.
  - destruct (next dev) as [d|] eqn:En.
    + destruct (scull_follow ok d n) as [[d' p]|] eqn:Ef; inversion H; subst.
      simpl. eauto.
    + destruct ok; [|discriminate].
      destruct (scull_follow true zero_dev n) as [[d' p]|] eqn:Ef; inversion H; subst.
      simpl. eauto.
Qed.

Lemma follow_head ok n dev dev1 dptr :
  scull_follow ok dev n = Some (dev1, dptr) ->
  data dev1 = data dev /\ vmas dev1 = vmas dev /\ quantum dev1 = quantum dev /\
  order dev1 = order dev /\ qset dev1 = qset dev /\ size dev1 = size dev.
Proof.
  destruct n; simpl; intros H.
  - inversion H; subst; auto 10.
  - destruct (next dev) as [d|].
    + destruct (scull_follow ok d n) as [[d' p]|]; inversion H; subst; simpl; auto 10.
    + destruct ok; [|discriminate].
      destruct (scull_follow true zero_dev n) as [[d' p]|]; inversion H; subst; simpl; auto 10.
Qed.

Lemma item_at_zero_dev m d : item_at zero_dev m = Some d -> d = zero_dev.
Proof. destruct m; simpl; intros H; [now inversion H | discriminate]. Qed.

Lemma data_at_zero_dev m : data_at zero_dev m = None.
Proof. destruct m; reflexivity. Qed.

(** Following never changes what is stored: the items it adds are empty. *)
Lemma follow_data_at ok n : forall dev dev1 dptr m,
  scull_follow ok dev n = Some (dev1, dptr) -> data_at dev1 m = data_at dev m.
Proof.
  induction n as [|n IH]; simpl; intros dev dev1 dptr m H.
  - inv H; reflexivity.
  - destruct (next dev) as [d|] eqn:En.
    + destruct (scull_follow ok d n) as [[d' p]|] eqn:Ef; inversion H; subst.
      destruct m; unfold data_at; simpl; [reflexivity|].
      rewrite En. apply (IH _ _ _ m Ef).
    + destruct ok; [|discriminate].
      destruct (scull_follow true zero_dev n) as [[d' p]|] eqn:Ef; inversion H; subst.
      destruct m; unfold data_at; simpl; [reflexivity|].
      rewrite En. fold (data_at d' m). rewrite (IH _ _ _ m Ef).
      apply data_at_zero_dev.
Qed.

(** Where the item exists already, following allocates nothing. *)
Lemma follow_existing ok n : forall dev d,
  item_at dev n = Some d -> scull_follow ok dev n = Some (dev, d).
Proof.
  induction n as [|n IH]; simpl; intros dev d H.
  - inv H; reflexivity.
  - destruct dev as [dt [nx|] vm qu od qs sz]; simpl in *; [|discriminate].
    rewrite (IH _ _ H). reflexivity.
Qed.

Lemma follow_succeeds n : forall dev, exists dev1 dptr,
  scull_follow true dev n = Some (dev1, dptr).
Proof.
  induction n as [|n IH]; simpl; intros dev; eauto.
  destruct (next dev) as [d|].
  - destruct (IH d) as (d1 & p & E). rewrite E. eauto.
  - destruct (IH zero_dev) as (d1 & p & E). rewrite E. eauto.
Qed.

Lemma upd_item_head n f dev :
  (forall d, vmas (f d) = vmas d /\ quantum (f d) = quantum d /\
             order (f d) = order d /\ qset (f d) = qset d /\ size (f d) = size d) ->
  vmas (upd_item dev n f) = vmas dev /\ quantum (upd_item dev n f) = quantum dev /\
  order (upd_item dev n f) = order dev /\ qset (upd_item dev n f) = qset dev /\
  size (upd_item dev n f) = size dev.
Proof.
  intros Hf. destruct n; simpl; [apply Hf|].
  destruct (next dev); simpl; auto.
Qed.

Lemma upd_item_data_at x n : forall dev m, item_at dev n <> None ->
  data_at (upd_item dev n (fun d => set_data d x)) m =
  if Nat.eqb m n then x else data_at dev m.
Proof.
  induction n as [|n IH]; simpl; intros dev m H.
  - destruct m; reflexivity.
  - destruct (next dev) as [d|] eqn:En; [|congruence].
    destruct m; unfold data_at; simpl; [reflexivity|].
    rewrite En. apply (IH d m H).
Qed.

Lemma same_head_refl d : same_head d d.
Proof. repeat split. Qed.

Lemma same_head_follow ok dev n dev1 dptr :
  scull_follow ok dev n = Some (dev1, dptr) -> same_head dev dev1.
Proof.
  intros H. destruct (follow_head _ _ _ _ _ H) as (_ & ? & ? & ? & ? & ?).
  repeat split; assumption.
Qed.

Lemma same_head_store dev dev1 n x :
  same_head dev dev1 ->
  same_head dev (upd_item dev1 n (fun d => set_data d x)).
Proof.
  intros (? & ? & ? & ? & ?).
  destruct (upd_item_head n (fun d => set_data d x) dev1) as (? & ? & ? & ? & ?).
  { intros d. repeat split. }
  repeat split; congruence.
Qed.

(** ** Address translation *)

Lemma config_itemsize q qs : config_ok q qs ->
  wrap_int (q * qs) = q * qs /\ 0 < q * qs.
Proof.
  intros (Hq & Hs & Hb). split; [apply wrap_int_id|]; nia.
Qed.

Lemma config_bounds q qs : config_ok q qs -> 0 < q < 2 ^ 31 /\ 0 < qs < 2 ^ 31.
Proof. intros (Hq & Hs & Hb). nia. Qed.

(** Slot and in-block offset for any non-negative file position. *)
Lemma translate_low q qs f : config_ok q qs -> 0 <= f ->
  s_pos (translate q qs f) = (f mod (q * qs)) / q /\
  q_pos (translate q qs f) = (f mod (q * qs)) mod q /\
  0 <= s_pos (translate q qs f) < qs /\
  0 <= q_pos (translate q qs f) < q.
Proof.
  intros Hc Hf. destruct (config_itemsize _ _ Hc) as [Ei Hi].
  destruct Hc as (Hq & Hs & Hb).
  unfold translate; simpl. rewrite Ei.
  rewrite (Z.rem_mod_nonneg f (q * qs)) by lia.
  assert (Hr : 0 <= f mod (q * qs) < q * qs) by (apply Z.mod_pos_bound; lia).
  rewrite wrap_int_id by lia.
  rewrite Z.quot_div_nonneg by lia. rewrite Z.rem_mod_nonneg by lia.
  repeat split; try reflexivity.
  - apply Z.div_pos; lia.
  - apply Z.div_lt_upper_bound; lia.
  - apply Z.mod_pos_bound; lia.
  - apply Z.mod_pos_bound; lia.
Qed.

(** The list item, while its index fits an [int]. *)
Lemma translate_item q qs f : config_ok q qs -> 0 <= f < 2 ^ 31 * (q * qs) ->
  item (translate q qs f) = f / (q * qs) /\
  0 <= item (translate q qs f) < 2 ^ 31 /\
  follow_steps (item (translate q qs f)) = Z.to_nat (f / (q * qs)).
Proof.
  intros Hc Hf. destruct (config_itemsize _ _ Hc) as [Ei Hi].
  unfold translate; simpl. rewrite Ei.
  rewrite Z.quot_div_nonneg by lia.
  assert (Hd : 0 <= f / (q * qs) < 2 ^ 31).
  { split; [apply Z.div_pos; lia | apply Z.div_lt_upper_bound; lia]. }
  rewrite wrap_int_id by lia. unfold follow_steps. rewrite wrap_uint_id by lia.
  auto.
Qed.

(** The translation inverts the construction of an offset from its
    three coordinates. *)
Lemma translate_build q qs i s o : config_ok q qs ->
  0 <= i < 2 ^ 31 -> 0 <= s < qs -> 0 <= o < q ->
  translate q qs (i * (q * qs) + s * q + o) = mk_position i s o.
Proof.
  intros Hc Hi Hs Ho.
  assert (Hf : 0 <= i * (q * qs) + s * q + o) by (destruct Hc; nia).
  assert (Hr : 0 <= s * q + o < q * qs) by (destruct Hc; nia).
  assert (Ed : (i * (q * qs) + s * q + o) / (q * qs) = i).
  { symmetry. apply (Z.div_unique _ _ i (s * q + o)); [lia | ring]. }
  assert (Em : (i * (q * qs) + s * q + o) mod (q * qs) = s * q + o).
  { symmetry. apply (Z.mod_unique _ _ i (s * q + o)); [lia | ring]. }
  destruct (translate_low q qs _ Hc Hf) as (E1 & E2 & _).
  destruct (translate_item q qs (i * (q * qs) + s * q + o) Hc) as (E3 & _).
  { destruct Hc. nia. }
  rewrite Em in E1, E2. rewrite Ed in E3.
  assert (s = (s * q + o) / q).
  { apply (Z.div_unique _ _ s o); [lia | ring]. }
  assert (o = (s * q + o) mod q).
  { apply (Z.mod_unique _ _ s o); [lia | ring]. }
  destruct (translate q qs (i * (q * qs) + s * q + o)) as [a b c]; simpl in *.
  congruence.
Qed.

Lemma translate_split q qs f : config_ok q qs -> 0 <= f < 2 ^ 31 * (q * qs) ->
  f = item (translate q qs f) * (q * qs) + s_pos (translate q qs f) * q
      + q_pos (translate q qs f).
Proof.
  intros Hc Hf.
  destruct (translate_low q qs f Hc) as (E1 & E2 & _); [lia|].
  destruct (translate_item q qs f Hc Hf) as (E3 & _).
  rewrite E1, E2, E3.
  assert (Hq : 0 < q) by apply Hc.
  assert (Hi : 0 < q * qs) by (destruct Hc; nia).
  pose proof (Z.div_mod f (q * qs)). pose proof (Z.div_mod (f mod (q * qs)) q).
  lia.
Qed.

(** ** Well-formed devices *)

Lemma item_at_items n : forall dev d, item_at dev n = Some d -> In d (items dev).
Proof.
  induction n as [|n IH]; intros [dt nx vm qu od qs sz] d H; simpl in *.
  - inv H. now left.
  - destruct nx as [d0|]; [|discriminate]. right. eauto.
Qed.

Lemma arrays_ok_data_at dev n arr :
  arrays_ok dev = true -> data_at dev n = Some arr ->
  Z.of_nat (length arr) = qset dev.
Proof.
  unfold arrays_ok, data_at. intros Hw H.
  destruct (item_at dev n) as [d|] eqn:Ed; [|discriminate].
  rewrite forallb_forall in Hw. specialize (Hw d (item_at_items _ _ _ Ed)).
  unfold item_ok in Hw. rewrite H in Hw. lia.
Qed.

Lemma slot_in_range {A} (arr : list A) i :
  0 <= i < Z.of_nat (length arr) -> exists x, slot arr i = Some x.
Proof.
  intros H. unfold slot. destruct (i <? 0) eqn:E; [lia|].
  destruct (nth_error arr (Z.to_nat i)) as [x|] eqn:En; eauto.
  apply nth_error_None in En. lia.
Qed.

Lemma clamp_le q o c : 0 <= c -> 0 <= clamp q o c <= c.
Proof.
  unfold clamp. intros H.
  pose proof (wrap_ulong_range (wrap_int (q - o))).
  destruct (_ <? c) eqn:E; [apply Z.ltb_lt in E|]; lia.
Qed.

Lemma clamp_min q o c : 0 < q < 2 ^ 31 -> 0 <= o < q ->
  clamp q o c = Z.min c (q - o).
Proof.
  intros Hq Ho. unfold clamp.
  rewrite wrap_int_id by lia. rewrite wrap_ulong_id by lia.
  destruct (q - o <? c) eqn:E; [apply Z.ltb_lt in E | apply Z.ltb_ge in E]; lia.
Qed.

(** ** Reading *)

(** What the item reached by following holds is what the device held
    there before the walk. *)
Lemma follow_dptr_data ok dev n dev1 dptr :
  scull_follow ok dev n = Some (dev1, dptr) -> data dptr = data_at dev n.
Proof.
  intros H. rewrite <- (follow_data_at _ _ _ _ _ n H).
  unfold data_at. now rewrite (follow_reaches _ _ _ _ _ H).
Qed.

Lemma follow_granted_or_existing ok dev n :
  ok = true \/ item_at dev n <> None ->
  exists dev1 dptr, scull_follow ok dev n = Some (dev1, dptr).
Proof.
  intros [->|Hex]; [apply follow_succeeds|].
  destruct (item_at dev n) as [d|] eqn:Ei; [|congruence].
  exists dev, d. now apply follow_existing.
Qed.

(** Behind the last list item there is no block. *)
Lemma block_at_past_end dev n s :
  next dev = None -> (0 < n)%nat -> block_at dev n s = None.
Proof.
  intros H Hn. destruct n as [|m]; [lia|].
  unfold block_at, data_at. simpl. now rewrite H.
Qed.

(** The indices [translate] computes are those of the specification while
    the list item index fits an [int]. *)
Lemma translate_spec q qs f : config_ok q qs -> 0 <= f < 2 ^ 31 * (q * qs) ->
  follow_steps (item (translate q qs f)) = Z.to_nat (segment_index q qs f) /\
  s_pos (translate q qs f) = block_index q qs f /\
  q_pos (translate q qs f) = intra_offset q qs f.
Proof.
  intros Hc Hf.
  destruct (translate_item q qs f Hc Hf) as (_ & _ & E).
  destruct (translate_low q qs f Hc (proj1 Hf)) as (Es & Eq & _).
  auto.
Qed.

(** A read at the size, or below it in a hole, in the indices the code
    computes. *)
Lemma read_zero_cases k v e dev buf_len count f_pos :
  lock_interrupted e = false ->
  0 <= f_pos -> 0 <= count -> f_pos + count < 2 ^ 63 ->
  config_ok (quantum_of k v dev) (qset dev) -> arrays_ok dev = true ->
  kmalloc_item e = true \/
  item_at dev
    (follow_steps (item (translate (quantum_of k v dev) (qset dev) f_pos))) <> None ->
  size dev = f_pos \/
  (f_pos < size dev /\
   block_at dev
     (follow_steps (item (translate (quantum_of k v dev) (qset dev) f_pos)))
     (s_pos (translate (quantum_of k v dev) (qset dev) f_pos)) = None) ->
  exists dev1, scull_read k v e dev buf_len count f_pos = (Ret 0, dev1, f_pos, []).
Proof.
  intros Hl Hf Hn Hb Hc Hw Hmem Hcase.
  unfold scull_read. rewrite Hl.
  rewrite (wrap_ulong_id f_pos) by lia.
  destruct (Z.ltb_spec (size dev) f_pos) as [?|Hle]; [lia|].
  destruct (config_itemsize _ _ Hc) as [Ei Hi]. rewrite Ei.
  destruct (Z.eqb_spec (quantum_of k v dev * qset dev) 0) as [E0|_]; [lia|].
  set (p := translate (quantum_of k v dev) (qset dev) f_pos) in *.
  destruct (follow_granted_or_existing _ dev (follow_steps (item p)) Hmem)
    as (dev1 & dptr & Ef).
  rewrite Ef. pose proof (follow_dptr_data _ _ _ _ _ Ef) as Ed.
  destruct (data dptr) as [arr|]; [|eauto].
  symmetry in Ed.
  pose proof (arrays_ok_data_at _ _ _ Hw Ed) as Elen.
  destruct (translate_low _ _ f_pos Hc Hf) as (_ & _ & Hs & Hq). fold p in Hs, Hq.
  destruct (slot_in_range arr (s_pos p)) as [x Ex]; [lia|]. rewrite Ex.
  destruct x as [b|]; [|eauto].
  destruct Hcase as [Es|[_ Hhole]].
  - assert (Ec : (if size dev <? wrap_ulong (f_pos + count)
                  then wrap_ulong (size dev - f_pos) else count) = 0).
    { rewrite wrap_ulong_id by lia.
      destruct (size dev <? f_pos + count) eqn:E.
      - rewrite Es, Z.sub_diag. reflexivity.
      - apply Z.ltb_ge in E. lia. }
    rewrite Ec.
    pose proof (clamp_le (quantum_of k v dev) (q_pos p) 0 (Z.le_refl 0)) as Hcl.
    replace (clamp (quantum_of k v dev) (q_pos p) 0) with 0 by lia.
    replace (Z.min 0 (Z.max 0 buf_len)) with 0 by lia.
    simpl. rewrite Z.add_0_r, !wrap_long_id by lia. eauto.
  - unfold block_at in Hhole. rewrite Ed, Ex in Hhole. discriminate.
Qed.

(** C1, as the code has it.  A read beyond the size returns 0 at once.
    On a device with a usable configuration and arrays of the configured
    width, a read at the size returns 0 when the walk gets the list items
    it may have to create; and at an offset below [2^31 * quantum * qset]
    (the list item index fits the [int] the code keeps it in) a read at
    the size, and a read below the size that lands in a hole (the list
    item, the array or the block of the offset, in the addressing of the
    specification, is missing), returns 0 and delivers no byte when the
    list item of the offset exists or the walk gets the memory for it.
    The call is assumed to get the lock. *)
Theorem read_end_or_hole_returns_zero
    (k : kernel) (v : driver) (e : env) (dev : scull_dev) (buf_len count f_pos : Z) :
  lock_interrupted e = false ->
  0 <= f_pos -> 0 <= count -> f_pos + count < 2 ^ 63 ->
  (size dev < f_pos ->
   scull_read k v e dev buf_len count f_pos = (Ret 0, dev, f_pos, [])) /\
  (config_ok (quantum_of k v dev) (qset dev) -> arrays_ok dev = true ->
   size dev = f_pos -> kmalloc_item e = true ->
   exists dev1, scull_read k v e dev buf_len count f_pos = (Ret 0, dev1, f_pos, [])) /\
  (config_ok (quantum_of k v dev) (qset dev) -> arrays_ok dev = true ->
   f_pos < 2 ^ 31 * (quantum_of k v dev * qset dev) ->
   kmalloc_item e = true \/
   item_at dev (Z.to_nat (segment_index (quantum_of k v dev) (qset dev) f_pos)) <> None ->
   size dev = f_pos \/
   (f_pos < size dev /\ block_of (quantum_of k v dev) (qset dev) dev f_pos = None) ->
   exists dev1, scull_read k v e dev buf_len count f_pos = (Ret 0, dev1, f_pos, [])).
Proof.
  intros Hl Hf Hn Hb. split; [|split].
  - intros Hpast. unfold scull_read. rewrite Hl.
    rewrite wrap_ulong_id by lia.
    destruct (Z.ltb_spec (size dev) f_pos); [reflexivity | lia].
  - intros Hc Hw Hs Hk.
    apply (read_zero_cases k v e dev buf_len count f_pos Hl Hf Hn Hb Hc Hw); auto.
  - intros Hc Hw Hlim Hmem Hcase.
    destruct (translate_spec _ _ f_pos Hc (conj Hf Hlim)) as (En & Esp & _).
    apply (read_zero_cases k v e dev buf_len count f_pos Hl Hf Hn Hb Hc Hw).
    + now rewrite En.
    + unfold block_of in Hcase. now rewrite En, Esp.
Qed.

(** Scenario B of the specification in small: two bytes at offset 10 make
    the second list item; a read at offset 0, below the size 12, finds the
    first list item without an array and returns 0; no memory is granted
    to the call. *)
Lemma read_end_or_hole_returns_zero_witness :
  size hole_dev = 12 /\ block_of 4 2 hole_dev 0 = None /\
  exists dev1,
    scull_read demo_kernel Scullc (mk_env false false false 0 (fun _ => x00))
      hole_dev 4 4 0 = (Ret 0, dev1, 0, []).
Proof.
  split; [reflexivity|]. split; [reflexivity|].
  refine (proj2 (proj2 (read_end_or_hole_returns_zero demo_kernel Scullc
                   (mk_env false false false 0 (fun _ => x00)) hole_dev 4 4 0
                   eq_refl _ _ _)) _ _ _ _ _).
  - lia.
  - lia.
  - lia.
  - unfold config_ok. simpl. lia.
  - reflexivity.
  - simpl. lia.
  - right. simpl. discriminate.
  - right. split; reflexivity.
Defined.

(** C1, as stated, fails in three places.  (1) The list item index is kept
    in an [int]: after a byte was written at offset [2^35 + 7] the device
    still has one list item, and a read at offset [2^35], below the size,
    whose segment [2^32] is absent, returns the four bytes of offset 0.
    (2) The configuration is not checked: on a device trimmed while
    [scullc_quantum] was 0, and on one trimmed while [scullc_quantum] and
    [scullc_qset] were 65536 (positive, but their product is 0 as an
    [int]), the read at offset 0 = size divides by zero.  (3) The walk does
    not test its [kmalloc]: the read at offset 8 = size of
    [small_full_dev], whose list item is missing, faults when the
    allocation is refused. *)
Lemma read_outside_int_range_or_bad_config :
  (next far_written_dev = None /\ size far_written_dev = 2 ^ 35 + 8 /\
   segment_index 4 2 (2 ^ 35) = 2 ^ 32 /\
   block_of 4 2 far_written_dev (2 ^ 35) = None /\
   scull_read demo_kernel Scullc (small_env 0) far_written_dev 4 4 (2 ^ 35)
   = (Ret 4, far_written_dev, 2 ^ 35 + 4, [x01; x02; x03; x04])) /\
  (size zero_quantum_dev = 0 /\ quantum zero_quantum_dev = 0 /\
   scull_read demo_kernel Scullc (small_env 0) zero_quantum_dev 4 4 0
   = (Oops, zero_quantum_dev, 0, []) /\
   size wide_dev = 0 /\ quantum wide_dev = 65536 /\ qset wide_dev = 65536 /\
   scull_read demo_kernel Scullc (small_env 0) wide_dev 4 4 0
   = (Oops, wide_dev, 0, [])) /\
  (size small_full_dev = 8 /\ item_at small_full_dev 1 = None /\
   scull_read demo_kernel Scullc (mk_env false false true 0 (fun _ => x00))
     small_full_dev 4 4 8 = (Oops, small_full_dev, 8, [])).
Proof.
  assert (En : next far_written_dev = None) by (vm_compute; reflexivity).
  split; [|split].
  - split; [exact En|]. split; [vm_compute; reflexivity|].
    split; [vm_compute; reflexivity|]. split; [|vm_compute; reflexivity].
    apply block_at_past_end; [exact En|].
    assert (H : segment_index 4 2 (2 ^ 35) = 2 ^ 32) by (vm_compute; reflexivity).
    rewrite H. lia.
  - vm_compute. repeat split.
  - vm_compute. repeat split.
Qed.

(** The device a read leaves behind is the one it found or the one its
    walk produced. *)
Lemma read_device_cases k v e dev buf_len count f_pos :
  let dev1 := snd (fst (fst (scull_read k v e dev buf_len count f_pos))) in
  dev1 = dev \/
  exists dptr,
    scull_follow (kmalloc_item e) dev
      (follow_steps (item (translate (quantum_of k v dev) (qset dev) f_pos)))
    = Some (dev1, dptr).
Proof.
  unfold scull_read.
  destruct (lock_interrupted e); [now left|].
  destruct (size dev <? wrap_ulong f_pos); [now left|].
  destruct (wrap_int (quantum_of k v dev * qset dev) =? 0); [now left|].
  destruct (scull_follow _ dev _) as [[dev1 dptr]|] eqn:Ef; [|now left].
  right. exists dptr.
  destruct (data dptr) as [arr|]; [|reflexivity].
  destruct (slot arr _) as [[b|]|]; try reflexivity.
  destruct (in_bounds _ _ _); [|reflexivity].
  destruct (_ <? _); reflexivity.
Qed.

(** A read changes no field of the head and no array. *)
Lemma read_frame k v e dev buf_len count f_pos r dev1 pos out :
  scull_read k v e dev buf_len count f_pos = (r, dev1, pos, out) ->
  size dev1 = size dev /\ same_head dev dev1 /\
  (forall n, data_at dev1 n = data_at dev n).
Proof.
  intros H. pose proof (read_device_cases k v e dev buf_len count f_pos) as Hc.
  rewrite H in Hc. simpl in Hc.
  destruct Hc as [->|[dptr Ef]].
  - repeat split.
  - pose proof (same_head_follow _ _ _ _ _ Ef) as Hh.
    split; [apply Hh|]. split; [exact Hh|].
    intros n. apply (follow_data_at _ _ _ _ _ n Ef).
Qed.

(** C3, as the code has it: a read never changes the size, the
    configuration, the mapping count, nor any array or block of the device
    (so no stored byte), and it leaves the device as it is whenever the list
    item of its offset exists; but its walk is the allocating one, and a
    read whose offset falls behind the last list item appends the missing
    (empty) items: the device it leaves is the device it found or the one
    [scull_follow] made of it. *)
Theorem read_keeps_stored_data
    (k : kernel) (v : driver) (e : env) (dev : scull_dev) (buf_len count f_pos : Z)
    (r : result) (dev1 : scull_dev) (pos : Z) (out : list byte) :
  scull_read k v e dev buf_len count f_pos = (r, dev1, pos, out) ->
  (size dev1 = size dev /\ quantum dev1 = quantum dev /\ order dev1 = order dev /\
   qset dev1 = qset dev /\ vmas dev1 = vmas dev) /\
  (forall n, data_at dev1 n = data_at dev n) /\
  (forall n s, block_at dev1 n s = block_at dev n s) /\
  (item_at dev
     (follow_steps (item (translate (quantum_of k v dev) (qset dev) f_pos))) <> None ->
   dev1 = dev) /\
  (dev1 = dev \/
   exists dptr,
     scull_follow (kmalloc_item e) dev
       (follow_steps (item (translate (quantum_of k v dev) (qset dev) f_pos)))
     = Some (dev1, dptr)).
Proof.
  intros H. pose proof (read_device_cases k v e dev buf_len count f_pos) as Hc.
  rewrite H in Hc. simpl in Hc.
  split; [|split; [|split; [|split; [|exact Hc]]]];
    destruct Hc as [->|[dptr Ef]]; auto.
  - destruct (follow_head _ _ _ _ _ Ef) as (_ & ? & ? & ? & ? & ?). auto.
  - intros n. apply (follow_data_at _ _ _ _ _ n Ef).
  - intros n s. unfold block_at. now rewrite (follow_data_at _ _ _ _ _ n Ef).
  - intros Hex.
    destruct (item_at dev _) as [d|] eqn:Ei; [|congruence].
    rewrite (follow_existing _ _ _ _ Ei) in Ef. congruence.
Qed.

Lemma read_keeps_stored_data_witness :
  size (snd (fst (fst (scull_read demo_kernel Scullc (small_env 0)
                         small_full_dev 4 4 8)))) = size small_full_dev /\
  block_at (snd (fst (fst (scull_read demo_kernel Scullc (small_env 0)
                             small_full_dev 4 4 8)))) 0 1
  = block_at small_full_dev 0 1.
Proof.
  destruct (read_keeps_stored_data demo_kernel Scullc (small_env 0) small_full_dev
              4 4 8 (Ret 0)
              (snd (fst (fst (scull_read demo_kernel Scullc (small_env 0)
                                small_full_dev 4 4 8))))
              8 [] eq_refl) as ((Hs & _) & _ & Hb & _ & _).
  split; [exact Hs | exact (Hb O 1)].
Defined.

(** C3, as stated, fails: the device of [small_full_dev] has size 8 and a
    single list item; a read at offset 8 returns 0 and leaves a device
    with a second list item. *)
Lemma read_at_size_appends_item :
  size small_full_dev = 8 /\ next small_full_dev = None /\
  exists dev1,
    scull_read demo_kernel Scullc (small_env 0) small_full_dev 4 4 8
    = (Ret 0, dev1, 8, []) /\
    next dev1 = Some zero_dev /\ dev1 <> small_full_dev.
Proof.
  split; [vm_compute; reflexivity|]. split; [vm_compute; reflexivity|].
  eexists. split; [vm_compute; reflexivity|]. split; [reflexivity|].
  intros H. apply (f_equal next) in H. vm_compute in H. discriminate H.
Qed.

(** ** Writing *)

(** A write that returns a non-negative value went all the way: this is
    what it computed. *)
Lemma write_success_inv k v g e dev buf count f_pos r dev' pos' :
  scull_write k v g e dev buf count f_pos = (Ret r, dev', pos') -> 0 <= r ->
  let q := quantum_of k v dev in
  let p := translate q (qset dev) f_pos in
  let n := follow_steps (item p) in
  let c := clamp q (q_pos p) count in
  exists dev1 dptr arr old b,
    lock_interrupted e = false /\
    scull_follow (kmalloc_item e) dev n = Some (dev1, dptr) /\
    write_array e (qset dev) dptr = Some arr /\
    slot arr (s_pos p) = Some old /\
    write_block k v g e dptr old = Alloc_ok b /\
    in_bounds (bytes b) (q_pos p) c = true /\
    c <= Z.of_nat (length buf) /\
    r = wrap_long c /\ pos' = wrap_long (f_pos + c) /\
    dev' = set_size
             (upd_item dev1 n (fun d => set_data d (Some
                (set_nth arr (Z.to_nat (s_pos p))
                   (Some (mk_block (baddr b) (copy_in (bytes b) (q_pos p) c buf)))))))
             (if size dev <? wrap_ulong (wrap_long (f_pos + c))
              then wrap_ulong (wrap_long (f_pos + c)) else size dev).
Proof.
  intros H Hr q p n c. unfold scull_write in H.
  fold q p n in H.
  destruct (lock_interrupted e) eqn:El.
  { inv H. unfold ERESTARTSYS in Hr. lia. }
  destruct (wrap_int (q * qset dev) =? 0); [discriminate|].
  destruct (scull_follow (kmalloc_item e) dev n) as [[dev1 dptr]|] eqn:Ef;
    [|discriminate].
  destruct (write_array e (qset dev) dptr) as [arr|] eqn:Ea.
  2:{ inv H. unfold ENOMEM in Hr. lia. }
  destruct (slot arr (s_pos p)) as [old|] eqn:Es; [|discriminate].
  destruct (write_block k v g e dptr old) as [|b|b] eqn:Eb.
  { inv H. unfold ENOMEM in Hr. lia. }
  { discriminate. }
  fold c in H.
  destruct (in_bounds (bytes b) (q_pos p) c) eqn:Ei; [|discriminate].
  destruct (Z.of_nat (length buf) <? c) eqn:Eu.
  { inv H. unfold EFAULT in Hr. lia. }
  apply Z.ltb_ge in Eu.
  exists dev1, dptr, arr, old, b.
  assert (Esz : size (upd_item dev1 n (fun d => set_data d (Some
                (set_nth arr (Z.to_nat (s_pos p))
                   (Some (mk_block (baddr b) (copy_in (bytes b) (q_pos p) c buf)))))))
                = size dev).
  { destruct (follow_head _ _ _ _ _ Ef) as (_ & _ & _ & _ & _ & <-).
    apply upd_item_head. intros d. repeat split. }
  rewrite Esz in H. inv H. repeat split; auto.
Qed.

(** Case analysis along the control flow of [scull_write]: one goal per
    exit of the function, with the equations of the tests passed. *)
Ltac write_cases :=
  unfold scull_write; cbv zeta;
  destruct (lock_interrupted _) eqn:El;
  [| destruct (wrap_int _ =? 0) eqn:Ez;
     [| destruct (scull_follow _ _ _) as [[dev1 dptr]|] eqn:Ef;
        [ destruct (write_array _ _ dptr) as [arr|] eqn:Ea;
          [ destruct (slot arr _) as [old|] eqn:Es;
            [ destruct (write_block _ _ _ _ dptr old) as [|b|b] eqn:Eb;
              [ | | destruct (in_bounds _ _ _) eqn:Ei;
                    [ destruct (Z.of_nat (length _) <? _) eqn:Eu | ] ]
            | ]
          | ]
        | ] ] ].

(** Every exit of a write: the configuration and the mapping count stay,
    the size does not shrink, and the size and the file position stay put
    unless the call ran to its end. *)
Lemma write_frame k v g e dev buf count f_pos r dev' pos' :
  scull_write k v g e dev buf count f_pos = (r, dev', pos') ->
  (vmas dev' = vmas dev /\ quantum dev' = quantum dev /\ order dev' = order dev /\
   qset dev' = qset dev) /\
  size dev <= size dev' /\
  ((pos' = f_pos /\ size dev' = size dev /\ forall x, 0 <= x -> r <> Ret x) \/
   (r = Ret (wrap_long
               (clamp (quantum_of k v dev)
                  (q_pos (translate (quantum_of k v dev) (qset dev) f_pos)) count)) /\
    pos' = wrap_long
             (f_pos + clamp (quantum_of k v dev)
                        (q_pos (translate (quantum_of k v dev) (qset dev) f_pos)) count))).
Proof.
  revert r dev' pos'. write_cases; intros r dev' pos' H; inv H.
  all: try match goal with
       | Hf : scull_follow _ _ _ = Some _ |- _ =>
           pose proof (same_head_follow _ _ _ _ _ Hf) as Hh
       end.
  all: try match goal with
       | |- context [upd_item ?d1 ?n (fun d => set_data d ?x)] =>
           pose proof (same_head_store _ d1 n x Hh) as Hs
       end.
  all: try (destruct Hs as (? & ? & ? & ? & ?)).
  all: try (destruct Hh as (? & ? & ? & ? & ?)).
  all: simpl.
  all: repeat split; try congruence; try lia.
  all: try (left; repeat split; try congruence;
            intros x Hx Hr; inv Hr;
            unfold ERESTARTSYS, ENOMEM, EFAULT in *; lia).
  all: try (right; split; reflexivity).
  all: match goal with
       | |- _ <= (if ?c then _ else _) => destruct c eqn:E;
           [apply Z.ltb_lt in E|]; lia
       end.
Qed.

(** ** File position *)

(** Case analysis along the control flow of [scull_read]. *)
Ltac read_cases :=
  unfold scull_read; cbv zeta;
  destruct (lock_interrupted _) eqn:El;
  [| destruct (size _ <? wrap_ulong _) eqn:Epast;
     [| destruct (wrap_int _ =? 0) eqn:Ez;
        [| destruct (scull_follow _ _ _) as [[dev1 dptr]|] eqn:Ef;
           [ destruct (data dptr) as [arr|] eqn:Ed;
             [ destruct (slot arr _) as [[b|]|] eqn:Es;
               [ destruct (in_bounds _ _ _) eqn:Ei;
                 [ destruct (Z.min _ _ <? _) eqn:Eu | ]
               | | ]
             | ]
           | ] ] ] ].

(** [count] after "if (f_pos + count > dev->size) count = dev->size - f_pos". *)
Lemma size_clamp_le sz f_pos count :
  0 <= f_pos -> 0 <= count -> f_pos + count < 2 ^ 63 ->
  (sz <? wrap_ulong f_pos) = false ->
  0 <= (if sz <? wrap_ulong (f_pos + count) then wrap_ulong (sz - f_pos) else count)
    <= count.
Proof.
  intros Hf Hc Hb Hp.
  rewrite wrap_ulong_id in Hp by lia. apply Z.ltb_ge in Hp.
  rewrite wrap_ulong_id by lia.
  destruct (sz <? f_pos + count) eqn:E; [apply Z.ltb_lt in E|lia].
  rewrite wrap_ulong_id by lia. lia.
Qed.

Lemma read_position k v e dev buf_len count f_pos r dev1 pos out :
  0 <= f_pos -> 0 <= count -> f_pos + count < 2 ^ 63 ->
  scull_read k v e dev buf_len count f_pos = (r, dev1, pos, out) ->
  pos = f_pos + bytes_returned r.
Proof.
  intros Hf Hc Hb. revert r dev1 pos out.
  read_cases; intros r d1 pos out H; inv H; simpl; try lia.
  pose proof (size_clamp_le (size dev) f_pos count Hf Hc Hb Epast) as Hs.
  match goal with
  | |- context [clamp ?q ?o ?c] => pose proof (clamp_le q o c (proj1 Hs)) as Hcl
  end.
  rewrite !wrap_long_id by lia. lia.
Qed.

Lemma write_position k v g e dev buf count f_pos r dev' pos' :
  0 <= f_pos -> 0 <= count -> f_pos + count < 2 ^ 63 ->
  scull_write k v g e dev buf count f_pos = (r, dev', pos') ->
  pos' = f_pos + bytes_returned r.
Proof.
  intros Hf Hc Hb H.
  destruct (write_frame _ _ _ _ _ _ _ _ _ _ _ H) as (_ & _ & [(-> & _ & Hr)|(-> & ->)]).
  - destruct r as [x|]; simpl; [|lia].
    destruct (Z.max_spec 0 x) as [[Hx ->]|[_ ->]]; [|lia].
    exfalso. apply (Hr x); [lia | reflexivity].
  - match goal with
    | |- context [clamp ?q ?o ?c] => pose proof (clamp_le q o c Hc) as Hcl
    end.
    unfold bytes_returned. rewrite !wrap_long_id by lia. lia.
Qed.

(** C10: for a read and for a write, the file position after the call is
    the position before it plus the number of bytes returned; it is the
    position before it on every exit that returns an error (interrupted
    lock wait, failed allocation, user-copy fault) or 0 bytes (end of
    data, hole), and on a kernel fault.  The position and the count are
    those the VFS lets through: non-negative, with a sum that fits
    [loff_t]. *)
Theorem file_position_advances
    (k : kernel) (v : driver) (g : params) (e : env) (dev : scull_dev)
    (count f_pos : Z) :
  0 <= f_pos -> 0 <= count -> f_pos + count < 2 ^ 63 ->
  (forall buf_len r dev1 pos out,
     scull_read k v e dev buf_len count f_pos = (r, dev1, pos, out) ->
     pos = f_pos + bytes_returned r /\
     (forall n, r = Ret n -> n <= 0 -> pos = f_pos) /\ (r = Oops -> pos = f_pos)) /\
  (forall buf r dev' pos',
     scull_write k v g e dev buf count f_pos = (r, dev', pos') ->
     pos' = f_pos + bytes_returned r /\
     (forall n, r = Ret n -> n <= 0 -> pos' = f_pos) /\ (r = Oops -> pos' = f_pos)).
Proof.
  intros Hf Hc Hb. split.
  - intros buf_len r dev1 pos out H.
    pose proof (read_position _ _ _ _ _ _ _ _ _ _ _ Hf Hc Hb H) as E.
    repeat split; [exact E | intros n -> Hn | intros ->]; simpl in E; lia.
  - intros buf r dev' pos' H.
    pose proof (write_position _ _ _ _ _ _ _ _ _ _ _ Hf Hc Hb H) as E.
    repeat split; [exact E | intros n -> Hn | intros ->]; simpl in E; lia.
Qed.

Lemma file_position_advances_witness :
  snd (fst (scull_read demo_kernel Scullc (small_env 0) small_full_dev 4 4 2)) = 2 + 2 /\
  snd (scull_write demo_kernel Scullc small_params (small_env 4096)
         (fresh_dev 4 0 2) [x01; x02; x03; x04; x05] 5 2) = 2 + 2.
Proof.
  destruct (file_position_advances demo_kernel Scullc small_params (small_env 0)
              small_full_dev 4 2) as [Hr _]; [lia | lia | lia |].
  destruct (file_position_advances demo_kernel Scullc small_params (small_env 4096)
              (fresh_dev 4 0 2) 5 2) as [_ Hw]; [lia | lia | lia |].
  split.
  - exact (proj1 (Hr 4 (Ret 2) small_full_dev 4 [x03; x04] eq_refl)).
  - exact (proj1 (Hw [x01; x02; x03; x04; x05] (Ret 2) _ 4 eq_refl)).
Defined.

(** ** Mapping requests *)

Lemma scullp_mmap_refuses dev :
  order dev <> 0 -> scullp_mmap dev = (- ENODEV, dev).
Proof.
  intros H. unfold scullp_mmap, scull_mmap.
  destruct (Z.eqb_spec (order dev) 0); [contradiction | reflexivity].
Qed.

Lemma scull_mmap_accepts m dev :
  order dev = 0 -> scull_mmap m dev = (0, set_vmas dev (wrap_int (vmas dev + 1))).
Proof.
  intros H. destruct m; unfold scull_mmap; [rewrite H|]; reflexivity.
Qed.

(** C2 (a mapping request on a device whose blocks are not one page is
    refused and leaves the mapping count alone) holds for scullp and fails
    for scullv: the same device, with order 1 (two pages per block), is
    refused by [scullp_mmap] with [-ENODEV] (the specification's
    NotSupported) and handed back as it was, and is accepted by
    [scullv_mmap], which returns 0 and counts one mapping more. *)
Theorem scullv_mmap_accepts_order_one :
  order order_one_dev = 1 /\
  scullp_mmap order_one_dev = (- ENODEV, order_one_dev) /\
  scullv_mmap order_one_dev = (0, set_vmas order_one_dev 1) /\
  vmas (snd (scullv_mmap order_one_dev)) = vmas order_one_dev + 1.
Proof. repeat split. Qed.

(** ** The size only grows *)

Lemma write_reaches_size k v g e dev buf count f_pos n dev' pos' :
  0 <= f_pos -> 0 <= count -> f_pos + count < 2 ^ 63 ->
  scull_write k v g e dev buf count f_pos = (Ret n, dev', pos') -> 0 <= n ->
  f_pos + n <= size dev' /\ size dev' = Z.max (size dev) (f_pos + n).
Proof.
  intros Hf Hc Hb H Hn.
  destruct (write_success_inv _ _ _ _ _ _ _ _ _ _ _ H Hn)
    as (d1 & dp & arr & old & b & _ & _ & _ & _ & _ & _ & _ & -> & _ & ->).
  match goal with
  | |- context [clamp ?q ?o ?c] =>
      pose proof (clamp_le q o c Hc) as Hcl; set (cl := clamp q o c) in *
  end.
  simpl. rewrite !wrap_long_id by lia. rewrite wrap_ulong_id by lia.
  destruct (size dev <? f_pos + cl) eqn:E;
    [apply Z.ltb_lt in E | apply Z.ltb_ge in E]; lia.
Qed.

Lemma step_size k v g st o : size (st_dev st) <= size (st_dev (step k v g st o)).
Proof.
  destruct o as [e bl c|e buf c|off wh|m| |m a s p]; simpl.
  - destruct (scull_read k v e (st_dev st) bl c (st_pos st)) as [[[r d] pos] out] eqn:E.
    destruct (read_frame _ _ _ _ _ _ _ _ _ _ _ E) as (Hs & _).
    simpl. lia.
  - destruct (scull_write k v g e (st_dev st) buf c (st_pos st)) as [[r d] pos] eqn:E.
    destruct (write_frame _ _ _ _ _ _ _ _ _ _ _ E) as (_ & Hs & _). exact Hs.
  - lia.
  - destruct m; simpl; [destruct (negb _)|]; simpl; lia.
  - lia.
  - destruct (scull_vma_nopage k m (st_dev st) (st_refs st) a s p) as [[r pg] refs].
    simpl. lia.
Qed.

Lemma run_size k v g ops : forall st,
  size (st_dev st) <= size (st_dev (run k v g st ops)).
Proof.
  induction ops as [|o ops IH]; intros st; simpl; [lia|].
  pose proof (step_size k v g st o). specialize (IH (step k v g st o)).
  fold (run k v g (step k v g st o) ops). lia.
Qed.

(** A write-only open leaves the device as it is or as a trim leaves it;
    any other open leaves it as it is. *)
Lemma open_trims_or_keeps v g e dev wronly :
  snd (scull_open v g e dev wronly) = dev \/
  wronly = true /\ snd (scull_open v g e dev wronly) = trimmed v g dev.
Proof.
  unfold scull_open, scull_trim. destruct wronly; [|now left].
  destruct (lock_interrupted e); [now left|].
  destruct (negb _); [now left|].
  destruct (trim_walk _ _ _); [|now left].
  right. split; [reflexivity|]. destruct v; reflexivity.
Qed.

Lemma trim_size v g dev dev' fr :
  scull_trim v g dev = (Ret 0, dev', fr) -> size dev' = 0.
Proof.
  unfold scull_trim. destruct (negb _).
  - intros H. inv H.
  - destruct (trim_walk _ _ _); intros H; inv H. now destruct v.
Qed.

(** C8: after a write that returns [n >= 0] from offset [f_pos] the size is
    at least [f_pos + n]; no sequence of reads, writes, seeks, mapping
    opens and closes and page faults makes the size smaller; a trim that
    succeeds leaves it at 0. *)
Theorem size_never_shrinks (k : kernel) (v : driver) (g : params) :
  (forall e dev buf count f_pos n dev' pos',
     0 <= f_pos -> 0 <= count -> f_pos + count < 2 ^ 63 ->
     scull_write k v g e dev buf count f_pos = (Ret n, dev', pos') -> 0 <= n ->
     f_pos + n <= size dev') /\
  (forall ops st, size (st_dev st) <= size (st_dev (run k v g st ops))) /\
  (forall dev dev' fr, scull_trim v g dev = (Ret 0, dev', fr) -> size dev' = 0).
Proof.
  split; [|split].
  - intros e dev buf count f_pos n dev' pos' Hf Hc Hb H Hn.
    apply (write_reaches_size _ _ _ _ _ _ _ _ _ _ _ Hf Hc Hb H Hn).
  - intros ops st. apply run_size.
  - apply trim_size.
Qed.

Lemma size_never_shrinks_witness :
  2 + 2 <= size (snd (fst (scull_write demo_kernel Scullc small_params
                             (small_env 4096) (fresh_dev 4 0 2)
                             [x01; x02; x03; x04; x05] 5 2))) /\
  size (snd (fst (scull_trim Scullc small_params small_full_dev))) = 0.
Proof.
  destruct (size_never_shrinks demo_kernel Scullc small_params) as (Hw & _ & Ht).
  split.
  - apply (Hw (small_env 4096) (fresh_dev 4 0 2) [x01; x02; x03; x04; x05] 5 2 2 _ 4);
      [lia | lia | lia | reflexivity | lia].
  - apply (Ht small_full_dev _ [Free_block 4096; Free_block 8192; Free_array]).
    reflexivity.
Defined.

(** ** Trim *)

Lemma scull_dev_induction (P : scull_dev -> Prop) :
  (forall dt vm qu od qs sz, P (mk_dev dt None vm qu od qs sz)) ->
  (forall dt d vm qu od qs sz, P d -> P (mk_dev dt (Some d) vm qu od qs sz)) ->
  forall d, P d.
Proof.
  intros H0 H1. fix IH 1. intros [dt [d|] vm qu od qs sz].
  - apply H1, IH.
  - apply H0.
Qed.

Lemma freed_blocks_app a b : freed_blocks (a ++ b) = freed_blocks a ++ freed_blocks b.
Proof. unfold freed_blocks. apply flat_map_app. Qed.

Lemma freed_items_app a b : freed_items (a ++ b) = (freed_items a + freed_items b)%nat.
Proof. unfold freed_items. now rewrite filter_app, length_app. Qed.

Lemma freed_arrays_app a b : freed_arrays (a ++ b) = (freed_arrays a + freed_arrays b)%nat.
Proof. unfold freed_arrays. now rewrite filter_app, length_app. Qed.

Lemma freed_of_slots (arr : list (option block)) :
  let fr := flat_map (fun s => match s with
                               | Some b => [Free_block (baddr b)]
                               | None => []
                               end) arr in
  freed_blocks fr = flat_map (fun s => match s with
                                       | Some b => [baddr b]
                                       | None => []
                                       end) arr /\
  freed_items fr = O /\ freed_arrays fr = O.
Proof.
  induction arr as [|[b|] arr (IH1 & IH2 & IH3)]; simpl; auto.
  repeat split; auto. simpl. now f_equal.
Qed.

Lemma trim_item_ok qs d :
  item_ok qs d = true ->
  exists fr, trim_item qs d = Some fr /\
    freed_blocks fr = item_blocks d /\ freed_items fr = O /\
    freed_arrays fr = match data d with Some _ => 1%nat | None => O end.
Proof.
  unfold item_ok, trim_item, item_blocks. destruct (data d) as [arr|].
  - intros H. apply Z.eqb_eq in H.
    destruct (Z.ltb_spec (Z.of_nat (length arr)) qs) as [?|_]; [lia|].
    rewrite <- H, Nat2Z.id, firstn_all.
    eexists. split; [reflexivity|].
    destruct (freed_of_slots arr) as (E1 & E2 & E3).
    rewrite freed_blocks_app, freed_items_app, freed_arrays_app, E1, E2, E3.
    simpl. rewrite app_nil_r. auto.
  - intros _. exists []. auto.
Qed.

Lemma trim_walk_ok qs : forall dev head,
  forallb (item_ok qs) (items dev) = true ->
  exists fr, trim_walk qs head dev = Some fr /\
    freed_blocks fr = all_blocks dev /\
    freed_items fr = (length (items dev) - (if head then 1 else 0))%nat /\
    freed_arrays fr = arrays_held dev.
Proof.
  induction dev as [dt vm qu od q sz|dt d vm qu od q sz IH] using scull_dev_induction;
    intros head Hw; simpl in Hw; apply andb_true_iff in Hw; destruct Hw as [Hi Hw].
  - destruct (trim_item_ok _ _ Hi) as (fr & E & B & I & A).
    simpl. rewrite E. eexists. split; [reflexivity|].
    rewrite freed_blocks_app, freed_items_app, freed_arrays_app, B, I, A.
    unfold all_blocks, arrays_held. simpl.
    destruct head, dt; simpl; rewrite ?app_nil_r; repeat split; auto.
  - destruct (trim_item_ok _ _ Hi) as (fr & E & B & I & A).
    destruct (IH false Hw) as (fr' & E' & B' & I' & A').
    simpl. rewrite E, E'. eexists. split; [reflexivity|].
    rewrite !freed_blocks_app, !freed_items_app, !freed_arrays_app, B, I, A, B', I', A'.
    unfold all_blocks, arrays_held. simpl.
    destruct head, dt; simpl; rewrite ?app_nil_r; repeat split; auto; lia.
Qed.

Lemma trim_busy v g dev :
  vmas dev <> 0 -> scull_trim v g dev = (Ret (- EBUSY), dev, []).
Proof.
  intros H. unfold scull_trim.
  destruct (Z.eqb_spec (vmas dev) 0); [contradiction | reflexivity].
Qed.

Lemma trim_unmapped v g dev :
  vmas dev = 0 -> arrays_ok dev = true ->
  exists fr, scull_trim v g dev = (Ret 0, trimmed v g dev, fr) /\
    freed_blocks fr = all_blocks dev /\
    freed_items fr = (length (items dev) - 1)%nat /\
    freed_arrays fr = arrays_held dev.
Proof.
  intros Hv Hw. unfold scull_trim. rewrite Hv. simpl.
  destruct (trim_walk_ok (qset dev) dev true Hw) as (fr & E & H).
  rewrite E. exists fr. split; [|exact H].
  destruct v; unfold trimmed; rewrite Hv; reflexivity.
Qed.

Lemma trim_empty_again v g dev :
  vmas dev = 0 ->
  scull_trim v g (trimmed v g dev) = (Ret 0, trimmed v g dev, []).
Proof.
  intros Hv. unfold scull_trim. destruct v; simpl; rewrite Hv; reflexivity.
Qed.

(** Right after a trim the size is 0: a read above offset 0 is beyond the
    size; a read at offset 0 goes on to the division by the bytes of one
    list item. *)
Lemma read_after_trim_cases k v g e dev buf_len count f_pos :
  lock_interrupted e = false -> 0 <= f_pos < 2 ^ 63 ->
  let dev' := trimmed v g dev in
  (0 < f_pos \/ wrap_int (quantum_of k v dev' * qset dev') <> 0 ->
   scull_read k v e dev' buf_len count f_pos = (Ret 0, dev', f_pos, [])) /\
  (f_pos = 0 -> wrap_int (quantum_of k v dev' * qset dev') = 0 ->
   scull_read k v e dev' buf_len count f_pos = (Oops, dev', f_pos, [])).
Proof.
  intros Hl Hf d.
  assert (Hs : size d = 0) by (destruct v; reflexivity).
  assert (Hd : data d = None) by (destruct v; reflexivity).
  unfold scull_read. rewrite Hl, Hs. rewrite (wrap_ulong_id f_pos) by lia.
  destruct (Z.ltb_spec 0 f_pos) as [Hp|Hp].
  - split; [reflexivity | lia].
  - assert (f_pos = 0) by lia. subst f_pos.
    destruct (Z.eqb_spec (wrap_int (quantum_of k v d * qset d)) 0) as [E0|E0].
    + split; [intros [?|?]; [lia | contradiction] | reflexivity].
    + split; [|contradiction]. intros _.
      unfold translate. simpl. rewrite Hd. reflexivity.
Qed.

(** C4, as the code has it: a trim while the device is mapped returns
    [-EBUSY] (the specification's Busy) and hands back the very same
    device; a trim of an unmapped (well-formed) device returns 0, frees
    every block, every array and every list item but the head, and leaves
    a device with no array, no next item, size 0 and the configured
    defaults; trimming that device again changes nothing and frees
    nothing.  A read of the trimmed device returns 0 at every position
    above 0, and at position 0 when the restored defaults give a list item
    of other than 0 bytes ([quantum * qset] as an [int]); when they give 0
    bytes, the read at position 0 faults. *)
Theorem trim_resets_unless_mapped (v : driver) (g : params) (dev : scull_dev) :
  (0 < vmas dev -> scull_trim v g dev = (Ret (- EBUSY), dev, [])) /\
  (vmas dev = 0 -> arrays_ok dev = true ->
   let dev' := trimmed v g dev in
   (exists fr,
      scull_trim v g dev = (Ret 0, dev', fr) /\
      freed_blocks fr = all_blocks dev /\
      freed_arrays fr = arrays_held dev /\
      freed_items fr = (length (items dev) - 1)%nat) /\
   (data dev' = None /\ next dev' = None /\ size dev' = 0 /\ vmas dev' = 0 /\
    qset dev' = match v with Scullc => scullc_qset g | Scullv => scullv_qset g end /\
    match v with
    | Scullc => quantum dev' = scullc_quantum g
    | Scullv => order dev' = scullv_order g
    end) /\
   scull_trim v g dev' = (Ret 0, dev', []) /\
   (forall k e buf_len count f_pos,
      lock_interrupted e = false -> 0 <= f_pos < 2 ^ 63 ->
      (0 < f_pos \/ wrap_int (quantum_of k v dev' * qset dev') <> 0 ->
       scull_read k v e dev' buf_len count f_pos = (Ret 0, dev', f_pos, [])) /\
      (f_pos = 0 -> wrap_int (quantum_of k v dev' * qset dev') = 0 ->
       scull_read k v e dev' buf_len count f_pos = (Oops, dev', f_pos, [])))).
Proof.
  split.
  - intros H. apply trim_busy. lia.
  - intros Hv Hw dev'. split; [|split; [|split]].
    + destruct (trim_unmapped v g dev Hv Hw) as (fr & E & B & I & A).
      exists fr. auto.
    + subst dev'. destruct v; simpl; auto 10.
    + apply trim_empty_again, Hv.
    + intros k e buf_len count f_pos Hl Hf.
      apply read_after_trim_cases; assumption.
Qed.

Lemma trim_resets_unless_mapped_witness :
  scull_trim Scullc small_params (set_vmas small_full_dev 2)
    = (Ret (- EBUSY), set_vmas small_full_dev 2, []) /\
  (exists fr,
     scull_trim Scullc small_params small_full_dev
       = (Ret 0, trimmed Scullc small_params small_full_dev, fr) /\
     freed_blocks fr = [4096; 8192]) /\
  scull_read demo_kernel Scullc (small_env 0)
    (trimmed Scullc small_params small_full_dev) 4 4 0
  = (Ret 0, trimmed Scullc small_params small_full_dev, 0, []).
Proof.
  split; [|split].
  - apply (proj1 (trim_resets_unless_mapped Scullc small_params
                    (set_vmas small_full_dev 2))).
    simpl. lia.
  - destruct (proj2 (trim_resets_unless_mapped Scullc small_params small_full_dev)
                eq_refl eq_refl) as ((fr & E & B & _) & _).
    exists fr. split; [exact E | exact B].
  - destruct (proj2 (trim_resets_unless_mapped Scullc small_params small_full_dev)
                eq_refl eq_refl) as (_ & _ & _ & R).
    apply (R demo_kernel (small_env 0) 4 4 0 eq_refl); [lia|].
    right. vm_compute. discriminate.
Defined.

(** C4, as stated, fails in its last part: the driver restores whatever
    defaults are set.  With [scullc_quantum] set to 0 the trim of
    [small_full_dev] succeeds and the read at offset 0 that follows divides
    by zero. *)
Lemma read_after_trim_divides_by_zero :
  vmas small_full_dev = 0 /\
  scull_trim Scullc zero_quantum_params small_full_dev
  = (Ret 0, zero_quantum_dev, [Free_block 4096; Free_block 8192; Free_array]) /\
  quantum zero_quantum_dev = 0 /\ qset zero_quantum_dev = 2 /\
  scull_read demo_kernel Scullc (small_env 0) zero_quantum_dev 4 4 0
  = (Oops, zero_quantum_dev, 0, []).
Proof. vm_compute. repeat split. Qed.

(** ** Page faults *)

(** The loop of the fault handler stops at list item [offset / qset] with
    [offset % qset] left, or runs off the end of the list. *)
Lemma nopage_walk_spec qs n : forall dev off,
  0 < qs < 2 ^ 64 -> 0 <= off < 2 ^ 64 -> off / qs = Z.of_nat n ->
  fst (nopage_walk qs dev off) = item_at dev n /\
  (item_at dev n <> None -> snd (nopage_walk qs dev off) = off mod qs).
Proof.
  induction n as [|n IH]; intros dev off Hq Ho Hn.
  - assert (Hlt : off < qs).
    { destruct (Z.lt_ge_cases off qs) as [?|Hge]; [assumption|].
      assert (1 <= off / qs) by (apply Z.div_le_lower_bound; lia). lia. }
    destruct dev as [dt nx vm qu od q sz]; simpl.
    rewrite wrap_ulong_id by lia.
    destruct (Z.leb_spec qs off); [lia|]. simpl.
    rewrite Z.mod_small by lia. auto.
  - assert (Hge : qs <= off).
    { destruct (Z.lt_ge_cases off qs) as [Hlt|?]; [|assumption].
      rewrite Z.div_small in Hn by lia. lia. }
    assert (Ed : (off - qs) / qs = Z.of_nat n).
    { replace (off - qs) with (off + (-1) * qs) by ring.
      rewrite Z.div_add by lia. lia. }
    assert (Em : (off - qs) mod qs = off mod qs).
    { replace (off - qs) with (off + (-1) * qs) by ring.
      apply Z.mod_add. lia. }
    destruct dev as [dt nx vm qu od q sz]; simpl.
    rewrite (wrap_ulong_id qs) by lia.
    destruct (Z.leb_spec qs off); [|lia].
    destruct nx as [d|]; simpl.
    + rewrite wrap_ulong_id by lia.
      destruct (IH d (off - qs) Hq) as [E1 E2]; [lia | exact Ed |].
      rewrite Em in E2. auto.
    + split; [reflexivity | congruence].
Qed.

Lemma fault_page_range k a s p : 0 <= PAGE_SHIFT k ->
  0 <= fault_page k a s p < 2 ^ 64.
Proof.
  intros Hk. unfold fault_page.
  pose proof (wrap_ulong_range (wrap_ulong (a - s) + wrap_ulong (Z.shiftl p (PAGE_SHIFT k)))) as Hr.
  fold (fault_offset k a s p) in Hr.
  rewrite Z.shiftr_div_pow2 by lia.
  assert (0 < 2 ^ PAGE_SHIFT k) by (apply Z.pow_pos_nonneg; lia).
  split; [apply Z.div_pos; lia|].
  apply Z.div_lt_upper_bound; nia.
Qed.

Lemma nopage_resolves k m dev refs a s p :
  0 < qset dev < 2 ^ 31 -> 0 <= PAGE_SHIFT k -> arrays_ok dev = true ->
  fault_offset k a s p < size dev ->
  scull_vma_nopage k m dev refs a s p =
  match block_at dev (Z.to_nat (fault_page k a s p / qset dev))
                 (fault_page k a s p mod qset dev) with
  | Some b => (Ret 0, Some (page_of k m (baddr b)),
               get_page refs (page_of k m (baddr b)))
  | None => (Ret VM_FAULT_NOPAGE, None, refs)
  end.
Proof.
  intros Hq Hk Hw Hin. unfold scull_vma_nopage.
  destruct (Z.leb_spec (size dev) (fault_offset k a s p)) as [?|_]; [lia|].
  fold (fault_page k a s p). set (pg := fault_page k a s p).
  pose proof (fault_page_range k a s p Hk) as Hpg. fold pg in Hpg.
  assert (Hn : pg / qset dev = Z.of_nat (Z.to_nat (pg / qset dev))).
  { rewrite Z2Nat.id; [reflexivity | apply Z.div_pos; lia]. }
  destruct (nopage_walk_spec (qset dev) (Z.to_nat (pg / qset dev)) dev pg)
    as [E1 E2]; [lia | lia | exact Hn |].
  destruct (nopage_walk (qset dev) dev pg) as [ptr off]; simpl in E1, E2.
  unfold block_at, data_at. rewrite <- E1.
  destruct ptr as [d|]; [|reflexivity].
  rewrite E2 by congruence.
  destruct (data d) as [arr|] eqn:Ed; [|reflexivity].
  assert (Hlen : Z.of_nat (length arr) = qset dev).
  { apply (arrays_ok_data_at dev (Z.to_nat (pg / qset dev))); [exact Hw|].
    unfold data_at. now rewrite <- E1. }
  destruct (slot_in_range arr (pg mod qset dev)) as [x Ex].
  { rewrite Hlen. apply Z.mod_pos_bound. lia. }
  rewrite Ex. destruct x; reflexivity.
Qed.


(** C7 (a fault at an offset backed by an allocated block returns the page
    of that block) fails on scullv with blocks of more than one page.  The
    device has order 1 (blocks of 8192 bytes) and four slots per list item;
    8192 bytes were written at offset 0, which fills the block of slot 0,
    and [scullv_mmap], which has no test of the order, accepted the
    mapping.  The handler counts in pages, one slot per page: a fault at
    byte offset 0 is served from slot 0, a fault at byte offset 4096, below
    the size and inside the same allocated block, looks at slot 1, finds it
    empty and fails with [VM_FAULT_NOPAGE].  [scullp_mmap] refuses this
    device.  On devices with one page per block the property holds (see
    the next theorem). *)
Theorem page_fault_misses_second_page_of_block :
  order order_one_mapped_dev = 1 /\ qset order_one_mapped_dev = 4 /\
  size order_one_mapped_dev = 8192 /\ vmas order_one_mapped_dev = 1 /\
  quantum_of demo_kernel Scullv order_one_mapped_dev = 8192 /\
  (exists dev0,
     scull_write demo_kernel Scullv order_one_params demo_env order_one_dev
       (repeat x01 (Z.to_nat 8192)) 8192 0 = (Ret 8192, dev0, 8192) /\
     scullv_mmap dev0 = (0, order_one_mapped_dev) /\
     fst (scullp_mmap dev0) = - ENODEV) /\
  block_of 8192 4 order_one_mapped_dev 0
  = Some (mk_block 4096 (repeat x01 (Z.to_nat 8192))) /\
  block_of 8192 4 order_one_mapped_dev 4096
  = Some (mk_block 4096 (repeat x01 (Z.to_nat 8192))) /\
  fst (scull_vma_nopage demo_kernel Scullv_map order_one_mapped_dev (fun _ => 1)
         1048576 1048576 0) = (Ret 0, Some 1) /\
  fault_offset demo_kernel (1048576 + 4096) 1048576 0 = 4096 /\
  fst (scull_vma_nopage demo_kernel Scullv_map order_one_mapped_dev (fun _ => 1)
         (1048576 + 4096) 1048576 0) = (Ret VM_FAULT_NOPAGE, None).
Proof.
  do 5 (split; [vm_compute; reflexivity|]).
  split.
  - eexists. split; [vm_compute; reflexivity|].
    split; vm_compute; reflexivity.
  - do 4 (split; [vm_compute; reflexivity|]). vm_compute. reflexivity.
Qed.

(** The page index and slot of the fault handler are the list item and
    the block index of the specification when the block size is the page
    size. *)
Lemma fault_slot_is_block_of ps qs o :
  0 < ps -> 0 < qs -> 0 <= o ->
  (o / ps) / qs = segment_index ps qs o /\
  (o / ps) mod qs = block_index ps qs o.
Proof.
  intros Hp Hq Ho. unfold segment_index, block_index. split.
  - apply Z.div_div; lia.
  - rewrite Z.rem_mul_r by lia.
    rewrite Z.mul_comm, Z.div_add by lia.
    rewrite (Z.div_small (o mod ps)); [reflexivity|].
    apply Z.mod_pos_bound. lia.
Qed.

Lemma page_size_is_pow k : 0 <= PAGE_SHIFT k < 64 -> PAGE_SIZE k = 2 ^ PAGE_SHIFT k.
Proof.
  intros H. unfold PAGE_SIZE. rewrite Z.shiftl_1_l. apply wrap_ulong_id.
  split; [apply Z.pow_nonneg; lia | apply Z.pow_lt_mono_r; lia].
Qed.

(** The byte offset the handler computes is the offset of the faulting
    address in the mapping plus the bytes of the pages the mapping skips,
    while that sum fits an [unsigned long]. *)
Lemma fault_offset_spec k address vm_start vm_pgoff :
  0 <= PAGE_SHIFT k < 64 -> vm_start <= address -> 0 <= vm_pgoff ->
  address - vm_start + vm_pgoff * PAGE_SIZE k < 2 ^ 64 ->
  fault_offset k address vm_start vm_pgoff
  = address - vm_start + vm_pgoff * PAGE_SIZE k.
Proof.
  intros Hk Ha Hp Hlt. unfold fault_offset.
  rewrite Z.shiftl_mul_pow2 by lia. rewrite <- (page_size_is_pow k Hk).
  assert (0 <= PAGE_SIZE k) by (rewrite page_size_is_pow by lia; apply Z.pow_nonneg; lia).
  assert (0 <= vm_pgoff * PAGE_SIZE k) by nia.
  rewrite (wrap_ulong_id (address - vm_start)) by lia.
  rewrite (wrap_ulong_id (vm_pgoff * PAGE_SIZE k)) by lia.
  apply wrap_ulong_id. lia.
Qed.

Lemma page_size_pow k : 0 <= PAGE_SHIFT k < 31 ->
  PAGE_SIZE k = 2 ^ PAGE_SHIFT k /\ 0 < PAGE_SIZE k < 2 ^ 31.
Proof.
  intros H. unfold PAGE_SIZE. rewrite Z.shiftl_1_l.
  assert (0 < 2 ^ PAGE_SHIFT k) by (apply Z.pow_pos_nonneg; lia).
  assert (2 ^ PAGE_SHIFT k < 2 ^ 31) by (apply Z.pow_lt_mono_r; lia).
  rewrite wrap_ulong_id by lia. lia.
Qed.

(** With order 0 the quantum of scullv (and scullp) is one page. *)
Lemma quantum_of_order_zero k dev : 0 <= PAGE_SHIFT k < 31 -> order dev = 0 ->
  quantum_of k Scullv dev = PAGE_SIZE k.
Proof.
  intros H E. destruct (page_size_pow k H) as [_ Hp].
  unfold quantum_of, shl_ulong. rewrite E. simpl (0 mod 64). rewrite Z.shiftl_0_r.
  rewrite wrap_ulong_id, wrap_int_id; lia.
Qed.

(** X29: page faults on a device whose blocks are one page (order 0, the
    devices [scullp_mmap] accepts).  The fault is at [address] in a
    mapping that starts at [vm_start] and skips [vm_pgoff] pages of the
    device: byte offset [o = address - vm_start + vm_pgoff * PAGE_SIZE].
    At or beyond the size the handler fails with [VM_FAULT_NOPAGE], no
    page and no count touched; so it does below the size when the block of
    [o], in the addressing of the specification with the page size as
    block size, is missing; when that block is allocated the handler
    returns its page, whose reference count goes up by exactly one while
    every other count stays. *)
Theorem page_fault_on_one_page_blocks
    (k : kernel) (m : mapper) (dev : scull_dev) (refs : Z -> Z)
    (address vm_start vm_pgoff : Z) :
  0 <= PAGE_SHIFT k < 31 -> order dev = 0 ->
  config_ok (quantum_of k Scullv dev) (qset dev) -> arrays_ok dev = true ->
  vm_start <= address -> 0 <= vm_pgoff ->
  address - vm_start + vm_pgoff * PAGE_SIZE k < 2 ^ 64 ->
  let o := address - vm_start + vm_pgoff * PAGE_SIZE k in
  let found := block_of (quantum_of k Scullv dev) (qset dev) dev o in
  quantum_of k Scullv dev = PAGE_SIZE k /\
  (size dev <= o ->
   scull_vma_nopage k m dev refs address vm_start vm_pgoff
   = (Ret VM_FAULT_NOPAGE, None, refs)) /\
  (o < size dev -> found = None ->
   scull_vma_nopage k m dev refs address vm_start vm_pgoff
   = (Ret VM_FAULT_NOPAGE, None, refs)) /\
  (forall b, o < size dev -> found = Some b ->
   exists refs',
     scull_vma_nopage k m dev refs address vm_start vm_pgoff
     = (Ret 0, Some (page_of k m (baddr b)), refs') /\
     refs' (page_of k m (baddr b)) = refs (page_of k m (baddr b)) + 1 /\
     forall pg, pg <> page_of k m (baddr b) -> refs' pg = refs pg).
Proof.
  intros Hk Ho Hc Hw Ha Hp Hlt o found.
  assert (Eq : quantum_of k Scullv dev = PAGE_SIZE k)
    by (apply quantum_of_order_zero; assumption).
  assert (Eo : fault_offset k address vm_start vm_pgoff = o)
    by (apply fault_offset_spec; [lia | assumption..]).
  rewrite Eq in Hc. destruct (config_bounds _ _ Hc) as [HP Hq].
  assert (Hpos : 0 <= o) by (unfold o; nia).
  assert (Ef : found = block_at dev
                 (Z.to_nat (fault_page k address vm_start vm_pgoff / qset dev))
                 (fault_page k address vm_start vm_pgoff mod qset dev)).
  { unfold found, block_of, fault_page. rewrite Eq, Eo.
    rewrite Z.shiftr_div_pow2 by lia. rewrite <- (page_size_is_pow k) by lia.
    destruct (fault_slot_is_block_of (PAGE_SIZE k) (qset dev) o) as [E1 E2];
      [lia | lia | exact Hpos |].
    now rewrite E1, E2. }
  split; [exact Eq|]. split; [|split].
  - intros Hout. unfold scull_vma_nopage. rewrite Eo.
    destruct (Z.leb_spec (size dev) o); [reflexivity | lia].
  - intros Hin Hnone.
    rewrite (nopage_resolves k m dev refs address vm_start vm_pgoff);
      [| lia | lia | exact Hw | rewrite Eo; exact Hin].
    rewrite <- Ef, Hnone. reflexivity.
  - intros b Hin Hsome.
    rewrite (nopage_resolves k m dev refs address vm_start vm_pgoff);
      [| lia | lia | exact Hw | rewrite Eo; exact Hin].
    rewrite <- Ef, Hsome.
    eexists. split; [reflexivity|]. unfold get_page. split.
    + now rewrite Z.eqb_refl.
    + intros pg Hne. destruct (Z.eqb_spec pg (page_of k m (baddr b))); congruence.
Qed.

(** A fault at byte 100 of the second page of a mapping of [one_page_dev]
    that skips no page is beyond the size 4096; the fault at byte 100 of
    its first page gets the page of the block, page 2. *)
Lemma page_fault_on_one_page_blocks_witness :
  scull_vma_nopage demo_kernel Scullv_map one_page_dev (fun _ => 1)
    (1048576 + 4196) 1048576 0 = (Ret VM_FAULT_NOPAGE, None, fun _ => 1) /\
  exists refs',
    scull_vma_nopage demo_kernel Scullv_map one_page_dev (fun _ => 1)
      (1048576 + 100) 1048576 0 = (Ret 0, Some 2, refs') /\ refs' 2 = 2.
Proof.
  assert (H1 : 0 <= PAGE_SHIFT demo_kernel < 31) by (simpl; lia).
  assert (H2 : order one_page_dev = 0) by reflexivity.
  assert (H3 : config_ok (quantum_of demo_kernel Scullv one_page_dev)
                 (qset one_page_dev)) by (vm_compute; repeat split; reflexivity).
  assert (H4 : arrays_ok one_page_dev = true) by reflexivity.
  split.
  - refine (proj1 (proj2 (page_fault_on_one_page_blocks demo_kernel Scullv_map
                            one_page_dev (fun _ => 1) (1048576 + 4196) 1048576 0
                            H1 H2 H3 H4 _ _ _)) _).
    + lia.
    + lia.
    + vm_compute. reflexivity.
    + vm_compute. discriminate.
  - destruct (proj2 (proj2 (proj2 (page_fault_on_one_page_blocks demo_kernel
                 Scullv_map one_page_dev (fun _ => 1) (1048576 + 100) 1048576 0
                 H1 H2 H3 H4 ltac:(lia) ltac:(lia) ltac:(vm_compute; reflexivity))))
               (mk_block 8192 (repeat x01 4096)))
      as (refs' & E & R & _).
    + vm_compute. reflexivity.
    + vm_compute. reflexivity.
    + exists refs'. split; [exact E | exact R].
Defined.

(** ** What a write stores *)

Lemma slot_some_range {A} (arr : list A) i x :
  slot arr i = Some x -> 0 <= i < Z.of_nat (length arr).
Proof.
  unfold slot. destruct (Z.ltb_spec i 0) as [Hi|Hi]; [discriminate|].
  intros Hs. assert (Hn : nth_error arr (Z.to_nat i) <> None) by congruence.
  apply nth_error_Some in Hn. lia.
Qed.

Lemma nth_error_set_nth_eq {A} (arr : list A) : forall i y,
  (i < length arr)%nat -> nth_error (set_nth arr i y) i = Some y.
Proof.
  induction arr as [|h t IH]; intros [|i] y Hlt; simpl in *; try lia; auto.
  apply IH. lia.
Qed.

Lemma nth_error_set_nth_ne {A} (arr : list A) : forall i j y,
  i <> j -> nth_error (set_nth arr i y) j = nth_error arr j.
Proof.
  induction arr as [|h t IH]; intros [|i] [|j] y Hne; simpl; auto; try congruence.
Qed.

Lemma length_set_nth {A} (arr : list A) : forall i y,
  length (set_nth arr i y) = length arr.
Proof.
  induction arr as [|h t IH]; intros [|i] y; simpl; auto.
Qed.

Lemma slot_set_nth_eq {A} (arr : list A) s x y :
  slot arr s = Some x -> slot (set_nth arr (Z.to_nat s) y) s = Some y.
Proof.
  intros H. pose proof (slot_some_range _ _ _ H) as Hr.
  unfold slot. destruct (Z.ltb_spec s 0); [lia|].
  apply nth_error_set_nth_eq. lia.
Qed.

Lemma slot_set_nth_ne {A} (arr : list A) s s' y :
  0 <= s -> s' <> s -> slot (set_nth arr (Z.to_nat s) y) s' = slot arr s'.
Proof.
  intros Hs Hne. unfold slot. destruct (Z.ltb_spec s' 0); [reflexivity|].
  apply nth_error_set_nth_ne. lia.
Qed.

Lemma slot_repeat_none (n : nat) s :
  match slot (repeat (@None block) n) s with
  | Some (Some b) => Some b
  | _ => None
  end = None.
Proof.
  destruct (slot (repeat None n) s) as [[b|]|] eqn:E; auto.
  unfold slot in E. destruct (s <? 0); [discriminate|].
  apply nth_error_In, repeat_spec in E. discriminate.
Qed.

(** The array a write works on holds the blocks the device held in that
    list item. *)
Lemma write_array_blocks ok dev n dev1 dptr e qs arr s :
  scull_follow ok dev n = Some (dev1, dptr) ->
  write_array e qs dptr = Some arr ->
  match slot arr s with
  | Some (Some b) => Some b
  | _ => None
  end = block_at dev n s.
Proof.
  intros Hf Ha. pose proof (follow_dptr_data _ _ _ _ _ Hf) as Hd.
  unfold write_array in Ha. unfold block_at. rewrite <- Hd.
  destruct (data dptr) as [a|].
  - now inv Ha.
  - destruct (kmalloc_array e && (0 <=? qs)); inv Ha. apply slot_repeat_none.
Qed.

(** Storing the array back changes no block. *)
Lemma store_array_block_at ok dev n dev1 dptr e qs arr :
  scull_follow ok dev n = Some (dev1, dptr) ->
  write_array e qs dptr = Some arr ->
  forall m s,
    block_at (upd_item dev1 n (fun d => set_data d (Some arr))) m s = block_at dev m s.
Proof.
  intros Hf Ha m s.
  assert (Hi : item_at dev1 n <> None)
    by (rewrite (follow_reaches _ _ _ _ _ Hf); discriminate).
  unfold block_at at 1. rewrite (upd_item_data_at _ _ _ m Hi).
  destruct (Nat.eqb_spec m n) as [->|Hne].
  - apply (write_array_blocks _ _ _ _ _ _ _ _ s Hf Ha).
  - unfold block_at. now rewrite (follow_data_at _ _ _ _ _ m Hf).
Qed.

(** Storing a block in slot [s] of the array changes that slot only. *)
Lemma store_block_at ok dev n dev1 dptr e qs arr s old y :
  scull_follow ok dev n = Some (dev1, dptr) ->
  write_array e qs dptr = Some arr ->
  slot arr s = Some old ->
  forall m s',
    block_at (upd_item dev1 n (fun d => set_data d (Some
                (set_nth arr (Z.to_nat s) (Some y))))) m s'
    = if Nat.eqb m n && (s' =? s) then Some y else block_at dev m s'.
Proof.
  intros Hf Ha Hs m s'.
  assert (Hi : item_at dev1 n <> None)
    by (rewrite (follow_reaches _ _ _ _ _ Hf); discriminate).
  pose proof (slot_some_range _ _ _ Hs) as Hr.
  unfold block_at at 1. rewrite (upd_item_data_at _ _ _ m Hi).
  destruct (Nat.eqb_spec m n) as [->|Hne]; simpl.
  - destruct (Z.eqb_spec s' s) as [->|Hns].
    + now rewrite (slot_set_nth_eq _ _ _ _ Hs).
    + rewrite slot_set_nth_ne by lia.
      apply (write_array_blocks _ _ _ _ _ _ _ _ s' Hf Ha).
  - unfold block_at. now rewrite (follow_data_at _ _ _ _ _ m Hf).
Qed.

Lemma block_at_set_size d x m s : block_at (set_size d x) m s = block_at d m s.
Proof.
  unfold block_at, data_at. destruct m; simpl; [reflexivity|].
  destruct (next d); reflexivity.
Qed.

Lemma copy_in_nothing bs q buf : copy_in bs q 0 buf = bs.
Proof.
  unfold copy_in. replace (Z.min 0 (Z.of_nat (length buf))) with 0 by lia.
  simpl. rewrite Z.add_0_r. apply firstn_skipn.
Qed.

Lemma clamp_zero q o : clamp q o 0 = 0.
Proof. pose proof (clamp_le q o 0 (Z.le_refl 0)). lia. Qed.

(** Storing in a slot a block that is the one found there (when one was
    found) keeps every block of the device. *)
Lemma store_block_keeps ok dev n dev1 dptr e qs arr s old y :
  scull_follow ok dev n = Some (dev1, dptr) ->
  write_array e qs dptr = Some arr ->
  slot arr s = Some old ->
  (forall b0, old = Some b0 -> y = b0) ->
  forall m s' b, block_at dev m s' = Some b ->
    block_at (upd_item dev1 n (fun d => set_data d (Some
                (set_nth arr (Z.to_nat s) (Some y))))) m s' = Some b.
Proof.
  intros Hf Ha Hs Hy m s' b Hb.
  rewrite (store_block_at _ _ _ _ _ _ _ _ _ _ y Hf Ha Hs).
  destruct (Nat.eqb_spec m n) as [->|_]; simpl; [|exact Hb].
  destruct (Z.eqb_spec s' s) as [->|_]; [|exact Hb].
  pose proof (write_array_blocks _ _ _ _ _ _ _ _ s Hf Ha) as Hw.
  rewrite Hs, Hb in Hw. destruct old as [b0|]; [|discriminate].
  rewrite (Hy b0 eq_refl). congruence.
Qed.

Lemma write_block_found k v g e dptr old b b0 :
  write_block k v g e dptr old = Alloc_ok b -> old = Some b0 -> b = b0.
Proof. intros H ->. simpl in H. congruence. Qed.

(** ** Writes of length 0 *)

Lemma env_ok_spec e : env_ok e = true ->
  lock_interrupted e = false /\ kmalloc_item e = true /\
  kmalloc_array e = true /\ alloc_addr e <> 0.
Proof.
  unfold env_ok. rewrite !andb_true_iff, !negb_true_iff.
  intros (((H1 & H2) & H3) & H4). apply Z.eqb_neq in H4. auto.
Qed.

Lemma write_block_fault_new k v g e dptr old b :
  write_block k v g e dptr old = Alloc_fault b -> old = None.
Proof. destruct old; simpl; [discriminate | reflexivity]. Qed.

(** A block just allocated has the address the allocator returned and is
    cleared. *)
Lemma alloc_quantum_cleared k v g e dptr b :
  alloc_quantum k v g e dptr = Alloc_ok b ->
  baddr b = alloc_addr e /\ cleared v g b.
Proof.
  unfold alloc_quantum. destruct (alloc_addr e =? 0); [discriminate|].
  destruct v.
  - destruct (scullc_cache_size g <? wrap_ulong (scullc_quantum g)); [discriminate|].
    intros H. injection H as <-. split; [reflexivity|]. simpl.
    rewrite firstn_app, repeat_length, Nat.sub_diag, firstn_O, app_nil_r.
    rewrite firstn_all2 by (rewrite repeat_length; lia). reflexivity.
  - intros H. injection H as <-. split; [reflexivity|]. simpl.
    now rewrite repeat_length.
Qed.

(** With the lock and the memory granted, a usable configuration and
    arrays of the configured width, a write of length 0 runs to its end. *)
Lemma zero_write_goes_through k v g e dev buf f_pos :
  env_ok e = true -> config_ok (quantum_of k v dev) (qset dev) ->
  arrays_ok dev = true -> 0 <= f_pos < 2 ^ 63 ->
  (v = Scullc -> wrap_ulong (scullc_quantum g) <= scullc_cache_size g) ->
  exists dev',
    scull_write k v g e dev buf 0 f_pos = (Ret 0, dev', f_pos) /\
    (f_pos < 2 ^ 31 * (quantum_of k v dev * qset dev) ->
     (forall m s,
        (m, s) <> (Z.to_nat (segment_index (quantum_of k v dev) (qset dev) f_pos),
                   block_index (quantum_of k v dev) (qset dev) f_pos) ->
        block_at dev' m s = block_at dev m s) /\
     match block_of (quantum_of k v dev) (qset dev) dev f_pos with
     | Some b => block_of (quantum_of k v dev) (qset dev) dev' f_pos = Some b
     | None => exists b',
         block_of (quantum_of k v dev) (qset dev) dev' f_pos = Some b' /\
         baddr b' = alloc_addr e /\ cleared v g b'
     end).
Proof.
  intros He Hc Hw Hf Hfit.
  destruct (env_ok_spec _ He) as (Hl & Hki & Hka & Haddr).
  destruct (config_itemsize _ _ Hc) as [Ei Hi].
  destruct (config_bounds _ _ Hc) as [Hq Hqs].
  destruct (translate_low _ _ f_pos Hc (proj1 Hf)) as (_ & _ & Hs & Ho).
  assert (Hspec : f_pos < 2 ^ 31 * (quantum_of k v dev * qset dev) ->
            follow_steps (item (translate (quantum_of k v dev) (qset dev) f_pos))
            = Z.to_nat (segment_index (quantum_of k v dev) (qset dev) f_pos) /\
            s_pos (translate (quantum_of k v dev) (qset dev) f_pos)
            = block_index (quantum_of k v dev) (qset dev) f_pos).
  { intros Hlim.
    destruct (translate_spec _ _ f_pos Hc (conj (proj1 Hf) Hlim)) as (En & Esp & _).
    auto. }
  unfold block_of.
  set (q := quantum_of k v dev) in *. set (qs := qset dev) in *.
  set (p := translate q qs f_pos) in *.
  set (n := follow_steps (item p)) in *.
  destruct (follow_succeeds n dev) as (dev1 & dptr & Ef).
  pose proof (follow_dptr_data _ _ _ _ _ Ef) as Ed.
  assert (Ha : exists arr, write_array e qs dptr = Some arr /\
                           Z.of_nat (length arr) = qs).
  { unfold write_array. destruct (data dptr) as [arr|] eqn:Edd.
    - exists arr. split; [reflexivity|].
      apply (arrays_ok_data_at dev n arr Hw). now symmetry.
    - rewrite Hka. destruct (Z.leb_spec 0 qs); [|lia]. simpl.
      eexists. split; [reflexivity|]. rewrite repeat_length. lia. }
  destruct Ha as (arr & Ea & Hlen).
  destruct (slot_in_range arr (s_pos p)) as [old Es]; [lia|].
  pose proof (write_array_blocks _ _ _ _ _ _ _ _ (s_pos p) Ef Ea) as Hold.
  rewrite Es in Hold.
  assert (Hb : exists b, write_block k v g e dptr old = Alloc_ok b /\
                 (forall b0, old = Some b0 -> b = b0) /\
                 (old = None -> baddr b = alloc_addr e /\ cleared v g b)).
  { destruct old as [b0|]; simpl.
    - exists b0. split; [reflexivity|]. split; [congruence | discriminate].
    - assert (Hal : exists b, alloc_quantum k v g e dptr = Alloc_ok b).
      { unfold alloc_quantum.
        destruct (Z.eqb_spec (alloc_addr e) 0) as [?|_]; [contradiction|].
        destruct v; [|eauto].
        destruct (Z.ltb_spec (scullc_cache_size g) (wrap_ulong (scullc_quantum g)));
          [specialize (Hfit eq_refl); lia | eauto]. }
      destruct Hal as (b & Eb). exists b. split; [exact Eb|].
      split; [discriminate|]. intros _. apply (alloc_quantum_cleared _ _ _ _ _ _ Eb). }
  destruct Hb as (b & Eb & Hsame & Hnew).
  eexists. split.
  - unfold scull_write. fold q qs p n. rewrite Hl, Ei, Hki.
    destruct (Z.eqb_spec (q * qs) 0) as [?|_]; [lia|].
    rewrite Ef, Ea, Es, Eb, clamp_zero, copy_in_nothing.
    replace (in_bounds (bytes b) (q_pos p) 0) with true by reflexivity.
    destruct (Z.ltb_spec (Z.of_nat (length buf)) 0) as [?|_]; [lia|].
    rewrite Z.add_0_r, !wrap_long_id by lia. reflexivity.
  - intros Hlim. destruct (Hspec Hlim) as [En Esp]. rewrite <- En, <- Esp.
    split.
    + intros m s Hne. rewrite block_at_set_size.
      rewrite (store_block_at _ _ _ _ _ _ _ _ _ _ _ Ef Ea Es).
      destruct (Nat.eqb_spec m n) as [->|_]; [|reflexivity].
      destruct (Z.eqb_spec s (s_pos p)) as [->|_]; [congruence | reflexivity].
    + rewrite <- Hold. rewrite block_at_set_size.
      rewrite (store_block_at _ _ _ _ _ _ _ _ _ _ _ Ef Ea Es).
      rewrite Nat.eqb_refl, Z.eqb_refl. cbn [andb].
      assert (Eb' : mk_block (baddr b) (bytes b) = b) by (now destruct b).
      rewrite Eb'.
      destruct old as [b0|].
      * now rewrite (Hsame b0 eq_refl).
      * exists b. split; [reflexivity|]. now apply Hnew.
Qed.

(** C9, as the code has it: a write of length 0 copies nothing and leaves
    the file position, the configuration, the mapping count and every
    block already stored as they were, and it never fails on the user
    buffer; but it runs the whole write path.  It returns 0 only after the
    list items, the array and a block for its offset exist, and then the
    size is the larger of the old size and the offset.  On a device with a
    usable configuration and arrays of the configured width, with the lock
    and all memory granted (and, in scullc, cache objects of at least
    [scullc_quantum] bytes) it does return 0; at an offset below
    [2^31 * quantum * qset] every other block is as before, and the block
    of the offset is the one that was there or, when there was none, a new
    one at the address the allocator returned, cleared.  When the bytes of
    one list item ([quantum * qset] as an [int]) are 0, it faults. *)
Theorem zero_length_write
    (k : kernel) (v : driver) (g : params) (e : env) (dev : scull_dev)
    (buf : list byte) (f_pos : Z) (r : result) (dev' : scull_dev) (pos' : Z) :
  0 <= f_pos < 2 ^ 63 ->
  scull_write k v g e dev buf 0 f_pos = (r, dev', pos') ->
  pos' = f_pos /\
  (r = Ret 0 \/ r = Ret (- ERESTARTSYS) \/ r = Ret (- ENOMEM) \/ r = Oops) /\
  (vmas dev' = vmas dev /\ quantum dev' = quantum dev /\ order dev' = order dev /\
   qset dev' = qset dev) /\
  (forall n s b, block_at dev n s = Some b -> block_at dev' n s = Some b) /\
  (r = Ret 0 ->
   size dev' = Z.max (size dev) f_pos /\
   block_at dev'
     (follow_steps (item (translate (quantum_of k v dev) (qset dev) f_pos)))
     (s_pos (translate (quantum_of k v dev) (qset dev) f_pos)) <> None) /\
  (env_ok e = true -> config_ok (quantum_of k v dev) (qset dev) ->
   arrays_ok dev = true ->
   (v = Scullc -> wrap_ulong (scullc_quantum g) <= scullc_cache_size g) ->
   r = Ret 0 /\
   (f_pos < 2 ^ 31 * (quantum_of k v dev * qset dev) ->
    (forall m s,
       (m, s) <> (Z.to_nat (segment_index (quantum_of k v dev) (qset dev) f_pos),
                  block_index (quantum_of k v dev) (qset dev) f_pos) ->
       block_at dev' m s = block_at dev m s) /\
    match block_of (quantum_of k v dev) (qset dev) dev f_pos with
    | Some b => block_of (quantum_of k v dev) (qset dev) dev' f_pos = Some b
    | None => exists b',
        block_of (quantum_of k v dev) (qset dev) dev' f_pos = Some b' /\
        baddr b' = alloc_addr e /\ cleared v g b'
    end)) /\
  (lock_interrupted e = false ->
   wrap_int (quantum_of k v dev * qset dev) = 0 -> r = Oops).
Proof.
  intros Hf H.
  destruct (write_frame _ _ _ _ _ _ _ _ _ _ _ H) as (Hcfg & _ & Hpos).
  assert (Hp : pos' = f_pos).
  { destruct Hpos as [(-> & _)|(_ & ->)]; [reflexivity|].
    rewrite clamp_zero, Z.add_0_r. apply wrap_long_id. lia. }
  assert (Hgo : env_ok e = true -> config_ok (quantum_of k v dev) (qset dev) ->
    arrays_ok dev = true ->
    (v = Scullc -> wrap_ulong (scullc_quantum g) <= scullc_cache_size g) ->
    r = Ret 0 /\
    (f_pos < 2 ^ 31 * (quantum_of k v dev * qset dev) ->
     (forall m s,
        (m, s) <> (Z.to_nat (segment_index (quantum_of k v dev) (qset dev) f_pos),
                   block_index (quantum_of k v dev) (qset dev) f_pos) ->
        block_at dev' m s = block_at dev m s) /\
     match block_of (quantum_of k v dev) (qset dev) dev f_pos with
     | Some b => block_of (quantum_of k v dev) (qset dev) dev' f_pos = Some b
     | None => exists b',
         block_of (quantum_of k v dev) (qset dev) dev' f_pos = Some b' /\
         baddr b' = alloc_addr e /\ cleared v g b'
     end)).
  { intros He Hc Hw Hfit.
    destruct (zero_write_goes_through k v g e dev buf f_pos He Hc Hw Hf Hfit)
      as (d & E & Hrest).
    rewrite E in H. injection H as <- <- _. split; [reflexivity | exact Hrest]. }
  assert (Hz : lock_interrupted e = false ->
               wrap_int (quantum_of k v dev * qset dev) = 0 -> r = Oops).
  { intros Hl E0. unfold scull_write in H. rewrite Hl, E0 in H.
    simpl in H. congruence. }
  match goal with
  | |- _ /\ ?A /\ _ /\ ?C /\ ?D /\ _ /\ _ =>
      cut (A /\ C /\ D); [intros (? & ? & ?); auto 8|]
  end.
  clear Hcfg Hpos Hp Hgo Hz.
  revert r dev' pos' H. write_cases; intros r dev' pos' H; injection H as <- <- <-.
  all: rewrite ?clamp_zero in *.
  all: set (p := translate (quantum_of k v dev) (qset dev) f_pos) in *.
  all: set (n := follow_steps (item p)) in *.
  - (* interrupted *) repeat split; auto; congruence.
  - (* no bytes per item *) repeat split; auto 6; congruence.
  - (* no block *)
    repeat split; auto 6; try congruence.
    intros m s b0 Hb. now rewrite (store_array_block_at _ _ _ _ _ _ _ _ Ef Ea).
  - (* the memset overruns the new object *)
    split; [auto 6|]. split; [|congruence].
    apply (store_block_keeps _ _ _ _ _ _ _ _ _ _ _ Ef Ea Es).
    intros b0 Hb0. rewrite (write_block_fault_new _ _ _ _ _ _ _ Eb) in Hb0.
    discriminate.
  - (* user copy fault: impossible *)
    apply Z.ltb_lt in Eu. lia.
  - (* through *)
    rewrite copy_in_nothing.
    assert (Hk : forall m s b0, block_at dev m s = Some b0 ->
              block_at (upd_item dev1 n (fun d => set_data d (Some
                (set_nth arr (Z.to_nat (s_pos p))
                   (Some (mk_block (baddr b) (bytes b))))))) m s = Some b0).
    { apply (store_block_keeps _ _ _ _ _ _ _ _ _ _ _ Ef Ea Es).
      intros b0 Hb0. rewrite <- (write_block_found _ _ _ _ _ _ _ _ Eb Hb0).
      now destruct b. }
    split; [|split].
    + left. reflexivity.
    + intros m s b0 Hb. rewrite block_at_set_size. auto.
    + intros _. split.
      * simpl. rewrite Z.add_0_r, wrap_long_id, wrap_ulong_id by lia.
        match goal with
        | |- (if ?a <? _ then _ else ?a') = Z.max ?z _ =>
            replace a with z; [replace a' with z|]
        end.
        -- destruct (size dev <? f_pos) eqn:E;
             [apply Z.ltb_lt in E | apply Z.ltb_ge in E]; lia.
        -- symmetry.
           apply (same_head_store dev dev1), (same_head_follow _ _ _ _ _ Ef).
        -- symmetry.
           apply (same_head_store dev dev1), (same_head_follow _ _ _ _ _ Ef).
      * rewrite block_at_set_size.
        rewrite (store_block_at _ _ _ _ _ _ _ _ _ _ _ Ef Ea Es).
        rewrite Nat.eqb_refl, Z.eqb_refl. discriminate.
  - (* out of the block: impossible *)
    unfold in_bounds in Ei. simpl in Ei. discriminate.
  - (* out of the array *)
    repeat split; auto 6; try congruence.
    intros m s b0 Hb. now rewrite (store_array_block_at _ _ _ _ _ _ _ _ Ef Ea).
  - (* no array *)
    repeat split; auto 6; try congruence.
    intros m s b0 Hb. unfold block_at in *.
    now rewrite (follow_data_at _ _ _ _ _ m Ef).
  - (* no list item *) repeat split; auto 6; congruence.
Qed.

(** On a new scullc device with [quantum = 4] and [qset = 2] the write of
    length 0 at offset 10 returns 0 and leaves size 10 and, in the block
    of offset 10 (list item 1, slot 0), a new block of four zero bytes at
    the address the allocator returned. *)
Lemma zero_length_write_witness :
  exists dev',
    scull_write demo_kernel Scullc small_params (small_env 4096)
      (fresh_dev 4 0 2) [] 0 10 = (Ret 0, dev', 10) /\
    size dev' = Z.max 0 10 /\
    exists b', block_of 4 2 dev' 10 = Some b' /\ baddr b' = 4096 /\
               cleared Scullc small_params b'.
Proof.
  exists (snd (fst (scull_write demo_kernel Scullc small_params (small_env 4096)
                      (fresh_dev 4 0 2) [] 0 10))).
  split; [reflexivity|].
  destruct (zero_length_write demo_kernel Scullc small_params (small_env 4096)
              (fresh_dev 4 0 2) [] 10 (Ret 0)
              (snd (fst (scull_write demo_kernel Scullc small_params (small_env 4096)
                           (fresh_dev 4 0 2) [] 0 10)))
              10 ltac:(lia) eq_refl)
    as (_ & _ & _ & _ & Hsz & Hgo & _).
  split; [exact (proj1 (Hsz eq_refl))|].
  destruct Hgo as (_ & Hb).
  - reflexivity.
  - unfold config_ok. simpl. lia.
  - reflexivity.
  - intros _. vm_compute. discriminate.
  - destruct Hb as (_ & Hb); [simpl; lia|]. exact Hb.
Defined.

(** C9, as stated, fails: on a new device (size 0, no list item behind the
    head, no array) a write of length 0 at offset 10 returns 0 and leaves
    a device of size 10 with a second list item, an array and a block. *)
Lemma write_of_nothing_changes_device :
  exists dev',
    scull_write demo_kernel Scullc small_params (small_env 4096)
      (fresh_dev 4 0 2) [] 0 10 = (Ret 0, dev', 10) /\
    size (fresh_dev 4 0 2) = 0 /\ size dev' = 10 /\
    block_at (fresh_dev 4 0 2) 1 0 = None /\
    block_at dev' 1 0 = Some (mk_block 4096 [x00; x00; x00; x00]) /\
    dev' <> fresh_dev 4 0 2.
Proof.
  eexists. split; [reflexivity|]. repeat split.
  intros H. apply (f_equal size) in H. discriminate H.
Qed.

(** ** One write call *)

Lemma in_bounds_true bs q n :
  in_bounds bs q n = true -> 0 < n -> 0 <= q /\ q + n <= Z.of_nat (length bs).
Proof.
  unfold in_bounds. intros H Hn.
  destruct (Z.eqb_spec n 0); [lia|]. simpl in H.
  apply andb_true_iff in H. destruct H as [H H3].
  apply andb_true_iff in H. destruct H as [H1 H2]. lia.
Qed.

Lemma copy_in_full bs q n buf :
  n <= Z.of_nat (length buf) ->
  copy_in bs q n buf =
  firstn (Z.to_nat q) bs ++ firstn (Z.to_nat n) buf ++ skipn (Z.to_nat (q + n)) bs.
Proof.
  intros H. unfold copy_in. rewrite Z.min_l by lia. now rewrite Z.sub_diag.
Qed.

(** The effect of a write call that succeeds. *)
Lemma write_call_effect
    (k : kernel) (v : driver) (g : params) (e : env) (dev : scull_dev)
    (buf : list byte) (count f_pos n : Z) (dev' : scull_dev) (pos' : Z) :
  config_ok (quantum_of k v dev) (qset dev) ->
  0 <= f_pos -> 0 < count -> f_pos + count < 2 ^ 63 ->
  scull_write k v g e dev buf count f_pos = (Ret n, dev', pos') -> 0 <= n ->
  let p := translate (quantum_of k v dev) (qset dev) f_pos in
  n = Z.min count (quantum_of k v dev - q_pos p) /\ 0 < n /\
  q_pos p + n <= quantum_of k v dev /\
  pos' = f_pos + n /\
  size dev' = Z.max (size dev) (f_pos + n) /\
  (forall m s, (m, s) <> (follow_steps (item p), s_pos p) ->
     block_at dev' m s = block_at dev m s) /\
  exists old_bytes b',
    block_at dev' (follow_steps (item p)) (s_pos p) = Some b' /\
    bytes b' = firstn (Z.to_nat (q_pos p)) old_bytes
               ++ firstn (Z.to_nat n) buf
               ++ skipn (Z.to_nat (q_pos p + n)) old_bytes /\
    q_pos p + n <= Z.of_nat (length old_bytes) /\
    n <= Z.of_nat (length buf) /\
    (forall b, block_at dev (follow_steps (item p)) (s_pos p) = Some b ->
       old_bytes = bytes b /\ baddr b' = baddr b).
Proof.
  intros Hc Hf Hcnt Hb H Hn p.
  destruct (write_reaches_size _ _ _ _ _ _ _ _ _ _ _ Hf (Z.lt_le_incl _ _ Hcnt) Hb H Hn)
    as [_ Hsize].
  destruct (write_success_inv _ _ _ _ _ _ _ _ _ _ _ H Hn)
    as (d1 & dp & arr & old & b & _ & Ef & Ea & Es & Eb & Ei & Eu & En & Ep & Ed).
  fold p in Ef, Es, Ei, Eu, En, Ep, Ed.
  destruct (config_bounds _ _ Hc) as [Hq _].
  destruct (translate_low _ _ f_pos Hc Hf) as (_ & _ & _ & Ho). fold p in Ho.
  rewrite (clamp_min _ _ count Hq Ho) in *.
  set (c := Z.min count (quantum_of k v dev - q_pos p)) in *.
  assert (Hcr : 0 < c <= count) by (unfold c; lia).
  rewrite wrap_long_id in En, Ep by lia. subst n pos'.
  destruct (in_bounds_true _ _ _ Ei) as [_ Hin]; [lia|].
  repeat split; try lia; try assumption.
  - intros m s Hne. rewrite Ed, block_at_set_size.
    rewrite (store_block_at _ _ _ _ _ _ _ _ _ _ _ Ef Ea Es).
    destruct (Nat.eqb_spec m (follow_steps (item p))) as [->|_]; [|reflexivity].
    destruct (Z.eqb_spec s (s_pos p)) as [->|_]; [congruence | reflexivity].
  - exists (bytes b), (mk_block (baddr b) (copy_in (bytes b) (q_pos p) c buf)).
    split; [|split; [|split; [|split]]].
    + rewrite Ed, block_at_set_size.
      rewrite (store_block_at _ _ _ _ _ _ _ _ _ _ _ Ef Ea Es).
      now rewrite Nat.eqb_refl, Z.eqb_refl.
    + simpl. apply copy_in_full. exact Eu.
    + exact Hin.
    + exact Eu.
    + intros b0 Hb0.
      pose proof (write_array_blocks _ _ _ _ _ _ _ _ (s_pos p) Ef Ea) as Hw.
      rewrite Es, Hb0 in Hw. destruct old as [b1|]; [|discriminate].
      simpl in Eb. split; simpl; congruence.
Qed.

(** C5, as the code has it: on a device with a usable configuration, a
    write call of positive length at an offset below
    [2^31 * quantum * qset] (the list item index fits the [int] the code
    keeps it in) that succeeds copies exactly
    [n = min(count, quantum - intra_offset)] bytes of the user buffer into
    the block of its offset, at [intra_offset], and nowhere else; it
    returns [n], moves the file position by [n] and makes the size the
    larger of the old size and [f_pos + n]; the bytes stay inside that one
    block ([intra_offset + n <= quantum]).  List item, block and offset in
    the block are those of the specification's addressing. *)
Theorem write_one_block
    (k : kernel) (v : driver) (g : params) (e : env) (dev : scull_dev)
    (buf : list byte) (count f_pos n : Z) (dev' : scull_dev) (pos' : Z) :
  config_ok (quantum_of k v dev) (qset dev) ->
  0 <= f_pos -> 0 < count -> f_pos + count < 2 ^ 63 ->
  f_pos < 2 ^ 31 * (quantum_of k v dev * qset dev) ->
  scull_write k v g e dev buf count f_pos = (Ret n, dev', pos') -> 0 <= n ->
  let seg := Z.to_nat (segment_index (quantum_of k v dev) (qset dev) f_pos) in
  let blk := block_index (quantum_of k v dev) (qset dev) f_pos in
  let off := intra_offset (quantum_of k v dev) (qset dev) f_pos in
  n = Z.min count (quantum_of k v dev - off) /\ 0 < n /\
  off + n <= quantum_of k v dev /\
  pos' = f_pos + n /\
  size dev' = Z.max (size dev) (f_pos + n) /\
  (forall m s, (m, s) <> (seg, blk) -> block_at dev' m s = block_at dev m s) /\
  exists old_bytes b',
    block_at dev' seg blk = Some b' /\
    bytes b' = firstn (Z.to_nat off) old_bytes
               ++ firstn (Z.to_nat n) buf
               ++ skipn (Z.to_nat (off + n)) old_bytes /\
    off + n <= Z.of_nat (length old_bytes) /\
    n <= Z.of_nat (length buf) /\
    (forall b, block_at dev seg blk = Some b ->
       old_bytes = bytes b /\ baddr b' = baddr b).
Proof.
  intros Hc Hf Hcnt Hb Hlim H Hn seg blk off.
  destruct (translate_spec _ _ f_pos Hc (conj Hf Hlim)) as (En & Es & Eo).
  pose proof (write_call_effect k v g e dev buf count f_pos n dev' pos'
                Hc Hf Hcnt Hb H Hn) as W.
  cbv zeta in W. rewrite En, Es, Eo in W. exact W.
Qed.

(** Five bytes offered at offset 10 of a new scullc device with
    [quantum = 4] and [qset = 2]: list item 1, block 0, offset 2 in the
    block; two bytes go in. *)
Lemma write_one_block_witness :
  exists dev',
    scull_write demo_kernel Scullc small_params (small_env 4096)
      (fresh_dev 4 0 2) [x01; x02; x03; x04; x05] 5 10 = (Ret 2, dev', 12) /\
    2 = Z.min 5 (4 - intra_offset 4 2 10) /\
    size dev' = Z.max 0 (10 + 2) /\
    exists old_bytes b',
      block_at dev' 1 0 = Some b' /\
      bytes b' = firstn 2 old_bytes ++ [x01; x02] ++ skipn 4 old_bytes.
Proof.
  exists (snd (fst (scull_write demo_kernel Scullc small_params (small_env 4096)
                      (fresh_dev 4 0 2) [x01; x02; x03; x04; x05] 5 10))).
  split; [reflexivity|].
  destruct (write_one_block demo_kernel Scullc small_params (small_env 4096)
              (fresh_dev 4 0 2) [x01; x02; x03; x04; x05] 5 10 2
              (snd (fst (scull_write demo_kernel Scullc small_params (small_env 4096)
                           (fresh_dev 4 0 2) [x01; x02; x03; x04; x05] 5 10))) 12)
    as (Hn & _ & _ & _ & Hsz & _ & ob & b' & Hb & Hbytes & _).
  - unfold config_ok. simpl. lia.
  - lia.
  - lia.
  - lia.
  - simpl. lia.
  - reflexivity.
  - lia.
  - split; [exact Hn|]. split; [exact Hsz|].
    exists ob, b'. split; [exact Hb | exact Hbytes].
Defined.

(** C5, as stated, fails beyond the range of the [int] that holds the list
    item index.  [small_full_dev] holds bytes 1..8 in one list item
    ([quantum = 4], [qset = 2]).  A write of one byte at offset
    [2^35 + 7], whose list item is number [2^32], returns 1; the device
    still has one list item, so the block of that offset does not exist,
    and the byte went into the block of offset 7. *)
Lemma write_beyond_int_range_hits_another_block :
  block_of 4 2 small_full_dev 7 = Some (mk_block 8192 [x05; x06; x07; x08]) /\
  scull_write demo_kernel Scullc small_params (small_env 12288)
    small_full_dev [x09] 1 (2 ^ 35 + 7) = (Ret 1, far_written_dev, 2 ^ 35 + 8) /\
  segment_index 4 2 (2 ^ 35 + 7) = 2 ^ 32 /\
  block_index 4 2 (2 ^ 35 + 7) = 1 /\ intra_offset 4 2 (2 ^ 35 + 7) = 3 /\
  next far_written_dev = None /\
  block_of 4 2 far_written_dev (2 ^ 35 + 7) = None /\
  block_of 4 2 far_written_dev 7 = Some (mk_block 8192 [x05; x06; x07; x09]).
Proof.
  assert (En : next far_written_dev = None) by (vm_compute; reflexivity).
  do 5 (split; [vm_compute; reflexivity|]).
  split; [exact En|]. split; [|vm_compute; reflexivity].
  apply block_at_past_end; [exact En|].
  assert (H : segment_index 4 2 (2 ^ 35 + 7) = 2 ^ 32) by (vm_compute; reflexivity).
  rewrite H. lia.
Qed.

(** ** The bytes behind file offsets *)

(** Offsets in the same block translate alike. *)
Lemma translate_within q qs f j : config_ok q qs ->
  0 <= f < 2 ^ 31 * (q * qs) -> 0 <= j ->
  q_pos (translate q qs f) + j < q ->
  translate q qs (f + j)
  = mk_position (item (translate q qs f)) (s_pos (translate q qs f))
                (q_pos (translate q qs f) + j).
Proof.
  intros Hc Hf Hj Hq.
  destruct (translate_low q qs f Hc) as (_ & _ & Hs & Ho); [lia|].
  destruct (translate_item q qs f Hc Hf) as (_ & Hi & _).
  rewrite (translate_split q qs f Hc Hf) at 1.
  rewrite <- Z.add_assoc. apply translate_build; auto; lia.
Qed.

Lemma stored_config_bound q qs : config_ok q qs -> 2 ^ 31 * (q * qs) < 2 ^ 62.
Proof. intros (Hq & Hs & Hb). nia. Qed.

(** The bytes a successful write call puts behind its offsets, and the
    bytes it leaves alone. *)
Lemma write_call_bytes k v g e dev buf count f_pos n dev' pos' :
  let q := quantum_of k v dev in
  let qs := qset dev in
  config_ok q qs -> 0 <= f_pos -> 0 < count ->
  f_pos + count <= 2 ^ 31 * (q * qs) ->
  scull_write k v g e dev buf count f_pos = (Ret n, dev', pos') -> 0 <= n ->
  (forall i, 0 <= i < n ->
     stored q qs dev' (f_pos + i) = nth_error buf (Z.to_nat i)) /\
  (forall x c, 0 <= x < 2 ^ 31 * (q * qs) -> x < f_pos \/ f_pos + n <= x ->
     stored q qs dev x = Some c -> stored q qs dev' x = Some c).
Proof.
  intros q qs Hc Hf Hcnt Hb H Hn.
  pose proof (stored_config_bound _ _ Hc) as Hbig.
  assert (Hb63 : f_pos + count < 2 ^ 63) by lia.
  destruct (write_call_effect _ _ _ _ _ _ _ _ _ _ _ Hc Hf Hcnt Hb63 H Hn)
    as (En & Hpos & Hfit & _ & _ & Hother & old & b' & Hb' & Ebytes & Hold & Hbuf & Hprev).
  fold q qs in En, Hfit, Hother, Hb', Ebytes, Hold, Hprev.
  set (p := translate q qs f_pos) in *.
  destruct (translate_low q qs f_pos Hc Hf) as (_ & _ & Hs & Ho). fold p in Hs, Ho.
  assert (Hfr : 0 <= f_pos < 2 ^ 31 * (q * qs)) by lia.
  destruct (translate_item q qs f_pos Hc Hfr) as (_ & Hi & Est). fold p in Hi, Est.
  assert (Lf : length (firstn (Z.to_nat (q_pos p)) old) = Z.to_nat (q_pos p))
    by (apply firstn_length_le; lia).
  assert (Lb : length (firstn (Z.to_nat n) buf) = Z.to_nat n)
    by (apply firstn_length_le; lia).
  split.
  - intros i Hi'. unfold stored.
    rewrite (translate_within q qs f_pos i Hc Hfr) by (fold p; lia).
    cbn [item s_pos q_pos]. fold p. rewrite Hb', Ebytes.
    rewrite nth_error_app2 by lia. rewrite Lf.
    replace (Z.to_nat (q_pos p + i) - Z.to_nat (q_pos p))%nat with (Z.to_nat i) by lia.
    rewrite nth_error_app1 by lia.
    rewrite nth_error_firstn.
    destruct (Nat.ltb_spec (Z.to_nat i) (Z.to_nat n)); [reflexivity | lia].
  - intros x c Hx Hout Hst. unfold stored in *.
    set (p' := translate q qs x) in *.
    destruct (translate_low q qs x Hc) as (_ & _ & Hs' & Ho'); [lia|]. fold p' in Hs', Ho'.
    destruct (translate_item q qs x Hc Hx) as (_ & Hi' & Est'). fold p' in Hi', Est'.
    destruct (Z.eq_dec (item p') (item p)) as [Ei|Ei];
      [destruct (Z.eq_dec (s_pos p') (s_pos p)) as [Es|Es]|].
    + (* the block written *)
      pose proof (translate_split q qs x Hc Hx) as Ex. fold p' in Ex.
      pose proof (translate_split q qs f_pos Hc Hfr) as Ef. fold p in Ef.
      assert (Ed : x - f_pos = q_pos p' - q_pos p) by (rewrite Ex, Ef, Ei, Es; ring).
      assert (Est2 : follow_steps (item p') = follow_steps (item p)) by (now rewrite Ei).
      rewrite Est2, Es in *. rewrite Hb'.
      destruct (block_at dev (follow_steps (item p)) (s_pos p)) as [b|] eqn:Eb;
        [|discriminate].
      destruct (Hprev b eq_refl) as [Eo _]. rewrite Ebytes, Eo in *.
      destruct Hout as [Hlow|Hhigh].
      * rewrite nth_error_app1 by lia.
        rewrite nth_error_firstn.
        destruct (Nat.ltb_spec (Z.to_nat (q_pos p')) (Z.to_nat (q_pos p)));
          [exact Hst | lia].
      * rewrite nth_error_app2 by lia. rewrite Lf.
        rewrite nth_error_app2 by lia. rewrite Lb.
        rewrite nth_error_skipn. rewrite <- Hst. f_equal. lia.
    + rewrite Hother; [exact Hst|].
      intros E. injection E as _ E2. exact (Es E2).
    + rewrite Hother; [exact Hst|].
      intros E. injection E as E1 _. apply Ei.
      assert (E1' : follow_steps (item p') = follow_steps (item p)) by exact E1.
      unfold follow_steps in E1'. rewrite !wrap_uint_id in E1' by lia.
      apply Z2Nat.inj; lia.
Qed.

Lemma block_at_some dev n s b :
  block_at dev n s = Some b ->
  exists d arr, item_at dev n = Some d /\ data d = Some arr /\
                slot arr s = Some (Some b).
Proof.
  unfold block_at, data_at.
  destruct (item_at dev n) as [d|]; [|discriminate].
  destruct (data d) as [arr|] eqn:Ed; [|discriminate].
  destruct (slot arr s) as [[b0|]|] eqn:Es; try discriminate.
  intros H. inv H. eauto.
Qed.

(** A read call over offsets that all have a byte stored returns those
    bytes, up to the end of the block, and leaves the device alone. *)
Lemma read_call_bytes k v e dev buf_len count f_pos l :
  let q := quantum_of k v dev in
  let qs := qset dev in
  let m := Z.min count (q - q_pos (translate q qs f_pos)) in
  config_ok q qs -> lock_interrupted e = false ->
  0 <= f_pos -> 0 < count -> count <= buf_len ->
  f_pos + count <= 2 ^ 31 * (q * qs) -> f_pos + count <= size dev ->
  (forall i, 0 <= i < m -> stored q qs dev (f_pos + i) = nth_error l (Z.to_nat i)) ->
  m <= Z.of_nat (length l) ->
  0 < m /\
  scull_read k v e dev buf_len count f_pos
  = (Ret m, dev, f_pos + m, firstn (Z.to_nat m) l).
Proof.
  intros q qs m Hc Hl Hf Hcnt Hbuf Hb Hsz Hst Hlen.
  pose proof (stored_config_bound _ _ Hc) as Hbig.
  destruct (config_itemsize _ _ Hc) as [Ei Hi].
  destruct (config_bounds _ _ Hc) as [Hq _].
  set (p := translate q qs f_pos) in *.
  destruct (translate_low q qs f_pos Hc Hf) as (_ & _ & Hs & Ho). fold p in Hs, Ho.
  assert (Hfr : 0 <= f_pos < 2 ^ 31 * (q * qs)) by lia.
  assert (Hm : 0 < m <= count) by (unfold m; lia).
  split; [lia|].
  (* the block of the first byte *)
  assert (H0 : stored q qs dev f_pos <> None).
  { rewrite <- (Z.add_0_r f_pos), (Hst 0) by lia.
    apply nth_error_Some. simpl. lia. }
  unfold stored in H0. fold p in H0.
  destruct (block_at dev (follow_steps (item p)) (s_pos p)) as [b|] eqn:Eb;
    [clear H0 | congruence].
  destruct (block_at_some _ _ _ _ Eb) as (d & arr & Ed & Ea & Es).
  (* every byte asked for lies in it *)
  assert (Hin : forall i, 0 <= i < m ->
            nth_error (bytes b) (Z.to_nat (q_pos p + i)) = nth_error l (Z.to_nat i)).
  { intros i Hi'. rewrite <- (Hst i Hi'). unfold stored.
    rewrite (translate_within q qs f_pos i Hc Hfr) by (fold p; lia).
    cbn [item s_pos q_pos]. fold p. now rewrite Eb. }
  assert (Hfit : q_pos p + m <= Z.of_nat (length (bytes b))).
  { assert (Hn : nth_error (bytes b) (Z.to_nat (q_pos p + (m - 1))) <> None).
    { rewrite Hin by lia. apply nth_error_Some. lia. }
    apply nth_error_Some in Hn. lia. }
  unfold scull_read. fold q qs p. rewrite Hl.
  rewrite wrap_ulong_id by lia.
  destruct (Z.ltb_spec (size dev) f_pos) as [?|_]; [lia|].
  rewrite wrap_ulong_id by lia.
  destruct (Z.ltb_spec (size dev) (f_pos + count)) as [?|_]; [lia|].
  rewrite Ei. destruct (Z.eqb_spec (q * qs) 0) as [?|_]; [lia|].
  rewrite (follow_existing _ _ _ _ Ed), Ea, Es.
  rewrite (clamp_min q (q_pos p) count Hq Ho). fold m.
  replace (Z.min m (Z.max 0 buf_len)) with m by lia.
  assert (Eib : in_bounds (bytes b) (q_pos p) m = true).
  { unfold in_bounds. destruct (m =? 0); [reflexivity|]. cbn [orb].
    rewrite !andb_true_iff. repeat split; apply Z.leb_le; lia. }
  rewrite Eib, Z.ltb_irrefl. rewrite !wrap_long_id by lia.
  f_equal. apply nth_error_ext. intros i. rewrite !nth_error_firstn.
  destruct (Nat.ltb_spec i (Z.to_nat m)); [|reflexivity].
  rewrite nth_error_skipn. specialize (Hin (Z.of_nat i)).
  rewrite Nat2Z.id in Hin. rewrite <- Hin by lia. f_equal. lia.
Qed.

(** ** Writing a buffer, reading it back *)

Lemma quantum_of_same k v d d' :
  quantum d' = quantum d -> order d' = order d ->
  quantum_of k v d' = quantum_of k v d.
Proof. intros Hq Ho. destruct v; simpl; congruence. Qed.

Lemma write_all_step fuel k v g es dev buf f_pos :
  buf <> [] ->
  write_all (S fuel) k v g es dev buf f_pos =
  match scull_write k v g (es O) dev buf (Z.of_nat (length buf)) f_pos with
  | (Ret n, dev', pos') =>
      if 0 <? n
      then write_all fuel k v g (fun i => es (S i)) dev' (skipn (Z.to_nat n) buf) pos'
      else None
  | (Oops, _, _) => None
  end.
Proof. destruct buf; [congruence | reflexivity]. Qed.

(** What the write loop leaves behind its offsets. *)
Lemma write_all_bytes k v g fuel : forall es dev buf f_pos dev' pos',
  let q := quantum_of k v dev in
  let qs := qset dev in
  config_ok q qs -> 0 <= f_pos ->
  f_pos + Z.of_nat (length buf) <= 2 ^ 31 * (q * qs) ->
  write_all fuel k v g es dev buf f_pos = Some (dev', pos') ->
  pos' = f_pos + Z.of_nat (length buf) /\
  quantum_of k v dev' = q /\ qset dev' = qs /\
  size dev <= size dev' /\
  (buf <> [] -> size dev' = Z.max (size dev) pos') /\
  (forall i, 0 <= i < Z.of_nat (length buf) ->
     stored q qs dev' (f_pos + i) = nth_error buf (Z.to_nat i)) /\
  (forall x c, 0 <= x < f_pos ->
     stored q qs dev x = Some c -> stored q qs dev' x = Some c).
Proof.
  induction fuel as [|fuel IH]; intros es dev buf f_pos dev' pos' q qs Hc Hf Hb H.
  - destruct buf; simpl in H; [|discriminate]. inv H. simpl.
    repeat split; auto; try lia; congruence.
  - assert (Hcase : buf = [] \/ buf <> [])
      by (destruct buf; [left | right]; congruence).
    destruct Hcase as [->|Hne].
    { simpl in H. inv H. simpl. repeat split; auto; try lia; congruence. }
    assert (Hlen : 0 < Z.of_nat (length buf))
      by (destruct buf; [congruence | simpl; lia]).
    rewrite write_all_step in H by exact Hne.
    destruct (scull_write k v g (es O) dev buf (Z.of_nat (length buf)) f_pos)
      as [[[n|] d1] p1] eqn:Ew; [|discriminate].
    destruct (Z.ltb_spec 0 n) as [Hn|]; [|discriminate].
    pose proof (stored_config_bound _ _ Hc) as Hbig.
    assert (Hb63 : f_pos + Z.of_nat (length buf) < 2 ^ 63) by lia.
    destruct (write_call_effect _ _ _ _ _ _ _ _ _ _ _ Hc Hf Hlen Hb63 Ew (Z.lt_le_incl _ _ Hn))
      as (En & _ & _ & Ep & Esz & _).
    destruct (write_call_bytes _ _ _ _ _ _ _ _ _ _ _ Hc Hf Hlen Hb Ew (Z.lt_le_incl _ _ Hn))
      as (Hnew & Hkeep).
    destruct (write_frame _ _ _ _ _ _ _ _ _ _ _ Ew) as ((_ & Eq & Eo & Eqs) & Hmono & _).
    pose proof (quantum_of_same k v _ _ Eq Eo) as Eqo.
    fold q qs in En, Hnew, Hkeep.
    assert (Hnle : n <= Z.of_nat (length buf)) by lia.
    assert (Lr : Z.of_nat (length (skipn (Z.to_nat n) buf)) = Z.of_nat (length buf) - n)
      by (rewrite length_skipn; lia).
    destruct (IH (fun i => es (S i)) d1 (skipn (Z.to_nat n) buf) p1 dev' pos')
      as (Ep' & Eq' & Eqs' & Hm' & Hsz' & Hnew' & Hkeep');
      [rewrite Eqo, Eqs; exact Hc | lia
      | rewrite Eqo, Eqs, Lr; fold q qs; lia | exact H |].
    rewrite Eqo in Eq', Hnew', Hkeep'. rewrite Eqs in Eqs', Hnew', Hkeep'.
    fold q qs in Eq', Eqs', Hnew', Hkeep'.
    split; [lia|]. split; [exact Eq'|]. split; [exact Eqs'|]. split; [lia|].
    split.
    { intros _. destruct (skipn (Z.to_nat n) buf) as [|r0 rt] eqn:Er.
      - simpl in Lr. destruct fuel; simpl in H; inv H; lia.
      - rewrite Hsz' by discriminate. lia. }
    split.
    + intros i Hi. destruct (Z.lt_ge_cases i n) as [Hlt|Hge].
      * destruct (nth_error buf (Z.to_nat i)) as [c|] eqn:Ec.
        2:{ apply nth_error_None in Ec. lia. }
        apply Hkeep'; [lia|]. rewrite Hnew by lia. exact Ec.
      * replace (f_pos + i) with (p1 + (i - n)) by lia.
        rewrite Hnew' by lia. rewrite nth_error_skipn. f_equal. lia.
    + intros x c Hx Hst. apply Hkeep'; [lia|]. apply Hkeep; auto; lia.
Qed.

(** What the read loop returns over offsets that all have a byte stored. *)
Lemma read_all_bytes k v fuel : forall es dev l f_pos,
  let q := quantum_of k v dev in
  let qs := qset dev in
  config_ok q qs -> (forall i, lock_interrupted (es i) = false) ->
  0 <= f_pos -> f_pos + Z.of_nat (length l) <= 2 ^ 31 * (q * qs) ->
  (l <> [] -> f_pos + Z.of_nat (length l) <= size dev) ->
  (forall i, 0 <= i < Z.of_nat (length l) ->
     stored q qs dev (f_pos + i) = nth_error l (Z.to_nat i)) ->
  (length l <= fuel)%nat ->
  read_all fuel k v es dev (Z.of_nat (length l)) f_pos
  = Some (l, dev, f_pos + Z.of_nat (length l)).
Proof.
  induction fuel as [|fuel IH]; intros es dev l f_pos q qs Hc Hl Hf Hb Hsz Hst Hfuel.
  - destruct l; [|simpl in Hfuel; lia]. simpl. now rewrite Z.add_0_r.
  - assert (Hcase : l = [] \/ l <> [])
      by (destruct l; [left | right]; congruence).
    destruct Hcase as [->|Hne]. { simpl. now rewrite Z.add_0_r. }
    assert (Hlen : 0 < Z.of_nat (length l))
      by (destruct l; [congruence | simpl; lia]).
    cbn [read_all]. destruct (Z.leb_spec (Z.of_nat (length l)) 0) as [?|_]; [lia|].
    set (m := Z.min (Z.of_nat (length l)) (q - q_pos (translate q qs f_pos))).
    destruct (read_call_bytes k v (es O) dev (Z.of_nat (length l)) (Z.of_nat (length l))
                f_pos l Hc (Hl O) Hf Hlen (Z.le_refl _) Hb (Hsz Hne)) as [Hm Er].
    { intros i Hi. apply Hst. fold q qs m in Hi. lia. }
    { fold q qs m. lia. }
    fold q qs m in Hm, Er. rewrite Er.
    destruct (Z.ltb_spec 0 m) as [_|?]; [|lia].
    assert (Hmle : m <= Z.of_nat (length l)) by (unfold m; lia).
    assert (Lr : Z.of_nat (length (skipn (Z.to_nat m) l)) = Z.of_nat (length l) - m)
      by (rewrite length_skipn; lia).
    rewrite <- Lr.
    rewrite (IH (fun i => es (S i)) dev (skipn (Z.to_nat m) l) (f_pos + m)); fold q qs.
    + rewrite firstn_skipn. do 2 f_equal. lia.
    + exact Hc.
    + intros i. apply Hl.
    + lia.
    + lia.
    + intros _. specialize (Hsz Hne). lia.
    + intros i Hi. rewrite <- Z.add_assoc. rewrite Hst by lia.
      rewrite nth_error_skipn. f_equal. lia.
    + rewrite length_skipn. lia.
Qed.

(** ** Devices on which writes go through *)

Lemma all_items_follow P ok n : forall dev dev1 dptr,
  P None 0 -> all_items P dev ->
  scull_follow ok dev n = Some (dev1, dptr) -> all_items P dev1.
Proof.
  induction n as [|n IH]; simpl; intros dev dev1 dptr H0 Ha H.
  - inv H. exact Ha.
  - assert (Hsub : forall d, next dev = Some d -> all_items P d).
    { intros d En m x Hx. apply (Ha (S m) x). simpl. now rewrite En. }
    assert (Hz : all_items P zero_dev).
    { intros m x Hx. apply item_at_zero_dev in Hx. subst x. exact H0. }
    assert (Hcons : forall d d' p, all_items P d ->
              scull_follow ok d n = Some (d', p) ->
              all_items P (set_next dev (Some d'))).
    { intros d d' p Hd Hf [|m] x Hx; simpl in Hx.
      - inv Hx. apply (Ha O dev eq_refl).
      - apply (IH _ _ _ H0 Hd Hf m x Hx). }
    destruct (next dev) as [d|] eqn:En.
    + destruct (scull_follow ok d n) as [[d' p]|] eqn:Ef; inv H.
      apply (Hcons d d' dptr (Hsub d eq_refl) Ef).
    + destruct ok; [|discriminate].
      destruct (scull_follow true zero_dev n) as [[d' p]|] eqn:Ef; inv H.
      apply (Hcons zero_dev d' dptr Hz Ef).
Qed.

Lemma all_items_store P x n : forall dev dptr,
  all_items P dev -> item_at dev n = Some dptr -> P x (order dptr) ->
  all_items P (upd_item dev n (fun d => set_data d x)).
Proof.
  induction n as [|n IH]; simpl; intros dev dptr Ha Hi Hx.
  - inv Hi. intros [|m] d Hd; simpl in Hd.
    + inv Hd. exact Hx.
    + apply (Ha (S m) d). exact Hd.
  - destruct (next dev) as [d0|] eqn:En; [|discriminate].
    intros [|m] d Hd; simpl in Hd.
    + inv Hd. apply (Ha O dev eq_refl).
    + apply (IH d0 dptr) with (n := m); auto.
      intros m' x' Hx'. apply (Ha (S m') x'). simpl. now rewrite En.
Qed.

Lemma all_items_set_size P dev x : all_items P dev -> all_items P (set_size dev x).
Proof.
  intros Ha [|m] d Hd; simpl in Hd.
  - inv Hd. apply (Ha O dev eq_refl).
  - apply (Ha (S m) d). exact Hd.
Qed.

Lemma alloc_quantum_fits k v g e q dptr :
  alloc_fits k v g q (order dptr) = true -> alloc_addr e <> 0 ->
  exists b, alloc_quantum k v g e dptr = Alloc_ok b /\
            q <= Z.of_nat (length (bytes b)).
Proof.
  intros Hf Ha. unfold alloc_quantum.
  destruct (Z.eqb_spec (alloc_addr e) 0) as [?|_]; [contradiction|].
  destruct v; simpl in Hf.
  - apply andb_true_iff in Hf. destruct Hf as [H1 H2].
    apply Z.leb_le in H1. apply Z.leb_le in H2.
    destruct (Z.ltb_spec (scullc_cache_size g) (wrap_ulong (scullc_quantum g))); [lia|].
    eexists. split; [reflexivity|]. simpl.
    rewrite length_app, repeat_length, length_map, length_seq.
    pose proof (wrap_ulong_range (scullc_quantum g)). lia.
  - apply Z.leb_le in Hf. eexists. split; [reflexivity|]. simpl.
    rewrite repeat_length.
    unfold shl_ulong in *.
    pose proof (wrap_ulong_range (Z.shiftl (PAGE_SIZE k) (order dptr mod 64))). lia.
Qed.

Lemma length_copy_in bs q n buf :
  0 <= q -> 0 <= n -> q + n <= Z.of_nat (length bs) ->
  length (copy_in bs q n buf) = length bs.
Proof.
  intros Hq Hn Hb. unfold copy_in.
  rewrite !length_app, repeat_length, length_skipn.
  rewrite !length_firstn. lia.
Qed.

Lemma write_array_fits e q qs dptr :
  kmalloc_array e = true -> 0 < qs -> array_fits q qs (data dptr) ->
  exists arr, write_array e qs dptr = Some arr /\ array_fits q qs (Some arr).
Proof.
  intros Hk Hq Ha. unfold write_array. destruct (data dptr) as [arr|].
  - exists arr. auto.
  - rewrite Hk. destruct (Z.leb_spec 0 qs); [|lia]. simpl.
    eexists. split; [reflexivity|]. intros arr E. inv E. split.
    + rewrite repeat_length. lia.
    + intros s b Hs. pose proof (slot_repeat_none (Z.to_nat qs) s) as Hn.
      rewrite Hs in Hn. discriminate.
Qed.

(** On a device that fits, a write call that gets the lock and its memory
    and whose user buffer is readable goes through. *)
Lemma write_call_succeeds k v g e dev buf count f_pos :
  let q := quantum_of k v dev in
  let qs := qset dev in
  let c := Z.min count (q - q_pos (translate q qs f_pos)) in
  config_ok q qs -> dev_fits k v g dev ->
  lock_interrupted e = false -> kmalloc_item e = true ->
  kmalloc_array e = true -> alloc_addr e <> 0 ->
  0 <= f_pos -> 0 <= count <= Z.of_nat (length buf) -> f_pos + count < 2 ^ 63 ->
  exists dev',
    scull_write k v g e dev buf count f_pos = (Ret c, dev', f_pos + c) /\
    dev_fits k v g dev'.
Proof.
  intros q qs c Hc [Hfit Hfit0] Hl Hki Hka Haddr Hf Hcnt Hb.
  destruct (config_itemsize _ _ Hc) as [Ei Hi].
  destruct (config_bounds _ _ Hc) as [Hq Hqs].
  set (p := translate q qs f_pos) in *.
  destruct (translate_low q qs f_pos Hc Hf) as (_ & _ & Hs & Ho). fold p in Hs, Ho.
  assert (Hcr : 0 <= c <= count /\ q_pos p + c <= q) by (unfold c; lia).
  destruct (follow_succeeds (follow_steps (item p)) dev) as (dev1 & dptr & Ef).
  pose proof (follow_reaches _ _ _ _ _ Ef) as Hat.
  assert (Hfit1 : all_items (item_fits k v g q qs) dev1).
  { refine (all_items_follow _ _ _ _ _ _ _ Hfit Ef).
    split; [intros a E; discriminate E | exact Hfit0]. }
  destruct (Hfit1 _ _ Hat) as [Harr Halloc].
  destruct (write_array_fits e q qs dptr Hka (proj1 Hqs) Harr) as (arr & Ea & Hafit).
  destruct (Hafit arr eq_refl) as [Hlen Hblocks].
  destruct (slot_in_range arr (s_pos p)) as [old Es]; [lia|].
  assert (Hb' : exists b, write_block k v g e dptr old = Alloc_ok b /\
                          q <= Z.of_nat (length (bytes b))).
  { destruct old as [b|]; simpl.
    - exists b. split; [reflexivity|]. apply (Hblocks _ _ Es).
    - apply alloc_quantum_fits; assumption. }
  destruct Hb' as (b & Eb & Hblen).
  assert (Eib : in_bounds (bytes b) (q_pos p) c = true).
  { unfold in_bounds. destruct (c =? 0); [reflexivity|]. cbn [orb].
    rewrite !andb_true_iff. repeat split; apply Z.leb_le; lia. }
  eexists. split.
  - unfold scull_write. fold q qs p. rewrite Hl, Ei, Hki.
    destruct (Z.eqb_spec (q * qs) 0) as [?|_]; [lia|].
    rewrite Ef, Ea, Es, Eb. rewrite (clamp_min q (q_pos p) count Hq Ho). fold c.
    rewrite Eib. destruct (Z.ltb_spec (Z.of_nat (length buf)) c) as [?|_]; [lia|].
    rewrite !wrap_long_id by lia. reflexivity.
  - match goal with
    | |- dev_fits _ _ _ (set_size _ ?sz) =>
        change (dev_fits k v g
                  (set_size
                     (upd_item dev1 (follow_steps (item p))
                        (fun d => set_data d (Some
                           (set_nth arr (Z.to_nat (s_pos p))
                              (Some (mk_block (baddr b)
                                       (copy_in (bytes b) (q_pos p) c buf)))))))
                     sz))
    end.
    pose proof (same_head_store dev dev1 (follow_steps (item p))
                  (Some (set_nth arr (Z.to_nat (s_pos p))
                     (Some (mk_block (baddr b) (copy_in (bytes b) (q_pos p) c buf)))))
                  (same_head_follow _ _ _ _ _ Ef)) as (_ & Eq & Eo & Eqs & _).
    unfold dev_fits.
    rewrite (quantum_of_same k v dev (set_size _ _)) by (simpl; assumption).
    replace (qset (set_size _ _)) with qs by (simpl; symmetry; assumption).
    fold q. split; [|exact Hfit0].
    apply all_items_set_size. apply (all_items_store _ _ _ _ dptr Hfit1 Hat).
    split; [|exact Halloc].
    intros arr' E. injection E as <-. split.
    + rewrite length_set_nth. exact Hlen.
    + intros s b2 Hs2. destruct (Z.eq_dec s (s_pos p)) as [->|Hne].
      * rewrite (slot_set_nth_eq _ _ _ _ Es) in Hs2.
        injection Hs2 as <-.
        change (q <= Z.of_nat (length (copy_in (bytes b) (q_pos p) c buf))).
        rewrite length_copy_in; lia.
      * rewrite (slot_set_nth_ne arr (s_pos p) s) in Hs2 by lia.
        apply (Hblocks _ _ Hs2).
Qed.

(** On a device that fits, the write loop gets the whole buffer stored. *)
Lemma write_all_succeeds k v g fuel : forall es dev buf f_pos,
  config_ok (quantum_of k v dev) (qset dev) -> dev_fits k v g dev ->
  (forall i, env_ok (es i) = true) ->
  0 <= f_pos -> f_pos + Z.of_nat (length buf) < 2 ^ 63 ->
  (length buf <= fuel)%nat ->
  exists dev',
    write_all fuel k v g es dev buf f_pos
    = Some (dev', f_pos + Z.of_nat (length buf)) /\
    dev_fits k v g dev'.
Proof.
  induction fuel as [|fuel IH]; intros es dev buf f_pos Hc Hfit He Hf Hb Hfuel.
  - destruct buf; [|simpl in Hfuel; lia]. exists dev. simpl.
    rewrite Z.add_0_r. auto.
  - assert (Hcase : buf = [] \/ buf <> [])
      by (destruct buf; [left | right]; congruence).
    destruct Hcase as [->|Hne].
    { exists dev. simpl. rewrite Z.add_0_r. auto. }
    assert (Hlen : 0 < Z.of_nat (length buf))
      by (destruct buf; [congruence | simpl; lia]).
    rewrite write_all_step by exact Hne.
    destruct (env_ok_spec _ (He O)) as (Hl & Hki & Hka & Ha).
    set (c := Z.min (Z.of_nat (length buf))
                (quantum_of k v dev
                 - q_pos (translate (quantum_of k v dev) (qset dev) f_pos))).
    destruct (write_call_succeeds k v g (es O) dev buf (Z.of_nat (length buf)) f_pos
                Hc Hfit Hl Hki Hka Ha Hf) as (d1 & Ew & Hfit1); [lia | lia |].
    fold c in Ew. rewrite Ew.
    destruct (config_bounds _ _ Hc) as [Hq _].
    destruct (translate_low _ _ f_pos Hc Hf) as (_ & _ & _ & Ho).
    assert (Hcr : 0 < c <= Z.of_nat (length buf)) by (unfold c; lia).
    destruct (Z.ltb_spec 0 c) as [_|?]; [|lia].
    destruct (write_frame _ _ _ _ _ _ _ _ _ _ _ Ew) as ((_ & Eq & Eo & Eqs) & _).
    destruct (IH (fun i => es (S i)) d1 (skipn (Z.to_nat c) buf) (f_pos + c))
      as (dev' & Ew' & Hfit').
    + rewrite (quantum_of_same k v _ _ Eq Eo), Eqs. exact Hc.
    + exact Hfit1.
    + intros i. apply He.
    + lia.
    + rewrite length_skipn. lia.
    + rewrite length_skipn. lia.
    + exists dev'. split; [|exact Hfit'].
      rewrite Ew'. rewrite length_skipn. do 2 f_equal. lia.
Qed.

Lemma fresh_dev_fits k v g qu od qs :
  alloc_fits k v g (quantum_of k v (fresh_dev qu od qs)) od = true ->
  alloc_fits k v g (quantum_of k v (fresh_dev qu od qs)) 0 = true ->
  dev_fits k v g (fresh_dev qu od qs).
Proof.
  intros H1 H0. split; [|exact H0].
  intros [|n] d Hd; simpl in Hd; [|discriminate].
  inv Hd. split; [|exact H1]. intros arr E. discriminate E.
Qed.

(** Write, then read, through the loops. *)
Lemma round_trip k v g es_w es_r dev bs o fuel_w fuel_r dev' pos' :
  config_ok (quantum_of k v dev) (qset dev) -> 0 <= o ->
  o + Z.of_nat (length bs) <= 2 ^ 31 * (quantum_of k v dev * qset dev) ->
  write_all fuel_w k v g es_w dev bs o = Some (dev', pos') ->
  (forall i, lock_interrupted (es_r i) = false) ->
  (length bs <= fuel_r)%nat ->
  read_all fuel_r k v es_r dev' (Z.of_nat (length bs)) o
  = Some (bs, dev', o + Z.of_nat (length bs)) /\
  (bs <> [] -> size dev' = Z.max (size dev) (o + Z.of_nat (length bs))).
Proof.
  intros Hc Ho Hb Hw Hl Hfuel.
  destruct (write_all_bytes k v g fuel_w es_w dev bs o dev' pos' Hc Ho Hb Hw)
    as (Ep & Eq & Eqs & _ & Hsz & Hst & _).
  subst pos'. split; [|exact Hsz].
  apply read_all_bytes; rewrite ?Eq, ?Eqs; auto.
  intros Hne. rewrite (Hsz Hne). lia.
Qed.

(** On a device that fits, with the lock and the memory granted, the write
    loop stores any bytes that end below [2^31 * quantum * qset] and the
    read loop returns them. *)
Lemma round_trip_on_fitting_device k v g es_w es_r dev bs o :
  config_ok (quantum_of k v dev) (qset dev) -> dev_fits k v g dev ->
  (forall i, env_ok (es_w i) = true) ->
  (forall i, lock_interrupted (es_r i) = false) ->
  0 <= o ->
  o + Z.of_nat (length bs) <= 2 ^ 31 * (quantum_of k v dev * qset dev) ->
  exists dev',
    write_all (length bs) k v g es_w dev bs o
    = Some (dev', o + Z.of_nat (length bs)) /\
    read_all (length bs) k v es_r dev' (Z.of_nat (length bs)) o
    = Some (bs, dev', o + Z.of_nat (length bs)) /\
    (bs <> [] -> size dev' = Z.max (size dev) (o + Z.of_nat (length bs))).
Proof.
  intros Hc Hfit Hew Her Ho Hb.
  pose proof (stored_config_bound _ _ Hc) as Hbig.
  destruct (write_all_succeeds k v g (length bs) es_w dev bs o Hc Hfit Hew Ho)
    as (dev' & Hw & _); [lia | apply Nat.le_refl |].
  exists dev'. split; [exact Hw|].
  apply (round_trip k v g es_w es_r dev bs o (length bs) (length bs) dev' _
           Hc Ho Hb Hw Her (Nat.le_refl _)).
Qed.

(** Scenario A of the specification: blocks of 4096 bytes, 4 slots per
    list item, a new device of either driver; any 5000 bytes written at
    offset 0 are read back from offset 0 and the size is 5000. *)
Lemma scenario_A v bs es_w es_r :
  length bs = 5000%nat ->
  (forall i, env_ok (es_w i) = true) ->
  (forall i, lock_interrupted (es_r i) = false) ->
  exists dev',
    write_all 5000 demo_kernel v scenario_params es_w (fresh_dev 4096 0 4) bs 0
    = Some (dev', 5000) /\
    read_all 5000 demo_kernel v es_r dev' 5000 0 = Some (bs, dev', 5000) /\
    size dev' = 5000.
Proof.
  intros Hlen Hew Her.
  set (dev := fresh_dev 4096 0 4).
  assert (EL : Z.of_nat (length bs) = 5000) by (rewrite Hlen; reflexivity).
  assert (Eq : quantum_of demo_kernel v dev = 4096) by (destruct v; reflexivity).
  assert (Eqs : qset dev = 4) by reflexivity.
  assert (Hc : config_ok (quantum_of demo_kernel v dev) (qset dev)).
  { rewrite Eq, Eqs. unfold config_ok. lia. }
  assert (Hfit : dev_fits demo_kernel v scenario_params dev).
  { apply fresh_dev_fits; destruct v; reflexivity. }
  destruct (round_trip_on_fitting_device demo_kernel v scenario_params es_w es_r
              dev bs 0 Hc Hfit Hew Her) as (dev' & Hw & Hr & Hs);
    [lia | rewrite Eq, Eqs, EL; lia |].
  rewrite EL, Hlen in Hw, Hr. rewrite EL in Hs. rewrite Z.add_0_l in Hw, Hr, Hs.
  exists dev'. split; [exact Hw|]. split; [exact Hr|].
  rewrite Hs; [reflexivity|]. intros E. rewrite E in Hlen. discriminate Hlen.
Qed.

(** C6 (bytes written at an offset through the write loop are the bytes
    the read loop returns from that offset) fails on scullv with blocks of
    more than one page.  The device has order 1 (blocks of 8192 bytes) and
    one slot per list item; the lock and all memory are granted.  Writing
    8192 bytes at offset 8192 lands in the second list item, whose block is
    allocated with the order field of that (zeroed) item: 4096 bytes.  The
    copy of 8192 bytes runs over its end, so the write loop stores nothing,
    where the same call at offset 0 (whose list item is the device itself)
    stores all 8192 bytes.  Where blocks are as large as the quantum the
    property holds: [round_trip_on_fitting_device], [scenario_A]. *)
Theorem round_trip_fails_on_scullv_order_one :
  quantum_of demo_kernel Scullv multipage_dev = 8192 /\
  (exists dev',
     scull_write demo_kernel Scullv scenario_params demo_env multipage_dev
       (repeat x01 (Z.to_nat 8192)) 8192 8192 = (Oops, dev', 8192) /\
     block_at dev' 1 0 = Some (mk_block 4096 (repeat x00 4096))) /\
  write_all 2 demo_kernel Scullv scenario_params (fun _ => demo_env) multipage_dev
    (repeat x01 (Z.to_nat 8192)) 8192 = None /\
  fst (fst (scull_write demo_kernel Scullv scenario_params demo_env multipage_dev
              (repeat x01 (Z.to_nat 8192)) 8192 0)) = Ret 8192.
Proof.
  split; [reflexivity|]. split; [|split].
  - eexists. split; vm_compute; reflexivity.
  - vm_compute. reflexivity.
  - vm_compute. reflexivity.
Qed.

(** ** Well-formedness is kept *)

Lemma items_item_at : forall dev d,
  In d (items dev) -> exists n, item_at dev n = Some d.
Proof.
  induction dev as [dt vm qu od q sz|dt d0 vm qu od q sz IH] using scull_dev_induction;
    intros d Hin; simpl in Hin.
  - destruct Hin as [<-|[]]. now exists O.
  - destruct Hin as [<-|Hin]; [now exists O|].
    destruct (IH d Hin) as [n Hn]. now exists (S n).
Qed.

Lemma arrays_ok_iff dev :
  arrays_ok dev = true <-> all_items (width_ok (qset dev)) dev.
Proof.
  unfold arrays_ok, all_items, width_ok. rewrite forallb_forall. split.
  - intros H n d Hd arr Ea. specialize (H d (item_at_items _ _ _ Hd)).
    unfold item_ok in H. rewrite Ea in H. lia.
  - intros H d Hin. destruct (items_item_at _ _ Hin) as [n Hn].
    unfold item_ok. destruct (data d) as [arr|] eqn:Ea; [|reflexivity].
    apply Z.eqb_eq. apply (H n d Hn arr Ea).
Qed.

Lemma all_items_set_vmas P dev x : all_items P dev -> all_items P (set_vmas dev x).
Proof.
  intros Ha [|m] d Hd; simpl in Hd.
  - inv Hd. apply (Ha O dev eq_refl).
  - apply (Ha (S m) d). exact Hd.
Qed.

Lemma write_array_width e qs dptr arr :
  width_ok qs (data dptr) (order dptr) ->
  write_array e qs dptr = Some arr -> Z.of_nat (length arr) = qs.
Proof.
  unfold write_array, width_ok. intros Hw H. destruct (data dptr) as [a|].
  - inv H. auto.
  - destruct (kmalloc_array e); simpl in H; [|discriminate].
    destruct (Z.leb_spec 0 qs); inv H. rewrite repeat_length. lia.
Qed.

(** Every exit of a write leaves the arrays as wide as configured. *)
Lemma write_keeps_arrays_ok k v g e dev buf count f_pos r dev' pos' :
  arrays_ok dev = true ->
  scull_write k v g e dev buf count f_pos = (r, dev', pos') ->
  arrays_ok dev' = true.
Proof.
  intros Hw H. destruct (write_frame _ _ _ _ _ _ _ _ _ _ _ H) as ((_ & _ & _ & Eqs) & _).
  apply arrays_ok_iff. rewrite Eqs. apply arrays_ok_iff in Hw.
  assert (H0 : width_ok (qset dev) None 0) by (intros a E; discriminate E).
  revert r dev' pos' H Eqs.
  write_cases; intros r dev' pos' H Eqs; injection H as <- <- <-; try exact Hw.
  all: pose proof (all_items_follow _ _ _ _ _ _ H0 Hw Ef) as Hw1.
  all: pose proof (follow_reaches _ _ _ _ _ Ef) as Hat.
  all: try exact Hw1.
  all: pose proof (write_array_width _ _ _ _ (Hw1 _ _ Hat) Ea) as Hlen.
  all: try apply all_items_set_size.
  all: apply (all_items_store _ _ _ _ dptr Hw1 Hat).
  all: intros a E; injection E as <-; rewrite ?length_set_nth; exact Hlen.
Qed.

Lemma read_keeps_arrays_ok k v e dev buf_len count f_pos r dev1 pos out :
  arrays_ok dev = true ->
  scull_read k v e dev buf_len count f_pos = (r, dev1, pos, out) ->
  arrays_ok dev1 = true.
Proof.
  intros Hw H. pose proof (read_device_cases k v e dev buf_len count f_pos) as Hc.
  rewrite H in Hc. simpl in Hc. destruct Hc as [->|[dptr Ef]]; [exact Hw|].
  destruct (follow_head _ _ _ _ _ Ef) as (_ & _ & _ & _ & Eqs & _).
  apply arrays_ok_iff. rewrite Eqs. apply arrays_ok_iff in Hw.
  refine (all_items_follow _ _ _ _ _ _ _ Hw Ef). intros a E. discriminate E.
Qed.

(** Well-formedness holds on a new device and after every call. *)
Lemma step_keeps_arrays_ok k v g st o :
  arrays_ok (st_dev st) = true -> arrays_ok (st_dev (step k v g st o)) = true.
Proof.
  intros Hw. destruct o as [e bl c|e buf c|off wh|m| |m a s p]; simpl.
  - destruct (scull_read k v e (st_dev st) bl c (st_pos st)) as [[[r d] pos] out] eqn:E.
    apply (read_keeps_arrays_ok _ _ _ _ _ _ _ _ _ _ _ Hw E).
  - destruct (scull_write k v g e (st_dev st) buf c (st_pos st)) as [[r d] pos] eqn:E.
    apply (write_keeps_arrays_ok _ _ _ _ _ _ _ _ _ _ _ Hw E).
  - exact Hw.
  - apply arrays_ok_iff in Hw.
    destruct m; simpl; [destruct (negb _)|]; simpl; apply arrays_ok_iff;
      try exact Hw; apply all_items_set_vmas; exact Hw.
  - apply arrays_ok_iff. apply arrays_ok_iff in Hw.
    apply all_items_set_vmas. exact Hw.
  - destruct (scull_vma_nopage k m (st_dev st) (st_refs st) a s p) as [[r pg] refs].
    exact Hw.
Qed.

Lemma fresh_dev_arrays_ok qu od qs : arrays_ok (fresh_dev qu od qs) = true.
Proof. reflexivity. Qed.

Lemma trimmed_arrays_ok v g dev : arrays_ok (trimmed v g dev) = true.
Proof. destruct v; reflexivity. Qed.
(** * Further properties of the entry points *)

(** ** One call of read *)



(** ** Failing writes *)

(** X2: a write that returns an error leaves the file position and the
    size as they were.  [-ERESTARTSYS] (the lock wait was interrupted)
    leaves the whole device; [-ENOMEM] leaves every block as it was;
    [-EFAULT] means the user buffer held fewer readable bytes than the
    count, and leaves every block but the one addressed. *)
Theorem write_failure_keeps_data
    (k : kernel) (v : driver) (g : params) (e : env) (dev : scull_dev)
    (buf : list byte) (count f_pos x : Z) (dev' : scull_dev) (pos' : Z) :
  0 <= count < 2 ^ 63 ->
  scull_write k v g e dev buf count f_pos = (Ret x, dev', pos') -> x < 0 ->
  let p := translate (quantum_of k v dev) (qset dev) f_pos in
  pos' = f_pos /\ size dev' = size dev /\
  ((x = - ERESTARTSYS /\ lock_interrupted e = true /\ dev' = dev) \/
   (x = - ENOMEM /\ forall m s, block_at dev' m s = block_at dev m s) \/
   (x = - EFAULT /\ Z.of_nat (length buf) < count /\
    forall m s, (m, s) <> (follow_steps (item p), s_pos p) ->
      block_at dev' m s = block_at dev m s)).
Proof.
  intros Hc H Hx p.
  destruct (write_frame _ _ _ _ _ _ _ _ _ _ _ H) as (_ & _ & Hpos).
  pose proof (clamp_le (quantum_of k v dev) (q_pos p) count (proj1 Hc)) as Hcl.
  destruct Hpos as [(Ep & Esz & _)|(Hr & _)];
    [|assert (Ex : x = wrap_long (clamp (quantum_of k v dev) (q_pos p) count))
        by (unfold p; congruence);
      rewrite wrap_long_id in Ex by lia; lia].
  split; [exact Ep|]. split; [exact Esz|]. clear Ep Esz.
  subst p. revert x dev' pos' H Hx. write_cases; intros x dev' pos' H Hx;
    try discriminate H; injection H as <- <- <-.
  all: set (p := translate (quantum_of k v dev) (qset dev) f_pos) in *.
  all: set (n := follow_steps (item p)) in *.
  - (* interrupted *) left. auto.
  - (* no block *)
    right. left. split; [reflexivity|].
    intros m s. apply (store_array_block_at _ _ _ _ _ _ _ _ Ef Ea).
  - (* the user copy faults *)
    right. right. split; [reflexivity|]. apply Z.ltb_lt in Eu. split; [lia|].
    intros m s Hne. rewrite (store_block_at _ _ _ _ _ _ _ _ _ _ _ Ef Ea Es).
    destruct (Nat.eqb_spec m n) as [->|_]; [|reflexivity].
    destruct (Z.eqb_spec s (s_pos p)) as [->|_]; [congruence|reflexivity].
  - (* through: not an error *)
    match type of Hx with
    | wrap_long (clamp ?a ?b ?c) < 0 => pose proof (clamp_le a b c (proj1 Hc)) as Hcl2
    end.
    rewrite wrap_long_id in Hx by lia. lia.
  - (* no array *)
    right. left. split; [reflexivity|].
    intros m s. unfold block_at. now rewrite (follow_data_at _ _ _ _ _ m Ef).
Qed.

Lemma write_failure_keeps_data_witness :
  snd (scull_write demo_kernel Scullc small_params (small_env 4096)
         (fresh_dev 4 0 2) [x01] 3 0) = 0 /\
  size (snd (fst (scull_write demo_kernel Scullc small_params (small_env 4096)
                    (fresh_dev 4 0 2) [x01] 3 0))) = size (fresh_dev 4 0 2).
Proof.
  destruct (write_failure_keeps_data demo_kernel Scullc small_params
              (small_env 4096) (fresh_dev 4 0 2) [x01] 3 0 (- EFAULT)
              (snd (fst (scull_write demo_kernel Scullc small_params
                           (small_env 4096) (fresh_dev 4 0 2) [x01] 3 0))) 0)
    as (Hp & Hs & _).
  - lia.
  - reflexivity.
  - unfold EFAULT. lia.
  - split; [exact Hp | exact Hs].
Defined.

(** ** Writing and reading back *)



(** ** Seeking *)

(** X4: llseek computes the target [off] (whence 0), [f_pos + off]
    (whence 1) or [size + off] (whence 2).  A target that fits a [long]
    and is not negative becomes the file position and is returned; a
    negative target, a target past the largest [long], or any other whence
    returns [-EINVAL] and leaves the file position. *)
Theorem llseek_moves_or_refuses (dev : scull_dev) (f_pos off whence : Z) :
  - 2 ^ 63 <= off < 2 ^ 63 -> 0 <= f_pos < 2 ^ 63 -> 0 <= size dev < 2 ^ 63 ->
  let target := if whence =? 0 then off
                else if whence =? 1 then f_pos + off else size dev + off in
  (0 <= whence <= 2 -> 0 <= target < 2 ^ 63 ->
   scull_llseek dev f_pos off whence = (target, target)) /\
  (whence < 0 \/ 2 < whence \/ target < 0 \/ 2 ^ 63 <= target ->
   scull_llseek dev f_pos off whence = (- EINVAL, f_pos)).
Proof.
  intros Ho Hf Hs target. unfold scull_llseek. subst target.
  destruct (Z.eqb_spec whence 0) as [->|H0].
  { split; intros H.
    - intros Ht. destruct (Z.ltb_spec off 0); [lia|reflexivity].
    - destruct (Z.ltb_spec off 0); [reflexivity|lia]. }
  destruct (Z.eqb_spec whence 1) as [->|H1].
  { assert (E : (f_pos + off < 2 ^ 63 /\ wrap_long (f_pos + off) = f_pos + off) \/
                (2 ^ 63 <= f_pos + off /\ wrap_long (f_pos + off) < 0)).
    { destruct (Z_lt_le_dec (f_pos + off) (2 ^ 63)).
      - left. split; [lia|]. apply wrap_long_id. lia.
      - right. split; [lia|]. unfold wrap_long.
        replace (f_pos + off + 2 ^ 63) with ((f_pos + off - 2 ^ 63) + 1 * 2 ^ 64) by lia.
        rewrite Z.mod_add, Z.mod_small by lia. lia. }
    split.
    - intros _ Ht. destruct E as [[_ E]|[? _]]; [|lia]. rewrite E.
      destruct (Z.ltb_spec (f_pos + off) 0); [lia|reflexivity].
    - intros H. destruct E as [[? E]|[_ E]].
      + rewrite E. destruct (Z.ltb_spec (f_pos + off) 0); [reflexivity|lia].
      + destruct (Z.ltb_spec (wrap_long (f_pos + off)) 0); [reflexivity|lia]. }
  destruct (Z.eqb_spec whence 2) as [->|H2].
  { assert (E : (size dev + off < 2 ^ 63 /\
                 wrap_long (wrap_ulong (size dev + off)) = size dev + off) \/
                (2 ^ 63 <= size dev + off /\
                 wrap_long (wrap_ulong (size dev + off)) < 0)).
    { unfold wrap_long, wrap_ulong.
      destruct (Z_lt_le_dec (size dev + off) 0).
      - left. split; [lia|].
        replace (size dev + off) with ((size dev + off + 2 ^ 64) + (-1) * 2 ^ 64) by lia.
        rewrite Z.mod_add, (Z.mod_small (size dev + off + 2 ^ 64)) by lia.
        replace (size dev + off + 2 ^ 64 + 2 ^ 63)
          with ((size dev + off + 2 ^ 63) + 1 * 2 ^ 64) by lia.
        rewrite Z.mod_add, Z.mod_small by lia. lia.
      - rewrite (Z.mod_small (size dev + off)) by lia.
        destruct (Z_lt_le_dec (size dev + off) (2 ^ 63)).
        + left. split; [lia|]. rewrite Z.mod_small by lia. lia.
        + right. split; [lia|].
          replace (size dev + off + 2 ^ 63)
            with ((size dev + off - 2 ^ 63) + 1 * 2 ^ 64) by lia.
          rewrite Z.mod_add, Z.mod_small by lia. lia. }
    split.
    - intros _ Ht. destruct E as [[_ E]|[? _]]; [|lia]. rewrite E.
      destruct (Z.ltb_spec (size dev + off) 0); [lia|reflexivity].
    - intros H. destruct E as [[? E]|[_ E]].
      + rewrite E. destruct (Z.ltb_spec (size dev + off) 0); [reflexivity|lia].
      + destruct (Z.ltb_spec (wrap_long (wrap_ulong (size dev + off))) 0);
          [reflexivity|lia]. }
  split; [lia|]. intros _. reflexivity.
Qed.

Lemma llseek_moves_or_refuses_witness :
  scull_llseek small_full_dev 3 0 2 = (8, 8) /\
  scull_llseek small_full_dev 3 (- 5) 1 = (- EINVAL, 3).
Proof.
  assert (Es : size small_full_dev = 8) by reflexivity.
  destruct (llseek_moves_or_refuses small_full_dev 3 0 2) as [H1 _];
    [lia | lia | rewrite Es; lia |].
  destruct (llseek_moves_or_refuses small_full_dev 3 (- 5) 1) as [_ H2];
    [lia | lia | rewrite Es; lia |].
  split.
  - apply H1; [lia|]. rewrite Es. simpl. lia.
  - apply H2. simpl. lia.
Defined.

(** X5: seek to an offset, write there, seek back by the count written and
    read that many bytes: the second seek lands on the offset again and
    the read returns the bytes just written, leaving the file position
    where the write left it. *)
Theorem seek_back_and_read_what_was_written
    (k : kernel) (v : driver) (g : params) (e_w e_r : env) (dev : scull_dev)
    (buf : list byte) (count f0 o n : Z) (dev' : scull_dev) (pos' : Z) :
  config_ok (quantum_of k v dev) (qset dev) ->
  0 <= o -> 0 < count ->
  o + count <= 2 ^ 31 * (quantum_of k v dev * qset dev) ->
  lock_interrupted e_r = false ->
  scull_write k v g e_w dev buf count (snd (scull_llseek dev f0 o 0))
  = (Ret n, dev', pos') ->
  0 <= n ->
  scull_llseek dev f0 o 0 = (o, o) /\
  scull_llseek dev' pos' (- n) 1 = (o, o) /\
  scull_read k v e_r dev' n n o = (Ret n, dev', pos', firstn (Z.to_nat n) buf).
Proof.
  intros Hc Ho Hcnt Hb Hl H Hn.
  pose proof (stored_config_bound _ _ Hc) as Hbig.
  assert (E0 : scull_llseek dev f0 o 0 = (o, o)).
  { unfold scull_llseek. simpl. destruct (Z.ltb_spec o 0); [lia|reflexivity]. }
  rewrite E0 in H. simpl in H. split; [exact E0|].
  destruct (write_call_effect k v g e_w dev buf count o n dev' pos' Hc Ho Hcnt
              ltac:(lia) H Hn)
    as (En & Hpos & Hroom & Ep & Esz & _ & (ob & b' & _ & _ & _ & Hbuf & _)).
  destruct (write_call_bytes k v g e_w dev buf count o n dev' pos' Hc Ho Hcnt Hb H Hn)
    as [Hst _].
  destruct (write_frame _ _ _ _ _ _ _ _ _ _ _ H) as ((_ & Eq & Eo & Eqs) & _ & _).
  pose proof (quantum_of_same k v dev dev' Eq Eo) as Eqq.
  split.
  - unfold scull_llseek. simpl. rewrite Ep.
    replace (o + n + - n) with o by lia. rewrite wrap_long_id by lia.
    destruct (Z.ltb_spec o 0); [lia|reflexivity].
  - assert (Hm : Z.min n (quantum_of k v dev - q_pos (translate (quantum_of k v dev)
                                                   (qset dev) o)) = n) by lia.
    destruct (read_call_bytes k v e_r dev' n n o buf) as [_ Er].
    + rewrite Eqq, Eqs. exact Hc.
    + exact Hl.
    + exact Ho.
    + exact Hpos.
    + lia.
    + rewrite Eqq, Eqs. lia.
    + lia.
    + rewrite Eqq, Eqs, Hm. exact Hst.
    + rewrite Eqq, Eqs, Hm. exact Hbuf.
    + rewrite Eqq, Eqs, Hm in Er. rewrite Ep. exact Er.
Qed.

Lemma seek_back_and_read_what_was_written_witness :
  exists dev',
    scull_read demo_kernel Scullc (small_env 0) dev' 2 2 2
    = (Ret 2, dev', 4, [x01; x02]).
Proof.
  eexists.
  refine (proj2 (proj2
    (seek_back_and_read_what_was_written demo_kernel Scullc small_params
       (small_env 4096) (small_env 0) (fresh_dev 4 0 2)
       [x01; x02; x03; x04; x05] 5 7 2 2 _ 4 _ _ _ _ eq_refl eq_refl _))).
  - unfold config_ok. simpl. lia.
  - lia.
  - lia.
  - simpl. lia.
  - lia.
Defined.

(** ** Opening *)

(** X6: an open that is not write-only leaves the device as it is.  A
    write-only open returns [-ERESTARTSYS] without touching the device
    when the lock wait is interrupted; otherwise it returns 0 whatever the
    trim inside it answered: an unmapped device is emptied and takes the
    current parameters, a mapped device keeps all its data. *)
Theorem open_write_only_trims_unless_mapped
    (v : driver) (g : params) (e : env) (dev : scull_dev) :
  scull_open v g e dev false = (Ret 0, dev) /\
  (lock_interrupted e = true ->
   scull_open v g e dev true = (Ret (- ERESTARTSYS), dev)) /\
  (lock_interrupted e = false -> vmas dev <> 0 ->
   scull_open v g e dev true = (Ret 0, dev)) /\
  (lock_interrupted e = false -> vmas dev = 0 -> arrays_ok dev = true ->
   scull_open v g e dev true = (Ret 0, trimmed v g dev) /\
   size (trimmed v g dev) = 0 /\
   forall n s, block_at (trimmed v g dev) n s = None).
Proof.
  split; [reflexivity|]. split; [|split].
  - intros El. unfold scull_open. now rewrite El.
  - intros El Hv. unfold scull_open. now rewrite El, (trim_busy v g dev Hv).
  - intros El Hv Hw. unfold scull_open. rewrite El.
    destruct (trim_unmapped v g dev Hv Hw) as (fr & -> & _).
    split; [reflexivity|]. split; [destruct v; reflexivity|].
    intros n s. unfold block_at, data_at.
    destruct v, n; reflexivity.
Qed.

Lemma open_write_only_trims_unless_mapped_witness :
  scull_open Scullc small_params (small_env 0) (set_vmas small_full_dev 1) true
  = (Ret 0, set_vmas small_full_dev 1) /\
  scull_open Scullc small_params (small_env 0) small_full_dev true
  = (Ret 0, trimmed Scullc small_params small_full_dev).
Proof.
  split.
  - apply (proj1 (proj2 (proj2
      (open_write_only_trims_unless_mapped Scullc small_params (small_env 0)
         (set_vmas small_full_dev 1))))); [reflexivity | discriminate].
  - apply (proj2 (proj2 (proj2
      (open_write_only_trims_unless_mapped Scullc small_params (small_env 0)
         small_full_dev)))); reflexivity.
Defined.

(** ** Counting mappings *)

Lemma set_vmas_same dev : set_vmas dev (vmas dev) = dev.
Proof. now destruct dev. Qed.

Lemma vmas_after_opens (a : nat) : forall dev,
  - 2 ^ 31 <= vmas dev -> vmas dev + Z.of_nat a < 2 ^ 31 ->
  Nat.iter a scull_vma_open dev = set_vmas dev (vmas dev + Z.of_nat a).
Proof.
  induction a as [|a IH]; intros dev Hl Hu.
  - simpl. now rewrite Z.add_0_r, set_vmas_same.
  - change (Nat.iter (S a) scull_vma_open dev)
      with (scull_vma_open (Nat.iter a scull_vma_open dev)).
    rewrite IH by lia. unfold scull_vma_open. rewrite Nat2Z.inj_succ in *.
    assert (Hw : wrap_int (vmas dev + Z.of_nat a + 1) = vmas dev + Z.succ (Z.of_nat a))
      by (rewrite wrap_int_id; lia).
    destruct dev; unfold set_vmas; simpl. simpl in Hw. now rewrite Hw.
Qed.

Lemma vmas_after_closes (b : nat) : forall dev,
  - 2 ^ 31 <= vmas dev - Z.of_nat b -> vmas dev < 2 ^ 31 ->
  Nat.iter b scull_vma_close dev = set_vmas dev (vmas dev - Z.of_nat b).
Proof.
  induction b as [|b IH]; intros dev Hl Hu.
  - simpl. now rewrite Z.sub_0_r, set_vmas_same.
  - change (Nat.iter (S b) scull_vma_close dev)
      with (scull_vma_close (Nat.iter b scull_vma_close dev)).
    rewrite IH by lia. unfold scull_vma_close. rewrite Nat2Z.inj_succ in *.
    assert (Hw : wrap_int (vmas dev - Z.of_nat b - 1) = vmas dev - Z.succ (Z.of_nat b))
      by (rewrite wrap_int_id; lia).
    destruct dev; unfold set_vmas; simpl. simpl in Hw. now rewrite Hw.
Qed.

(** X7: [a] calls of vma_open and [b] calls of vma_close on an unmapped
    device leave the mapping count [a - b] and nothing else changed.
    While the two numbers differ (also when there were more closes than
    opens) trim answers [-EBUSY] and frees nothing; once they are equal
    the device is the one before the first open. *)
Theorem mapping_count_balance
    (v : driver) (g : params) (dev : scull_dev) (a b : nat) :
  vmas dev = 0 -> Z.of_nat a < 2 ^ 31 -> Z.of_nat b < 2 ^ 31 ->
  let dev' := Nat.iter b scull_vma_close (Nat.iter a scull_vma_open dev) in
  dev' = set_vmas dev (Z.of_nat a - Z.of_nat b) /\
  (a <> b -> scull_trim v g dev' = (Ret (- EBUSY), dev', [])) /\
  (a = b -> dev' = dev).
Proof.
  intros Hv Ha Hb dev'.
  assert (E : dev' = set_vmas dev (Z.of_nat a - Z.of_nat b)).
  { unfold dev'. rewrite vmas_after_opens by lia.
    rewrite vmas_after_closes by (destruct dev; simpl in *; lia).
    destruct dev; simpl in *. subst. reflexivity. }
  split; [exact E|]. split.
  - intros Hne. apply trim_busy. rewrite E. destruct dev; simpl. lia.
  - intros ->. rewrite E, Z.sub_diag, <- Hv. apply set_vmas_same.
Qed.

Lemma mapping_count_balance_witness :
  scull_vma_close (scull_vma_close (scull_vma_open (scull_vma_open small_full_dev)))
  = small_full_dev.
Proof.
  apply (proj2 (proj2 (mapping_count_balance Scullc small_params small_full_dev 2 2
                         eq_refl ltac:(simpl; lia) ltac:(simpl; lia)))).
  reflexivity.
Defined.

(** X8: a mapping request on an unmapped device is either refused with
    [-ENODEV] (scullp only, order not 0), the device staying as it is, or
    accepted with 0 and counted.  An accepted mapping changes no block;
    until it is closed a trim answers [-EBUSY] and changes nothing;
    closing it gives the device back as it was before the request. *)
Theorem mapping_protects_data
    (m : mapper) (v : driver) (g : params) (dev : scull_dev)
    (r : Z) (dev1 : scull_dev) :
  vmas dev = 0 -> scull_mmap m dev = (r, dev1) ->
  (r = - ENODEV /\ m = Scullp_map /\ order dev <> 0 /\ dev1 = dev) \/
  (r = 0 /\ (m = Scullp_map -> order dev = 0) /\
   (forall n s, block_at dev1 n s = block_at dev n s) /\
   size dev1 = size dev /\
   scull_trim v g dev1 = (Ret (- EBUSY), dev1, []) /\
   scull_vma_close dev1 = dev).
Proof.
  intros Hv H.
  assert (Hopen : forall n s, block_at (scull_vma_open dev) n s = block_at dev n s).
  { intros n s. unfold block_at, data_at. destruct dev, n; reflexivity. }
  assert (Hclose : scull_vma_close (scull_vma_open dev) = dev).
  { destruct dev; simpl in *. subst. reflexivity. }
  assert (Hbusy : scull_trim v g (scull_vma_open dev)
                  = (Ret (- EBUSY), scull_vma_open dev, [])).
  { apply trim_busy. destruct dev; simpl in *. subst. discriminate. }
  unfold scull_mmap in H. destruct m.
  - destruct (Z.eqb_spec (order dev) 0) as [E0|E0]; simpl in H;
      injection H as <- <-.
    + right. repeat split; auto; now destruct dev.
    + left. auto.
  - injection H as <- <-. right.
    repeat split; auto; try discriminate; now destruct dev.
Qed.

Lemma mapping_protects_data_witness :
  scull_trim Scullv page_params (snd (scullv_mmap one_page_dev))
  = (Ret (- EBUSY), snd (scullv_mmap one_page_dev), []).
Proof.
  destruct (mapping_protects_data Scullv_map Scullv page_params one_page_dev
              0 (snd (scullv_mmap one_page_dev)) eq_refl eq_refl)
    as [(E & _)|(_ & _ & _ & _ & H & _)].
  - discriminate E.
  - exact H.
Defined.

(** ** Following the list *)

Lemma items_cons dev :
  items dev = dev :: match next dev with Some d => items d | None => [] end.
Proof. now destruct dev. Qed.

Lemma set_next_same dev : set_next dev (next dev) = dev.
Proof. now destruct dev. Qed.

Lemma next_set_next dev x : next (set_next dev x) = x.
Proof. reflexivity. Qed.

Lemma item_at_length n : forall dev,
  item_at dev n <> None <-> (n < length (items dev))%nat.
Proof.
  induction n as [|n IH]; intros dev; rewrite items_cons; simpl.
  - split; [lia | discriminate].
  - destruct (next dev) as [d|]; simpl.
    + rewrite IH. lia.
    + split; [congruence | lia].
Qed.

Lemma follow_length ok n : forall dev,
  match scull_follow ok dev n with
  | Some (dev1, dptr) =>
      length (items dev1) = Nat.max (length (items dev)) (S n) /\
      ((length (items dev) <= n)%nat -> ok = true /\ dptr = zero_dev)
  | None => ok = false /\ (length (items dev) <= n)%nat
  end.
Proof.
  induction n as [|n IH]; intros dev.
  - simpl. rewrite (items_cons dev). simpl. split; lia.
  - simpl. rewrite (items_cons dev). destruct (next dev) as [d|] eqn:En.
    + specialize (IH d). destruct (scull_follow ok d n) as [[d' dptr]|].
      * destruct IH as [IH1 IH2]. rewrite (items_cons (set_next dev (Some d'))).
        rewrite next_set_next. simpl length. split; [lia|].
        intros H. apply IH2. lia.
      * destruct IH as [IH1 IH2]. split; [exact IH1 | simpl; lia].
    + destruct ok; [|simpl; split; [reflexivity|lia]].
      specialize (IH zero_dev).
      destruct (scull_follow true zero_dev n) as [[d' dptr]|] eqn:Ef.
      * destruct IH as [IH1 IH2]. rewrite (items_cons (set_next dev (Some d'))).
        rewrite next_set_next. simpl length. simpl length in IH1. split; [lia|].
        intros _. split; [reflexivity|].
        pose proof (follow_reaches _ _ _ _ _ Ef) as Hr.
        assert (Hz : forall m d0, item_at zero_dev m = Some d0 -> d0 = zero_dev)
          by (intros m d0; apply item_at_zero_dev).
        destruct n as [|n].
        -- simpl in Ef. now injection Ef as _ <-.
        -- apply IH2. simpl. lia.
      * destruct IH as [IH1 _]. discriminate IH1.
Qed.

(** X9: following the list for [n] steps either faults or returns item
    [n].  It faults exactly when the list is shorter than [n + 1] items
    and the allocation of a list item fails (the result of [kmalloc] is
    not tested).  When it returns, the list has [max(length, n + 1)]
    items, the head fields and every array are as before, an item that
    was there is returned with the list untouched, and an item that was
    not is a new zeroed one. *)
Theorem follow_extends_or_faults (ok : bool) (dev : scull_dev) (n : nat) :
  match scull_follow ok dev n with
  | Some (dev1, dptr) =>
      item_at dev1 n = Some dptr /\
      length (items dev1) = Nat.max (length (items dev)) (S n) /\
      (forall m, data_at dev1 m = data_at dev m) /\
      same_head dev dev1 /\
      ((n < length (items dev))%nat -> dev1 = dev) /\
      ((length (items dev) <= n)%nat -> ok = true /\ dptr = zero_dev)
  | None => ok = false /\ (length (items dev) <= n)%nat
  end.
Proof.
  pose proof (follow_length ok n dev) as H.
  destruct (scull_follow ok dev n) as [[dev1 dptr]|] eqn:Ef; [|exact H].
  destruct H as [H1 H2].
  split; [exact (follow_reaches _ _ _ _ _ Ef)|].
  split; [exact H1|].
  split; [intros m; exact (follow_data_at _ _ _ _ _ m Ef)|].
  split; [exact (same_head_follow _ _ _ _ _ Ef)|].
  split; [|exact H2].
  intros Hlt. apply item_at_length in Hlt.
  destruct (item_at dev n) as [d|] eqn:Ei; [|congruence].
  rewrite (follow_existing _ _ _ _ Ei) in Ef. now injection Ef as <- _.
Qed.

(** ** New blocks *)

(** A block fresh from the allocator reads as zero over the quantum when
    the allocation is as large as the quantum and, for scullc, the
    [memset] (which clears [scullc_quantum] bytes) covers it. *)
Lemma alloc_quantum_zero k v g e dptr b q :
  alloc_quantum k v g e dptr = Alloc_ok b ->
  alloc_fits k v g q (order dptr) = true ->
  (v = Scullc -> q <= wrap_ulong (scullc_quantum g)) ->
  forall j, 0 <= j < q -> nth_error (bytes b) (Z.to_nat j) = Some x00.
Proof.
  intros Ha Hf Hz j Hj. unfold alloc_quantum in Ha.
  destruct (alloc_addr e =? 0); [discriminate|]. destruct v.
  - specialize (Hz eq_refl).
    destruct (scullc_cache_size g <? wrap_ulong (scullc_quantum g)); [discriminate|].
    injection Ha as <-. simpl.
    rewrite nth_error_app1 by (rewrite repeat_length; lia).
    apply nth_error_repeat. lia.
  - injection Ha as <-. simpl. unfold alloc_fits in Hf. apply Z.leb_le in Hf.
    apply nth_error_repeat. lia.
Qed.

(** X10: when a successful write has to allocate the block of its offset,
    every byte of that block outside the range written reads as zero
    afterwards.  This needs the allocations to be as large as the quantum
    and, on scullc, the module parameter [scullc_quantum] (the length the
    new block is cleared over) to be no smaller than the quantum of the
    device. *)
Theorem new_block_reads_zero_where_unwritten
    (k : kernel) (v : driver) (g : params) (e : env) (dev : scull_dev)
    (buf : list byte) (count f_pos n : Z) (dev' : scull_dev) (pos' : Z) :
  config_ok (quantum_of k v dev) (qset dev) -> dev_fits k v g dev ->
  (v = Scullc -> quantum_of k v dev <= wrap_ulong (scullc_quantum g)) ->
  0 <= f_pos -> 0 < count ->
  f_pos + count <= 2 ^ 31 * (quantum_of k v dev * qset dev) ->
  scull_write k v g e dev buf count f_pos = (Ret n, dev', pos') -> 0 <= n ->
  let q := quantum_of k v dev in
  let p := translate q (qset dev) f_pos in
  block_at dev (follow_steps (item p)) (s_pos p) = None ->
  forall x, f_pos - q_pos p <= x < f_pos - q_pos p + q ->
    x < f_pos \/ f_pos + n <= x ->
    stored q (qset dev) dev' x = Some x00.
Proof.
  intros Hc Hfit Hz Hf Hcnt Hb H Hn q p Hnone x Hx Hout.
  pose proof (stored_config_bound _ _ Hc) as Hbig.
  destruct (write_success_inv _ _ _ _ _ _ _ _ _ _ _ H Hn)
    as (d1 & dp & arr & old & b & _ & Ef & Ea & Es & Eb & Ei & Eu & En & _ & Ed).
  fold q in Hc, Hb, Hbig, Hz, Ef, Ea, Es, Ei, Eu, En, Ed.
  fold p in Ef, Es, Ei, Eu, En, Ed.
  destruct (config_bounds _ _ Hc) as [Hq _].
  destruct (translate_low _ _ f_pos Hc Hf) as (_ & _ & Hs & Ho). fold p in Hs, Ho.
  assert (Hfr : 0 <= f_pos < 2 ^ 31 * (q * qset dev)) by lia.
  destruct (translate_item q (qset dev) f_pos Hc Hfr) as (_ & Hi & _). fold p in Hi.
  pose proof (translate_split q (qset dev) f_pos Hc Hfr) as Esplit. fold p in Esplit.
  rewrite (clamp_min _ _ count Hq Ho) in *.
  set (c := Z.min count (q - q_pos p)) in *.
  assert (Hcr : 0 < c <= count) by (unfold c; lia).
  rewrite wrap_long_id in En by lia. subst n.
  destruct (in_bounds_true _ _ _ Ei) as [_ Hin]; [lia|].
  (* the block is new *)
  pose proof (write_array_blocks _ _ _ _ _ _ _ _ (s_pos p) Ef Ea) as Hw.
  rewrite Es, Hnone in Hw. destruct old as [b0|]; [discriminate|]. clear Hw.
  simpl in Eb.
  (* and large enough *)
  assert (Hal : alloc_fits k v g q (order dp) = true).
  { destruct Hfit as [Hall H0].
    assert (Hall1 : all_items (item_fits k v g q (qset dev)) d1).
    { refine (all_items_follow _ _ _ _ _ _ _ Hall Ef).
      split; [intros a Ha; discriminate Ha | exact H0]. }
    exact (proj2 (Hall1 _ _ (follow_reaches _ _ _ _ _ Ef))). }
  pose proof (alloc_quantum_zero k v g e dp b q Eb Hal Hz) as Hzero.
  (* the byte asked for *)
  set (j := x - (f_pos - q_pos p)).
  assert (Hj : 0 <= j < q) by (unfold j; lia).
  assert (Ex : x = item p * (q * qset dev) + s_pos p * q + j) by (unfold j; lia).
  unfold stored. rewrite Ex.
  rewrite (translate_build q (qset dev) (item p) (s_pos p) j Hc Hi Hs Hj).
  cbn [item s_pos q_pos].
  rewrite Ed, block_at_set_size.
  rewrite (store_block_at _ _ _ _ _ _ _ _ _ _ _ Ef Ea Es).
  rewrite Nat.eqb_refl, Z.eqb_refl. cbn [andb bytes].
  rewrite (copy_in_full _ _ _ _ Eu).
  assert (Lf : length (firstn (Z.to_nat (q_pos p)) (bytes b)) = Z.to_nat (q_pos p))
    by (apply firstn_length_le; lia).
  assert (Lb : length (firstn (Z.to_nat c) buf) = Z.to_nat c)
    by (apply firstn_length_le; lia).
  destruct Hout as [Hlow|Hhigh].
  - rewrite nth_error_app1 by lia. rewrite nth_error_firstn.
    destruct (Nat.ltb_spec (Z.to_nat j) (Z.to_nat (q_pos p))); [|lia].
    apply Hzero. exact Hj.
  - rewrite nth_error_app2 by lia. rewrite Lf.
    rewrite nth_error_app2 by lia. rewrite Lb.
    rewrite nth_error_skipn.
    replace (Z.to_nat (q_pos p + c) + (Z.to_nat j - Z.to_nat (q_pos p) - Z.to_nat c))%nat
      with (Z.to_nat j) by lia.
    apply Hzero. exact Hj.
Qed.

Lemma new_block_reads_zero_where_unwritten_witness :
  stored 4 2 (snd (fst (scull_write demo_kernel Scullc small_params (small_env 4096)
                          (fresh_dev 4 0 2) [x01; x02] 2 1))) 3 = Some x00.
Proof.
  refine (new_block_reads_zero_where_unwritten demo_kernel Scullc small_params
            (small_env 4096) (fresh_dev 4 0 2) [x01; x02] 2 1 2 _ 3
            _ _ _ _ _ _ eq_refl _ eq_refl 3 _ _).
  - unfold config_ok. simpl. lia.
  - apply fresh_dev_fits; reflexivity.
  - intros _. vm_compute. discriminate.
  - lia.
  - lia.
  - vm_compute. discriminate.
  - lia.
  - vm_compute. split; [discriminate | reflexivity].
  - right. lia.
Defined.

(** ** Written data seen through a mapping *)




(** ** ioctl *)

Lemma tune_get_set v t t' g x :
  tune_get v t' (tune_set v t g x) = if match t, t' with
                                        | Tune_block, Tune_block
                                        | Tune_qset, Tune_qset => true
                                        | _, _ => false
                                        end then x else tune_get v t' g.
Proof. destruct v, t, t'; reflexivity. Qed.

Lemma tune_get_set_same v t g x : tune_get v t (tune_set v t g x) = x.
Proof. destruct v, t; reflexivity. Qed.

Lemma tune_set_set v t g x y : tune_set v t (tune_set v t g x) y = tune_set v t g y.
Proof. destruct v, t; reflexivity. Qed.

Lemma tune_set_get v t g : tune_set v t g (tune_get v t g) = g.
Proof. destruct v, t, g; reflexivity. Qed.

Lemma tune_set_cache v t g x :
  scullc_cache_size (tune_set v t g x) = scullc_cache_size g.
Proof. destruct v, t; reflexivity. Qed.

(** The tests before the switch look at user space through
    [access_ok_wrapper] only. *)
Lemma ioctl_refused_access abi u u' cmd arg :
  access_ok u' = access_ok u ->
  ioctl_refused abi u' cmd arg = ioctl_refused abi u cmd arg.
Proof. intros E. unfold ioctl_refused. now rewrite E. Qed.

Lemma ioctl_run v abi u g cmd arg c :
  ioctl_refused abi u cmd arg = None -> ioc_switch abi cmd = Some c ->
  scull_ioctl v abi u g cmd arg =
  match c with
  | IOCRESET =>
      (0, tune_set v Tune_qset (tune_set v Tune_block g (DEFAULT_BLOCK abi))
            (DEFAULT_QSET abi), u)
  | IOCS t => let '(ret, x) := __get_user u arg in (ret, tune_set v t g x, u)
  | IOCT t => (0, tune_set v t g (wrap_int arg), u)
  | IOCG t => let '(ret, u') := __put_user u (tune_get v t g) arg in (ret, g, u')
  | IOCQ t => (tune_get v t g, g, u)
  | IOCX t =>
      let tmp := tune_get v t g in
      let '(ret, x) := __get_user u arg in
      if ret =? 0
      then let '(ret', u') := __put_user u tmp arg in (ret', tune_set v t g x, u')
      else (ret, tune_set v t g x, u)
  | IOCH t => (tune_get v t g, tune_set v t g (wrap_int arg), u)
  end.
Proof. intros Hr Hs. unfold scull_ioctl. now rewrite Hr, Hs. Qed.

(** X12: Tell installs the argument (cut to an [int]) as the parameter and
    touches nothing else; a Query after it returns that value; a sHift
    after it returns that value too and installs its own argument, which
    the next Query returns. *)
Theorem ioctl_tell_query_shift
    (v : driver) (abi : ioctl_abi) (u : user) (g : params) (t : tunable)
    (cmdT cmdQ cmdH a b a1 a2 : Z) :
  ioctl_refused abi u cmdT a = None -> ioc_switch abi cmdT = Some (IOCT t) ->
  ioctl_refused abi u cmdQ a1 = None -> ioctl_refused abi u cmdQ a2 = None ->
  ioc_switch abi cmdQ = Some (IOCQ t) ->
  ioctl_refused abi u cmdH b = None -> ioc_switch abi cmdH = Some (IOCH t) ->
  exists g1 g2,
    scull_ioctl v abi u g cmdT a = (0, g1, u) /\
    (forall t', t' <> t -> tune_get v t' g1 = tune_get v t' g) /\
    scullc_cache_size g1 = scullc_cache_size g /\
    scull_ioctl v abi u g1 cmdQ a1 = (wrap_int a, g1, u) /\
    scull_ioctl v abi u g1 cmdH b = (wrap_int a, g2, u) /\
    scull_ioctl v abi u g2 cmdQ a2 = (wrap_int b, g2, u).
Proof.
  intros RT ST RQ1 RQ2 SQ RH SH.
  exists (tune_set v t g (wrap_int a)), (tune_set v t g (wrap_int b)).
  rewrite (ioctl_run v abi u g cmdT a _ RT ST).
  rewrite (ioctl_run v abi u _ cmdQ a1 _ RQ1 SQ).
  rewrite (ioctl_run v abi u _ cmdH b _ RH SH).
  rewrite (ioctl_run v abi u _ cmdQ a2 _ RQ2 SQ).
  rewrite !tune_get_set_same, tune_set_set, tune_set_cache.
  repeat split.
  intros t' Hne. rewrite tune_get_set. destruct t, t'; congruence.
Qed.

Lemma ioctl_tell_query_shift_witness :
  exists g1,
    scullc_ioctl sample_abi (sample_user (fun _ => 0)) small_params
      (sample_code 129 (IOCT Tune_block)) 64 = (0, g1, sample_user (fun _ => 0)) /\
    scullc_ioctl sample_abi (sample_user (fun _ => 0)) g1
      (sample_code 129 (IOCQ Tune_block)) 0 = (64, g1, sample_user (fun _ => 0)).
Proof.
  destruct (ioctl_tell_query_shift Scullc sample_abi (sample_user (fun _ => 0))
              small_params Tune_block
              (sample_code 129 (IOCT Tune_block)) (sample_code 129 (IOCQ Tune_block))
              (sample_code 129 (IOCH Tune_block)) 64 7 0 0
              eq_refl eq_refl eq_refl eq_refl eq_refl eq_refl eq_refl)
    as (g1 & g2 & H1 & _ & _ & H2 & _).
  exists g1. split; [exact H1 | exact H2].
Defined.

Lemma put_user_ok u x p : user_int u p <> None ->
  exists u', __put_user u x p = (0, u') /\ access_ok u' = access_ok u /\
    user_int u' p = Some x /\ (forall a, a <> p -> user_int u' a = user_int u a).
Proof.
  intros H. unfold __put_user. destruct (user_int u p) as [y|] eqn:E; [|congruence].
  eexists. split; [reflexivity|]. simpl. rewrite Z.eqb_refl.
  repeat split. intros a Ha. destruct (Z.eqb_spec a p); [contradiction|reflexivity].
Qed.

(** X13: Set reads the [int] behind its pointer argument into the
    parameter and leaves user space; a Get after it stores that value
    behind its own pointer argument, changes no other user address and
    leaves the parameter. *)
Theorem ioctl_set_then_get
    (v : driver) (abi : ioctl_abi) (u : user) (g : params) (t : tunable)
    (cmdS cmdG p p' x : Z) :
  ioctl_refused abi u cmdS p = None -> ioc_switch abi cmdS = Some (IOCS t) ->
  ioctl_refused abi u cmdG p' = None -> ioc_switch abi cmdG = Some (IOCG t) ->
  user_int u p = Some x -> user_int u p' <> None ->
  exists g1 u1,
    scull_ioctl v abi u g cmdS p = (0, g1, u) /\
    tune_get v t g1 = x /\
    scull_ioctl v abi u g1 cmdG p' = (0, g1, u1) /\
    user_int u1 p' = Some x /\
    (forall a, a <> p' -> user_int u1 a = user_int u a).
Proof.
  intros RS SS RG SG Hp Hp'.
  destruct (put_user_ok u x p' Hp') as (u1 & Eput & _ & E1 & E2).
  exists (tune_set v t g x), u1.
  rewrite (ioctl_run v abi u g cmdS p _ RS SS).
  rewrite (ioctl_run v abi u _ cmdG p' _ RG SG).
  unfold __get_user. rewrite Hp, tune_get_set_same, Eput. auto.
Qed.

Lemma ioctl_set_then_get_witness :
  exists g1 u1,
    scullc_ioctl sample_abi (sample_user (fun a => a + 1)) g1
      (sample_code 129 (IOCG Tune_qset)) 200 = (0, g1, u1) /\
    user_int u1 200 = Some 101.
Proof.
  destruct (ioctl_set_then_get Scullc sample_abi (sample_user (fun a => a + 1))
              small_params Tune_qset
              (sample_code 129 (IOCS Tune_qset)) (sample_code 129 (IOCG Tune_qset))
              100 200 101 eq_refl eq_refl eq_refl eq_refl eq_refl)
    as (g1 & u1 & _ & _ & H1 & H2 & _).
  - discriminate.
  - exists g1, u1. split; [exact H1 | exact H2].
Defined.

(** X14: eXchange with a pointer to an accessible [int] installs that
    [int] as the parameter, stores the old parameter behind the pointer
    and returns 0; no other parameter and no other user address changes,
    and a second eXchange with the same pointer puts the parameter and the
    user [int] back. *)
Theorem ioctl_exchange_swaps
    (v : driver) (abi : ioctl_abi) (u : user) (g : params) (t : tunable)
    (cmd p x : Z) :
  ioctl_refused abi u cmd p = None -> ioc_switch abi cmd = Some (IOCX t) ->
  user_int u p = Some x ->
  exists g1 u1 u2,
    scull_ioctl v abi u g cmd p = (0, g1, u1) /\
    tune_get v t g1 = x /\ user_int u1 p = Some (tune_get v t g) /\
    (forall t', t' <> t -> tune_get v t' g1 = tune_get v t' g) /\
    (forall a, a <> p -> user_int u1 a = user_int u a) /\
    scull_ioctl v abi u1 g1 cmd p = (0, g, u2) /\
    (forall a, user_int u2 a = user_int u a).
Proof.
  intros R S Hp.
  destruct (put_user_ok u (tune_get v t g) p) as (u1 & Eput & Eacc & E1 & E2);
    [congruence|].
  destruct (put_user_ok u1 x p) as (u2 & Eput2 & _ & E3 & E4); [congruence|].
  exists (tune_set v t g x), u1, u2.
  rewrite (ioctl_run v abi u g cmd p _ R S).
  rewrite (ioctl_run v abi u1 _ cmd p (IOCX t));
    [|rewrite (ioctl_refused_access abi u u1 cmd p Eacc); exact R | exact S].
  unfold __get_user. rewrite Hp, E1. cbn [Z.eqb].
  rewrite Eput, tune_get_set_same, Eput2, tune_set_set, tune_set_get.
  repeat split; auto.
  - intros t' Hne. rewrite tune_get_set. destruct t, t'; congruence.
  - intros a. destruct (Z.eq_dec a p) as [->|Hne]; [congruence|].
    rewrite E4, E2; auto.
Qed.

Lemma ioctl_exchange_swaps_witness :
  exists g1 u1,
    scullv_ioctl sample_abi (sample_user (fun _ => 3)) small_params
      (sample_code 129 (IOCX Tune_block)) 100 = (0, g1, u1) /\
    scullv_order g1 = 3 /\ user_int u1 100 = Some 0.
Proof.
  destruct (ioctl_exchange_swaps Scullv sample_abi (sample_user (fun _ => 3))
              small_params Tune_block (sample_code 129 (IOCX Tune_block)) 100 3
              eq_refl eq_refl eq_refl)
    as (g1 & u1 & u2 & H1 & H2 & H3 & _).
  exists g1, u1. split; [exact H1|]. split; [exact H2 | exact H3].
Defined.

(** X15: a parameter changed by ioctl reaches a device only through a
    trim: after a Tell, an open that is not write-only, and a write-only
    open of a mapped device, leave the device with the block size and
    array width it had; a write-only open of an unmapped device leaves it
    empty with the value told. *)
Theorem ioctl_reaches_device_at_next_trim
    (v : driver) (abi : ioctl_abi) (u : user) (g : params) (t : tunable)
    (cmd a : Z) :
  ioctl_refused abi u cmd a = None -> ioc_switch abi cmd = Some (IOCT t) ->
  exists g1,
    scull_ioctl v abi u g cmd a = (0, g1, u) /\
    forall e dev, lock_interrupted e = false -> arrays_ok dev = true ->
      scull_open v g1 e dev false = (Ret 0, dev) /\
      (vmas dev <> 0 -> scull_open v g1 e dev true = (Ret 0, dev)) /\
      (vmas dev = 0 ->
       exists dev', scull_open v g1 e dev true = (Ret 0, dev') /\
                    tune_of_dev v t dev' = wrap_int a /\
                    size dev' = 0 /\ data dev' = None /\ next dev' = None).
Proof.
  intros R S. exists (tune_set v t g (wrap_int a)).
  split; [apply (ioctl_run v abi u g cmd a _ R S)|].
  intros e dev El Hw. split; [reflexivity|]. split.
  - intros Hv. unfold scull_open. now rewrite El, (trim_busy _ _ _ Hv).
  - intros Hv. unfold scull_open. rewrite El.
    destruct (trim_unmapped v (tune_set v t g (wrap_int a)) dev Hv Hw) as (fr & -> & _).
    eexists. split; [reflexivity|]. destruct v, t; repeat split.
Qed.

Lemma ioctl_reaches_device_at_next_trim_witness :
  exists g1 dev',
    scullc_ioctl sample_abi (sample_user (fun _ => 0)) small_params
      (sample_code 129 (IOCT Tune_block)) 64 = (0, g1, sample_user (fun _ => 0)) /\
    scull_open Scullc g1 demo_env small_full_dev true = (Ret 0, dev') /\
    quantum dev' = 64.
Proof.
  destruct (ioctl_reaches_device_at_next_trim Scullc sample_abi
              (sample_user (fun _ => 0)) small_params Tune_block
              (sample_code 129 (IOCT Tune_block)) 64 eq_refl eq_refl)
    as (g1 & H1 & H2).
  destruct (H2 demo_env small_full_dev eq_refl eq_refl) as (_ & _ & H3).
  destruct (H3 eq_refl) as (dev' & E1 & E2 & _).
  exists g1, dev'. split; [exact H1|]. split; [exact E1 | exact E2].
Defined.

(** No ioctl command changes the size of the objects of the scullc
    cache. *)
Lemma ioctl_keeps_cache_size v abi u g cmd a r g1 u1 :
  scull_ioctl v abi u g cmd a = (r, g1, u1) ->
  scullc_cache_size g1 = scullc_cache_size g.
Proof.
  unfold scull_ioctl. destruct (ioctl_refused abi u cmd a).
  { intros H. now injection H as _ <- _. }
  destruct (ioc_switch abi cmd) as [[|t|t|t|t|t|t]|]; intros H.
  - injection H as _ <- _. now rewrite !tune_set_cache.
  - destruct (__get_user u a). injection H as _ <- _. apply tune_set_cache.
  - injection H as _ <- _. apply tune_set_cache.
  - destruct (__put_user u _ a). now injection H as _ <- _.
  - now injection H as _ <- _.
  - destruct (__get_user u a) as [ret x]. destruct (ret =? 0).
    + destruct (__put_user u _ a). injection H as _ <- _. apply tune_set_cache.
    + injection H as _ <- _. apply tune_set_cache.
  - injection H as _ <- _. apply tune_set_cache.
  - now injection H as _ <- _.
Qed.

(** X16: the scullc cache keeps the object size it was created with
    whatever ioctl command runs, while a new block is cleared over
    [scullc_quantum] bytes.  So once a command has left [scullc_quantum]
    larger than the cache objects, every scullc write that has to allocate
    the block of its offset (usable configuration, offset below
    [2^31 * quantum * qset], lock and memory granted) runs over the end of
    the new object: it faults with the pointer of the new object already
    stored in the slot of the offset; the size, the file position and
    every other block are as before. *)
Theorem quantum_above_cache_size_breaks_new_blocks
    (abi : ioctl_abi) (u : user) (g : params) (cmd a r : Z) (g1 : params)
    (u1 : user) (k : kernel) (e : env) (dev : scull_dev) (buf : list byte)
    (count f_pos : Z) :
  scull_ioctl Scullc abi u g cmd a = (r, g1, u1) ->
  scullc_cache_size g < wrap_ulong (scullc_quantum g1) ->
  config_ok (quantum dev) (qset dev) -> arrays_ok dev = true ->
  env_ok e = true -> 0 <= f_pos < 2 ^ 31 * (quantum dev * qset dev) ->
  block_of (quantum dev) (qset dev) dev f_pos = None ->
  scullc_cache_size g1 = scullc_cache_size g /\
  exists dev' b',
    scullc_write k g1 e dev buf count f_pos = (Oops, dev', f_pos) /\
    size dev' = size dev /\
    block_of (quantum dev) (qset dev) dev' f_pos = Some b' /\
    baddr b' = alloc_addr e /\
    forall n s,
      (n, s) <> (Z.to_nat (segment_index (quantum dev) (qset dev) f_pos),
                 block_index (quantum dev) (qset dev) f_pos) ->
      block_at dev' n s = block_at dev n s.
Proof.
  intros Hio Hbig Hc Hw He Hf Hnone.
  pose proof (ioctl_keeps_cache_size _ _ _ _ _ _ _ _ _ Hio) as Ecs.
  split; [exact Ecs|].
  destruct (env_ok_spec e He) as (El & Ek & Ea & Hal).
  destruct (config_itemsize _ _ Hc) as [Ei Hi].
  destruct (config_bounds _ _ Hc) as [_ Hqs].
  destruct (translate_low _ _ f_pos Hc (proj1 Hf)) as (_ & _ & Hs & _).
  destruct (translate_spec _ _ f_pos Hc Hf) as (En & Esp & _).
  unfold block_of in *. rewrite <- En, <- Esp in *.
  set (p := translate (quantum dev) (qset dev) f_pos) in *.
  set (n := follow_steps (item p)) in *.
  destruct (follow_succeeds n dev) as (d1 & dp & Ef).
  unfold scullc_write, scull_write. cbn [quantum_of]. fold p. fold n.
  rewrite El, Ei, Ek, Ef.
  destruct (Z.eqb_spec (quantum dev * qset dev) 0) as [?|_]; [lia|].
  (* the array *)
  assert (Harr : exists arr, write_array e (qset dev) dp = Some arr /\
                             Z.of_nat (length arr) = qset dev).
  { unfold write_array. pose proof (follow_dptr_data _ _ _ _ _ Ef) as Ed.
    destruct (data dp) as [arr|].
    - exists arr. split; [reflexivity|].
      apply (arrays_ok_data_at dev n arr Hw). now symmetry.
    - rewrite Ea. destruct (Z.leb_spec 0 (qset dev)); [|lia].
      eexists. split; [reflexivity|]. rewrite repeat_length. lia. }
  destruct Harr as (arr & Earr & Hlen). rewrite Earr.
  destruct (slot_in_range arr (s_pos p)) as [old Es]; [lia|]. rewrite Es.
  pose proof (write_array_blocks _ _ _ _ _ _ _ _ (s_pos p) Ef Earr) as Hb.
  rewrite Es, Hnone in Hb. destruct old as [b0|]; [discriminate|].
  unfold write_block, alloc_quantum.
  destruct (Z.eqb_spec (alloc_addr e) 0) as [?|_]; [contradiction|].
  rewrite Ecs. destruct (Z.ltb_spec (scullc_cache_size g) (wrap_ulong (scullc_quantum g1)));
    [|lia].
  eexists. eexists. split; [reflexivity|]. split; [|split; [|split]].
  - apply (same_head_store dev d1 n _ (same_head_follow _ _ _ _ _ Ef)).
  - rewrite (store_block_at _ _ _ _ _ _ _ _ _ _ _ Ef Earr Es).
    now rewrite Nat.eqb_refl, Z.eqb_refl.
  - reflexivity.
  - intros m s Hne. rewrite (store_block_at _ _ _ _ _ _ _ _ _ _ _ Ef Earr Es).
    destruct (Nat.eqb_spec m n) as [->|_]; [|reflexivity].
    destruct (Z.eqb_spec s (s_pos p)) as [->|_]; [congruence | reflexivity].
Qed.

Lemma quantum_above_cache_size_breaks_new_blocks_witness :
  exists g1 dev',
    scullc_ioctl sample_abi (sample_user (fun _ => 0)) small_params
      (sample_code 129 (IOCT Tune_block)) 64 = (0, g1, sample_user (fun _ => 0)) /\
    scullc_write demo_kernel g1 (small_env 4096) (fresh_dev 4 0 2) [x01] 1 0
    = (Oops, dev', 0) /\
    exists b', block_of 4 2 dev' 0 = Some b' /\ baddr b' = 4096.
Proof.
  destruct (quantum_above_cache_size_breaks_new_blocks sample_abi
              (sample_user (fun _ => 0)) small_params
              (sample_code 129 (IOCT Tune_block)) 64 0
              (tune_set Scullc Tune_block small_params 64)
              (sample_user (fun _ => 0))
              demo_kernel (small_env 4096) (fresh_dev 4 0 2) [x01] 1 0)
    as (_ & dev' & b' & H & _ & Hb & Ha & _).
  - reflexivity.
  - vm_compute. reflexivity.
  - unfold config_ok. simpl. lia.
  - reflexivity.
  - reflexivity.
  - simpl. lia.
  - reflexivity.
  - eexists. exists dev'. split; [reflexivity|]. split; [exact H|].
    exists b'. split; [exact Hb | exact Ha].
Defined.

(** ** Module load and unload *)

Lemma init_device_fresh v g :
  init_device v g = match v with
                    | Scullc => fresh_dev (scullc_quantum g) 0 (scullc_qset g)
                    | Scullv => fresh_dev 0 (scullv_order g) (scullv_qset g)
                    end.
Proof. destruct v; reflexivity. Qed.

Lemma wrap_int_le z : 0 <= z -> wrap_int z <= z.
Proof.
  intros H. unfold wrap_int.
  pose proof (Z.mod_le (z + 2 ^ 31) (2 ^ 32)). lia.
Qed.

Lemma trim_of_fresh v g qu od qs :
  scull_trim v g (fresh_dev qu od qs) = (Ret 0, trimmed v g (fresh_dev qu od qs), []).
Proof. destruct v; reflexivity. Qed.

Lemma cleanup_devices_fresh v g d n : forall i,
  (exists qu od qs, d = fresh_dev qu od qs) ->
  cleanup_devices v g i (repeat d n)
  = Some (map (fun j => Cdev_del (i + Z.of_nat j)) (seq 0 n)).
Proof.
  induction n as [|n IH]; intros i Hd; [reflexivity|].
  simpl repeat. simpl cleanup_devices.
  destruct Hd as (qu & od & qs & ->). rewrite trim_of_fresh.
  rewrite IH by eauto. cbn [map app seq]. rewrite Z.add_0_r. f_equal. f_equal.
  rewrite <- seq_shift, map_map. apply map_ext. intros j.
  f_equal. lia.
Qed.

(** X17: when init returns 0 there are [scullc_devs] devices, each empty
    (no array, no further list item, size 0, no mapping) with the block
    size and array width of the parameters at load time; the parameters
    are unchanged and, on scullc, the cache objects have the size
    [scullc_quantum].  Each device then has allocations as large as its
    quantum, on scullv provided the order is 0: the write loop and the
    read loop round-trip on it. *)
Theorem init_leaves_devices_ready
    (v : driver) (ie : init_env) (st st' : module_state) (tr : list kcall) :
  scull_init v ie st = (Ret 0, st', tr) ->
  scull_devices st'
    = Some (repeat (init_device v (scull_params st)) (Z.to_nat (scull_devs st))) /\
  (data (init_device v (scull_params st)) = None /\
   next (init_device v (scull_params st)) = None /\
   size (init_device v (scull_params st)) = 0 /\
   vmas (init_device v (scull_params st)) = 0 /\
   arrays_ok (init_device v (scull_params st)) = true) /\
  (forall t, tune_get v t (scull_params st') = tune_get v t (scull_params st) /\
             tune_of_dev v t (init_device v (scull_params st))
             = tune_get v t (scull_params st)) /\
  (v = Scullc ->
   scullc_cache_size (scull_params st') = scullc_quantum (scull_params st)) /\
  (forall k,
     config_ok (quantum_of k v (init_device v (scull_params st)))
               (qset (init_device v (scull_params st))) ->
     (v = Scullv -> scullv_order (scull_params st) = 0) ->
     dev_fits k v (scull_params st') (init_device v (scull_params st))).
Proof.
  intros H. unfold scull_init in H.
  destruct (region_result ie <? 0) eqn:Er.
  { injection H as H _ _. apply Z.ltb_lt in Er. lia. }
  destruct (devices_ok ie); cbn [negb] in H; [|discriminate H].
  set (g := scull_params st) in *.
  assert (Hst' : scull_devices st' = Some (repeat (init_device v g)
                                            (Z.to_nat (scull_devs st))) /\
                 (forall t, tune_get v t (scull_params st') = tune_get v t g) /\
                 (v = Scullc -> scullc_cache_size (scull_params st') = scullc_quantum g)).
  { destruct v.
    - destruct (cache_ok ie).
      + injection H as <- _. cbn.
        split; [reflexivity|]. split; [intros []; reflexivity | reflexivity].
      + destruct (scull_cleanup _ _); discriminate H.
    - injection H as <- _. cbn.
      split; [reflexivity|]. split; [intros []; reflexivity | discriminate]. }
  destruct Hst' as (Ed & Et & Ecs).
  split; [exact Ed|]. split; [destruct v; repeat split|].
  split; [intros t; split; [apply Et | destruct v, t; reflexivity]|].
  split; [exact Ecs|].
  intros k Hc Ho. rewrite init_device_fresh in *.
  destruct v.
  - specialize (Ecs eq_refl). pose proof (Et Tune_block) as Eq. cbn in Eq.
    destruct (config_bounds _ _ Hc) as [Hq _]. cbn in Hq.
    apply fresh_dev_fits; unfold alloc_fits; cbn [quantum_of fresh_dev quantum];
      rewrite Eq, Ecs, wrap_ulong_id by lia;
      apply andb_true_iff; split; apply Z.leb_le; lia.
  - specialize (Ho eq_refl). rewrite Ho in *.
    assert (Hfit : alloc_fits k Scullv (scull_params st')
                     (quantum_of k Scullv (fresh_dev 0 0 (scullv_qset g))) 0 = true).
    { unfold alloc_fits. cbn [quantum_of fresh_dev order].
      apply Z.leb_le. apply wrap_int_le.
      apply (proj1 (wrap_ulong_range _)). }
    apply fresh_dev_fits; exact Hfit.
Qed.

Lemma init_leaves_devices_ready_witness :
  exists st' tr,
    scullc_init sample_init_env (unloaded 0 2 small_params) = (Ret 0, st', tr) /\
    scull_devices st' = Some [fresh_dev 4 0 2; fresh_dev 4 0 2].
Proof.
  eexists. eexists. split; [reflexivity|].
  apply (proj1 (init_leaves_devices_ready Scullc sample_init_env
                  (unloaded 0 2 small_params) _ _ eq_refl)).
Defined.

(** X18: an init that does not return 0 never faults and leaves nothing
    behind.  Either the device numbers were refused: the error of the
    kernel is returned and no resource call is made.  Or the device array
    could not be allocated: [-ENOMEM], the region registered and
    unregistered.  Or (scullc) the cache could not be created: [-ENOMEM],
    after the cleanup has deleted every cdev added, freed the device
    array and unregistered the region. *)
Theorem failed_init_gives_everything_back
    (v : driver) (ie : init_env) (st : module_state)
    (r : result) (st' : module_state) (tr : list kcall) :
  scull_init v ie st = (r, st', tr) -> r <> Ret 0 ->
  let n := Z.to_nat (scull_devs st) in
  let reg := Region_register (scull_major st') (scull_devs st) in
  let unreg := Region_unregister (scull_major st') (scull_devs st) in
  (region_result ie < 0 /\ r = Ret (region_result ie) /\ tr = [] /\
   scull_devices st' = scull_devices st) \/
  (devices_ok ie = false /\ r = Ret (- ENOMEM) /\ tr = [reg; unreg] /\
   scull_devices st' = None) \/
  (v = Scullc /\ cache_ok ie = false /\ r = Ret (- ENOMEM) /\
   tr = [reg; Devices_kmalloc]
        ++ map (fun i => Cdev_add (Z.of_nat i)) (seq 0 n)
        ++ map (fun i => Cdev_del (Z.of_nat i)) (seq 0 n)
        ++ [Devices_kfree; unreg] /\
   scull_devices st' = None).
Proof.
  intros H Hr n reg unreg. unfold scull_init in H.
  destruct (Z.ltb_spec (region_result ie) 0) as [Hlt|Hge].
  { left. injection H as <- <- <-. auto. }
  right. destruct (devices_ok ie); cbn [negb] in H.
  2:{ left. injection H as <- <- <-. auto. }
  right. destruct v.
  2:{ injection H as <- _ _. contradiction. }
  destruct (cache_ok ie).
  { injection H as <- _ _. contradiction. }
  unfold scull_cleanup in H. cbn [scull_devs scull_devices scull_params scull_cache
                                  scull_major] in H.
  rewrite repeat_length, Nat.ltb_irrefl in H.
  rewrite firstn_all2 in H by (rewrite repeat_length; lia).
  rewrite init_device_fresh in H.
  rewrite (cleanup_devices_fresh Scullc _ _ _ 0) in H by eauto.
  injection H as <- <- <-. cbn [scull_major].
  repeat split.
Qed.

Lemma failed_init_gives_everything_back_witness :
  fst (scullc_init (mk_init_env 0 250 true false) (unloaded 0 2 small_params))
  = (Ret (- ENOMEM), mk_module 250 2 small_params None false).
Proof.
  destruct (failed_init_gives_everything_back Scullc (mk_init_env 0 250 true false)
              (unloaded 0 2 small_params) (Ret (- ENOMEM))
              (mk_module 250 2 small_params None false)
              (snd (scullc_init (mk_init_env 0 250 true false)
                      (unloaded 0 2 small_params))) eq_refl)
    as [(H & _)|[(H & _)|(_ & _ & _ & _)]].
  - discriminate.
  - simpl in H. lia.
  - discriminate H.
  - reflexivity.
Defined.

(** What the loop of the cleanup does to well-formed devices. *)
Lemma cleanup_devices_spec v g : forall l i,
  (forall d, In d l -> arrays_ok d = true) ->
  exists tr, cleanup_devices v g i l = Some tr /\
    freed_blocks (released tr)
    = flat_map (fun d => if vmas d =? 0 then all_blocks d else []) l /\
    (forall c, In c tr ->
       match c with Cdev_del _ | Released _ => True | _ => False end) /\
    (forall j, (j < length l)%nat -> In (Cdev_del (i + Z.of_nat j)) tr).
Proof.
  induction l as [|d l IH]; intros i Hw.
  - exists []. repeat split; [intros c [] | intros j Hj; simpl in Hj; lia].
  - destruct (IH (i + 1)) as (tr & Etr & Eb & Hin & Hdel);
      [intros d' Hd'; apply Hw; now right|].
    assert (Hd : arrays_ok d = true) by (apply Hw; now left).
    simpl cleanup_devices.
    assert (Et : exists fr d', scull_trim v g d = (Ret (if vmas d =? 0 then 0 else - EBUSY), d', fr) /\
                 freed_blocks fr = if vmas d =? 0 then all_blocks d else []).
    { destruct (Z.eqb_spec (vmas d) 0) as [E|E].
      - destruct (trim_unmapped v g d E Hd) as (fr & -> & Hb & _). eauto.
      - rewrite (trim_busy v g d E). eauto. }
    destruct Et as (fr & d' & -> & Efr). rewrite Etr.
    eexists. split; [reflexivity|]. split; [|split].
    + cbn [released flat_map app]. unfold released in *.
      rewrite flat_map_app, freed_blocks_app, Eb. f_equal.
      rewrite <- Efr. clear. induction fr as [|f fr IHf]; [reflexivity|].
      cbn [map flat_map app]. unfold freed_blocks in *. cbn [flat_map].
      now rewrite IHf.
    + intros c [<-|Hc]; [exact I|]. apply in_app_or in Hc.
      destruct Hc as [Hc|Hc]; [|now apply Hin].
      apply in_map_iff in Hc. destruct Hc as (f & <- & _). exact I.
    + intros [|j] Hj.
      * left. f_equal. lia.
      * right. apply in_or_app. right.
        replace (i + Z.of_nat (S j)) with (i + 1 + Z.of_nat j) by lia.
        apply Hdel. simpl in Hj. lia.
Qed.

Lemma cleanup_spec v st l :
  scull_devices st = Some l -> length l = Z.to_nat (scull_devs st) ->
  (forall d, In d l -> arrays_ok d = true) ->
  exists tr,
    scull_cleanup v st = Some tr /\
    freed_blocks (released tr)
    = flat_map (fun d => if vmas d =? 0 then all_blocks d else []) l /\
    In Devices_kfree tr /\
    In (Region_unregister (scull_major st) (scull_devs st)) tr.
Proof.
  intros El Hlen Hw. unfold scull_cleanup. rewrite El, <- Hlen, Nat.ltb_irrefl.
  rewrite firstn_all.
  destruct (cleanup_devices_spec v (scull_params st) l 0 Hw) as (tr & -> & Eb & Hin & _).
  eexists. split; [reflexivity|]. split; [|split].
  - unfold released in *. rewrite !flat_map_app, !freed_blocks_app, Eb.
    cbn [flat_map app]. destruct v; [destruct (scull_cache st)|];
      cbn [flat_map app freed_blocks]; now rewrite app_nil_r.
  - apply in_or_app. right. now left.
  - apply in_or_app. right. apply in_or_app. right.
    apply in_or_app. right. now left.
Qed.

(** X19: the cleanup of a module whose devices are well-formed does not
    fault.  Its loop deletes the cdev of every device and trims it, which
    hands back to the allocator exactly the blocks of the devices that are
    not mapped (the blocks of a device that is still mapped are not
    freed); then the device array is freed, on scullc the cache is
    destroyed if there is one, and last the device numbers are
    unregistered. *)
Theorem cleanup_frees_unmapped_devices
    (v : driver) (st : module_state) (l : list scull_dev) :
  scull_devices st = Some l -> length l = Z.to_nat (scull_devs st) ->
  (forall d, In d l -> arrays_ok d = true) ->
  exists loop,
    scull_cleanup v st
    = Some (loop ++ [Devices_kfree]
            ++ match v with
               | Scullc => if scull_cache st then [Cache_destroy] else []
               | Scullv => []
               end
            ++ [Region_unregister (scull_major st) (scull_devs st)]) /\
    (forall c, In c loop ->
       match c with Cdev_del _ | Released _ => True | _ => False end) /\
    (forall j, (j < length l)%nat -> In (Cdev_del (Z.of_nat j)) loop) /\
    freed_blocks (released loop)
    = flat_map (fun d => if vmas d =? 0 then all_blocks d else []) l.
Proof.
  intros El Hlen Hw. unfold scull_cleanup. rewrite El, <- Hlen, Nat.ltb_irrefl.
  rewrite firstn_all.
  destruct (cleanup_devices_spec v (scull_params st) l 0 Hw)
    as (tr & -> & Eb & Hin & Hdel).
  exists tr. split; [reflexivity|]. split; [exact Hin|]. split; [|exact Eb].
  intros j Hj. apply (Hdel j Hj).
Qed.

Lemma cleanup_frees_unmapped_devices_witness :
  exists loop,
    scullc_cleanup (mk_module 250 2 small_params
                      (Some [small_full_dev; set_vmas small_full_dev 1]) true)
    = Some (loop ++ [Devices_kfree; Cache_destroy; Region_unregister 250 2]) /\
    freed_blocks (released loop) = [4096; 8192].
Proof.
  destruct (cleanup_frees_unmapped_devices Scullc
              (mk_module 250 2 small_params
                 (Some [small_full_dev; set_vmas small_full_dev 1]) true)
              [small_full_dev; set_vmas small_full_dev 1] eq_refl eq_refl)
    as (loop & H1 & _ & _ & H2).
  - intros d [<-|[<-|[]]]; reflexivity.
  - exists loop. split; [exact H1 | exact H2].
Defined.

(** ** Calls on a loaded module *)

Lemma in_set_nth {A} (l : list A) : forall i x y,
  In y (set_nth l i x) -> y = x \/ In y l.
Proof.
  induction l as [|h l IH]; intros i x y H; [contradiction|].
  destruct i; simpl in H.
  - destruct H as [<-|H]; [now left | right; now right].
  - destruct H as [<-|H]; [right; now left|].
    destruct (IH _ _ _ H); [now left | right; now right].
Qed.

Lemma on_device_ok n devs st i f :
  (forall d, arrays_ok d = true -> arrays_ok (f d) = true) ->
  module_ok n devs st -> module_ok n devs (on_device st i f).
Proof.
  intros Hf (Hd & l & El & Hlen & Hw). unfold on_device. rewrite El.
  destruct (nth_error l i) as [d|] eqn:En; [|split; [exact Hd | now exists l]].
  split; [exact Hd|]. exists (set_nth l i (f d)). split; [reflexivity|]. split.
  - now rewrite length_set_nth.
  - intros d' Hin. destruct (in_set_nth _ _ _ _ Hin) as [->|Hin'].
    + apply Hf, Hw. eapply nth_error_In, En.
    + now apply Hw.
Qed.

Lemma open_keeps_arrays_ok v g e d w :
  arrays_ok d = true -> arrays_ok (snd (scull_open v g e d w)) = true.
Proof.
  intros H. destruct (open_trims_or_keeps v g e d w) as [->|[_ ->]];
    [exact H | apply trimmed_arrays_ok].
Qed.

Lemma module_step_ok k v n devs st c :
  module_ok n devs st -> module_ok n devs (module_step k v st c).
Proof.
  intros H. destruct c as [i pos refs o|i e w|abi u cmd arg]; simpl.
  - apply on_device_ok; [|exact H]. intros d Hd.
    apply (step_keeps_arrays_ok k v (scull_params st) (mk_state d pos refs) o Hd).
  - apply on_device_ok; [|exact H]. intros d Hd. now apply open_keeps_arrays_ok.
  - exact H.
Qed.

Lemma module_run_ok k v n devs cs : forall st,
  module_ok n devs st -> module_ok n devs (module_run k v st cs).
Proof.
  induction cs as [|c cs IH]; intros st H; [exact H|].
  apply IH, module_step_ok, H.
Qed.

(** X20: from a successful init on, whatever calls are made on the devices
    (reads, writes, seeks, mappings, faults, opens that trim, ioctl
    commands that change the parameters), the device array keeps its
    [scullc_devs] entries and every array of every device keeps the width
    of its device ([qset] slots).  So the cleanup at unload does not
    fault, and gives back every block of every device that is not
    mapped. *)
Theorem loaded_module_stays_well_formed
    (k : kernel) (v : driver) (ie : init_env) (st st0 : module_state)
    (tr : list kcall) (cs : list call) :
  scull_init v ie st = (Ret 0, st0, tr) ->
  exists l,
    scull_devices (module_run k v st0 cs) = Some l /\
    length l = Z.to_nat (scull_devs st) /\
    (forall d, In d l -> arrays_ok d = true) /\
    exists tr',
      scull_cleanup v (module_run k v st0 cs) = Some tr' /\
      freed_blocks (released tr')
      = flat_map (fun d => if vmas d =? 0 then all_blocks d else []) l.
Proof.
  intros H.
  assert (H0 : module_ok (Z.to_nat (scull_devs st)) (scull_devs st) st0).
  { unfold scull_init in H.
    destruct (region_result ie <? 0) eqn:Er.
    { injection H as H _ _. apply Z.ltb_lt in Er. lia. }
    destruct (devices_ok ie); cbn [negb] in H; [|discriminate H].
    assert (Hl : forall d, In d (repeat (init_device v (scull_params st))
                                  (Z.to_nat (scull_devs st))) ->
                           arrays_ok d = true).
    { intros d Hd. apply repeat_spec in Hd. subst d. now destruct v. }
    destruct v.
    - destruct (cache_ok ie).
      + injection H as <- _. split; [reflexivity|]. eexists.
        split; [reflexivity|]. split; [apply repeat_length | exact Hl].
      + destruct (scull_cleanup _ _); discriminate H.
    - injection H as <- _. split; [reflexivity|]. eexists.
      split; [reflexivity|]. split; [apply repeat_length | exact Hl]. }
  destruct (module_run_ok k v _ _ cs st0 H0) as (Hd & l & El & Hlen & Hw).
  exists l. split; [exact El|]. split; [exact Hlen|]. split; [exact Hw|].
  destruct (cleanup_spec v (module_run k v st0 cs) l El) as (tr' & E1 & E2 & _);
    [now rewrite Hd | exact Hw |].
  exists tr'. auto.
Qed.

Lemma loaded_module_stays_well_formed_witness :
  exists l tr',
    scullc_cleanup
      (module_run demo_kernel Scullc
         (snd (fst (scullc_init sample_init_env (unloaded 0 1 small_params))))
         [Call_op 0 0 (fun _ => 0) (Op_write (small_env 4096) [x01; x02] 2);
          Call_ioctl sample_abi (sample_user (fun _ => 0))
            (sample_code 129 (IOCT Tune_qset)) 7])
    = Some tr' /\
    freed_blocks (released tr')
    = flat_map (fun d => if vmas d =? 0 then all_blocks d else []) l /\
    length l = 1%nat.
Proof.
  destruct (loaded_module_stays_well_formed demo_kernel Scullc sample_init_env
              (unloaded 0 1 small_params) _ _
              [Call_op 0 0 (fun _ => 0) (Op_write (small_env 4096) [x01; x02] 2);
               Call_ioctl sample_abi (sample_user (fun _ => 0))
                 (sample_code 129 (IOCT Tune_qset)) 7] eq_refl)
    as (l & _ & Hlen & _ & tr' & H1 & H2).
  exists l, tr'. split; [exact H1|]. split; [exact H2 | exact Hlen].
Defined.

(** ** Calls that cannot fault *)






(** * The USB skeleton driver *)

(** ** Probe *)

Lemma is_in_nonzero ep : is_in ep = true -> bEndpointAddress ep <> 0.
Proof.
  unfold is_in. intros H E. rewrite E in H. discriminate H.
Qed.

(** The loop with the buffer granted, from any state of the two endpoint
    fields: a field already set stays; an unset one takes the first
    matching endpoint. *)
Lemma probe_endpoints_granted junk : forall eps d,
  let fi := if bulk_in_endpointAddr d =? 0 then bulk_in_of eps else None in
  let fo := if bulk_out_endpointAddr d =? 0 then bulk_out_of eps else None in
  probe_endpoints true junk d eps =
  (mk_skel
     (match fi with
      | Some e => Some (map junk (seq 0 (Z.to_nat (wMaxPacketSize e))))
      | None => bulk_in_buffer d
      end)
     (match fi with Some e => wMaxPacketSize e | None => bulk_in_size d end)
     (match fi with Some e => bEndpointAddress e | None => bulk_in_endpointAddr d end)
     (match fo with Some e => bEndpointAddress e | None => bulk_out_endpointAddr d end)
     (kref d),
   match fi with Some e => [Kmalloc_buffer (wMaxPacketSize e)] | None => [] end,
   true).
Proof.
  induction eps as [|ep eps IH]; intros d fi fo.
  - subst fi fo. simpl. destruct (_ =? 0), (_ =? 0); now destruct d.
  - subst fi fo. cbn [probe_endpoints].
    unfold bulk_in_of, bulk_out_of in *. cbn [find].
    destruct (Z.eqb_spec (bulk_in_endpointAddr d) 0) as [Ei|Ei];
      destruct (is_in ep) eqn:Hin; destruct (is_bulk ep) eqn:Hb;
      cbn [andb negb];
      try (pose proof (is_in_nonzero ep Hin) as Hnz);
      cbn [bulk_out_endpointAddr bulk_in_endpointAddr bulk_in_buffer bulk_in_size kref];
      destruct (Z.eqb_spec (bulk_out_endpointAddr d) 0) as [Eo|Eo];
      cbn [andb negb];
      rewrite IH; clear IH;
      cbn [bulk_out_endpointAddr bulk_in_endpointAddr bulk_in_buffer bulk_in_size kref];
      rewrite ?Ei, ?Eo;
      repeat match goal with
             | |- context [?a =? 0] =>
                 let E := fresh "E" in
                 destruct (Z.eqb_spec a 0) as [E|E];
                 try contradiction; try lia; try rewrite E
             end;
      cbn [andb negb app]; try reflexivity.
Qed.

(** The loop with the buffer refused: it stops at the first bulk-in
    endpoint, if the field is unset and there is one. *)
Lemma probe_endpoints_refused junk : forall eps d,
  exists d' ok,
    probe_endpoints false junk d eps = (d', [], ok) /\
    kref d' = kref d /\
    (ok = false -> bulk_in_buffer d' = None) /\
    (ok = true -> bulk_in_buffer d' = bulk_in_buffer d /\
                  bulk_in_endpointAddr d' = bulk_in_endpointAddr d /\
                  (bulk_in_endpointAddr d = 0 -> bulk_in_of eps = None)).
Proof.
  induction eps as [|ep eps IH]; intros d.
  - exists d, true. repeat split. discriminate.
  - cbn [probe_endpoints]. unfold bulk_in_of in *. cbn [find].
    destruct (Z.eqb_spec (bulk_in_endpointAddr d) 0) as [Ei|Ei];
      destruct (is_in ep) eqn:Hin; destruct (is_bulk ep) eqn:Hb; cbn [andb negb].
    1:{ do 2 eexists. split; [reflexivity|]. cbn. repeat split; discriminate. }
    all: match goal with
         | |- context [probe_endpoints false ?j ?d2 ?l] =>
             destruct (IH d2) as (d' & ok & -> & Hk & Hf & Ht);
             assert (E2 : kref d2 = kref d /\ bulk_in_buffer d2 = bulk_in_buffer d /\
                          bulk_in_endpointAddr d2 = bulk_in_endpointAddr d)
               by (destruct (_ =? 0); repeat split)
         end.
    all: destruct E2 as (E2k & E2b & E2a).
    all: exists d', ok; split; [reflexivity|]; split; [congruence|];
           split; [exact Hf|].
    all: intros Hok; destruct (Ht Hok) as (H1 & H2 & H3).
    all: repeat split; try congruence.
    all: intros E0; apply H3; congruence.
Qed.

Lemma find_some_in {A} (f : A -> bool) l x : find f l = Some x -> f x = true.
Proof. intros H. apply (proj2 (find_some _ _ H)). Qed.

Lemma bulk_in_of_nonzero eps e : bulk_in_of eps = Some e -> bEndpointAddress e <> 0.
Proof.
  intros H. apply find_some_in in H. apply is_in_nonzero.
  now destruct (is_in e).
Qed.

Lemma bulk_out_of_nonzero eps e : bulk_out_of eps = Some e -> bEndpointAddress e <> 0.
Proof.
  intros H. apply find_some_in in H.
  destruct (Z.eqb_spec (bEndpointAddress e) 0); [|assumption].
  rewrite andb_false_r in H. discriminate H.
Qed.

(** X23: the probe returns 0 exactly when the device structure and the
    receive buffer can be allocated, the interface has a bulk-in endpoint
    and a bulk-out endpoint with an address other than 0, and the
    registration succeeds.  The device is then bound to the first such
    endpoints in descriptor order, its receive buffer has the maximum
    packet size of the bulk-in endpoint, its reference count is 1, and the
    interface data points to it. *)
Theorem probe_binds_first_bulk_endpoints
    (pe : probe_env) (eps : list usb_endpoint_descriptor) :
  (forall ei eo,
     kzalloc_ok pe = true -> buffer_ok pe = true -> register_result pe = 0 ->
     bulk_in_of eps = Some ei -> bulk_out_of eps = Some eo ->
     skel_probe pe eps =
     (Ret 0,
      mk_world
        (Some (mk_skel
                 (Some (map (buffer_junk pe) (seq 0 (Z.to_nat (wMaxPacketSize ei)))))
                 (wMaxPacketSize ei) (bEndpointAddress ei) (bEndpointAddress eo) 1))
        true true,
      [Kzalloc_dev; Usb_get_dev; Kmalloc_buffer (wMaxPacketSize ei);
       Usb_register_dev])) /\
  (forall w tr,
     skel_probe pe eps = (Ret 0, w, tr) ->
     kzalloc_ok pe = true /\ buffer_ok pe = true /\ register_result pe = 0 /\
     bulk_in_of eps <> None /\ bulk_out_of eps <> None).
Proof.
  split.
  - intros ei eo Hk Hb Hr Hi Ho. unfold skel_probe. rewrite Hk, Hb. cbn [negb].
    rewrite probe_endpoints_granted. cbn [bulk_in_endpointAddr bulk_out_endpointAddr
      bulk_in_buffer bulk_in_size kref Z.eqb]. rewrite Hi, Ho.
    pose proof (bulk_in_of_nonzero _ _ Hi) as Hni.
    pose proof (bulk_out_of_nonzero _ _ Ho) as Hno.
    cbn [negb bulk_in_endpointAddr bulk_out_endpointAddr].
    destruct (Z.eqb_spec (bEndpointAddress ei) 0); [contradiction|].
    destruct (Z.eqb_spec (bEndpointAddress eo) 0); [contradiction|].
    rewrite Hr. reflexivity.
  - intros w tr H. unfold skel_probe in H.
    destruct (kzalloc_ok pe); cbn [negb] in H; [|discriminate H].
    destruct (buffer_ok pe) eqn:Hb.
    + rewrite probe_endpoints_granted in H.
      cbn [bulk_in_endpointAddr bulk_out_endpointAddr bulk_in_buffer bulk_in_size
           kref Z.eqb negb kref_put skel] in H.
      destruct (bulk_in_of eps) as [ei|] eqn:Hi; destruct (bulk_out_of eps) as [eo|] eqn:Ho;
        cbn [bulk_in_endpointAddr bulk_out_endpointAddr kref Z.sub Z.eqb negb andb] in H;
        try (rewrite ?andb_false_r in H; cbn in H; discriminate H).
      destruct (Z.eqb_spec (bEndpointAddress ei) 0);
        destruct (Z.eqb_spec (bEndpointAddress eo) 0); cbn in H; try discriminate H.
      destruct (Z.eqb_spec (register_result pe) 0); cbn in H;
        [|injection H as E _ _; congruence].
      repeat split; auto; discriminate.
    + destruct (probe_endpoints_refused (buffer_junk pe) eps (mk_skel None 0 0 0 1))
        as (d' & ok & E & Hk & Hf & Ht).
      rewrite E in H. cbn [kref_put skel] in H. rewrite Hk in H. cbn in H.
      destruct ok; cbn in H.
      * destruct (Ht eq_refl) as (_ & Ha & _). cbn in Ha. rewrite Ha in H.
        cbn in H. discriminate H.
      * discriminate H.
Qed.

Lemma probe_binds_first_bulk_endpoints_witness :
  exists buf,
    skel_probe sample_probe_env [ep_int_in; ep_bulk_out; ep_bulk_in] =
    (Ret 0, mk_world (Some (mk_skel (Some buf) 64 129 2 1)) true true,
     [Kzalloc_dev; Usb_get_dev; Kmalloc_buffer 64; Usb_register_dev]).
Proof.
  eexists.
  apply (proj1 (probe_binds_first_bulk_endpoints sample_probe_env
                  [ep_int_in; ep_bulk_out; ep_bulk_in]) ep_bulk_in ep_bulk_out);
    reflexivity.
Defined.

(** X24: a probe that does not return 0 never faults and leaves nothing
    behind: the device structure is freed (or was never allocated), the
    interface data is NULL, and every resource taken was given back: the
    reference on the USB device, and the receive buffer when one had been
    allocated.  The value returned is [-ENOMEM], also when an endpoint is
    missing, or the error of the registration. *)
Theorem failed_probe_frees_the_device
    (pe : probe_env) (eps : list usb_endpoint_descriptor)
    (r : result) (w : skel_world) (tr : list usb_call) :
  skel_probe pe eps = (r, w, tr) -> r <> Ret 0 ->
  (r = Ret (- ENOMEM) \/ (r = Ret (register_result pe) /\ register_result pe <> 0)) /\
  (bulk_in_of eps = None \/ bulk_out_of eps = None -> r = Ret (- ENOMEM)) /\
  w = mk_world None false false /\
  (tr = [] \/
   tr = [Kzalloc_dev; Usb_get_dev; Usb_put_dev; Kfree_dev] \/
   exists n, tr = [Kzalloc_dev; Usb_get_dev; Kmalloc_buffer n;
                   Usb_put_dev; Kfree_buffer; Kfree_dev]).
Proof.
  intros H Hr. unfold skel_probe in H.
  destruct (kzalloc_ok pe); cbn [negb] in H.
  2:{ injection H as <- <- <-. repeat split; auto. }
  destruct (buffer_ok pe) eqn:Hb.
  - rewrite probe_endpoints_granted in H.
    cbn [bulk_in_endpointAddr bulk_out_endpointAddr bulk_in_buffer bulk_in_size
         kref Z.eqb negb kref_put skel] in H.
    destruct (bulk_in_of eps) as [ei|] eqn:Hi; destruct (bulk_out_of eps) as [eo|] eqn:Ho;
      cbn [bulk_in_endpointAddr bulk_out_endpointAddr kref Z.sub Z.eqb negb andb] in H.
    + pose proof (bulk_in_of_nonzero _ _ Hi) as Hni.
      pose proof (bulk_out_of_nonzero _ _ Ho) as Hno.
      destruct (Z.eqb_spec (bEndpointAddress ei) 0); [contradiction|].
      destruct (Z.eqb_spec (bEndpointAddress eo) 0); [contradiction|].
      cbn in H. destruct (Z.eqb_spec (register_result pe) 0); cbn in H;
        injection H as <- <- <-; [contradiction|].
      split; [right; auto|]. split; [intros [E|E]; discriminate E|].
      split; [reflexivity|]. right. right. eexists. reflexivity.
    + rewrite andb_false_r in H. cbn in H. injection H as <- <- <-.
      split; [left; reflexivity|]. split; [reflexivity|]. split; [reflexivity|].
      right. right. eexists. reflexivity.
    + cbn in H. injection H as <- <- <-.
      split; [left; reflexivity|]. split; [reflexivity|]. split; [reflexivity|].
      right. left. reflexivity.
    + cbn in H. injection H as <- <- <-.
      split; [left; reflexivity|]. split; [reflexivity|]. split; [reflexivity|].
      right. left. reflexivity.
  - destruct (probe_endpoints_refused (buffer_junk pe) eps (mk_skel None 0 0 0 1))
      as (d' & ok & E & Hk & Hf & Ht).
    rewrite E in H. cbn [kref_put skel] in H. rewrite Hk in H. cbn in H.
    assert (Hbuf : bulk_in_buffer d' = None).
    { destruct ok; [apply (Ht eq_refl) | apply (Hf eq_refl)]. }
    unfold skel_delete in H. rewrite Hbuf in H. cbn in H.
    destruct ok; cbn in H.
    + destruct (Ht eq_refl) as (_ & Ha & _). cbn in Ha. rewrite Ha in H.
      cbn in H. injection H as <- <- <-.
      split; [left; reflexivity|]. split; [reflexivity|]. split; [reflexivity|].
      right. left. reflexivity.
    + injection H as <- <- <-.
      split; [left; reflexivity|]. split; [reflexivity|]. split; [reflexivity|].
      right. left. reflexivity.
Qed.

Lemma failed_probe_frees_the_device_witness :
  skel_probe sample_probe_env [ep_int_in; ep_bulk_in]
  = (Ret (- ENOMEM), mk_world None false false,
     [Kzalloc_dev; Usb_get_dev; Kmalloc_buffer 64; Usb_put_dev; Kfree_buffer; Kfree_dev]).
Proof.
  destruct (failed_probe_frees_the_device sample_probe_env [ep_int_in; ep_bulk_in]
              (Ret (- ENOMEM)) (mk_world None false false)
              [Kzalloc_dev; Usb_get_dev; Kmalloc_buffer 64;
               Usb_put_dev; Kfree_buffer; Kfree_dev] eq_refl) as (_ & _ & _ & _).
  - discriminate.
  - reflexivity.
Defined.

(** ** The life of the device structure *)

Lemma skel_step_inv w files ev :
  skel_inv w files ->
  exists w' files', skel_step (Some (w, files)) ev = Some (w', files') /\
                    skel_inv w' files'.
Proof.
  intros [Hi Hs]. destruct w as [sk idata reg]. cbn [intfdata registered skel] in *.
  subst idata. destruct ev; cbn [skel_step].
  - unfold skel_open, kref_get. cbn [intfdata registered skel].
    destruct reg; cbn [negb].
    + destruct sk as [d|]; [|destruct Hs; discriminate].
      do 2 eexists. split; [reflexivity|]. split; [reflexivity|].
      cbn [skel registered set_kref kref]. lia.
    + do 2 eexists. split; [reflexivity|]. split; [reflexivity | exact Hs].
  - destruct files as [|files].
    + do 2 eexists. split; [reflexivity|]. split; [reflexivity | exact Hs].
    + unfold skel_release, kref_put. cbn [negb intfdata registered skel].
      destruct sk as [d|]; [|destruct Hs; discriminate].
      destruct Hs as [Hk Hp].
      destruct (Z.eqb_spec (kref d - 1) 0) as [E|E].
      * do 2 eexists. split; [reflexivity|]. split; [reflexivity|].
        cbn [skel registered]. destruct reg; split; try reflexivity; lia.
      * do 2 eexists. split; [reflexivity|]. split; [reflexivity|].
        cbn [skel registered set_kref kref]. destruct reg; lia.
  - cbn [registered]. destruct reg.
    + unfold skel_disconnect, kref_put. cbn [negb intfdata registered skel].
      destruct sk as [d|]; [|destruct Hs; discriminate].
      destruct Hs as [Hk Hp].
      destruct (Z.eqb_spec (kref d - 1) 0) as [E|E].
      * do 2 eexists. split; [reflexivity|]. split; [reflexivity|].
        cbn [skel registered]. split; [reflexivity | lia].
      * do 2 eexists. split; [reflexivity|]. split; [reflexivity|].
        cbn [skel registered set_kref kref]. lia.
    + do 2 eexists. split; [reflexivity|]. split; [reflexivity | exact Hs].
Qed.

Lemma skel_run_inv evs : forall w files,
  skel_inv w files ->
  exists w' files', fold_left skel_step evs (Some (w, files)) = Some (w', files') /\
                    skel_inv w' files'.
Proof.
  induction evs as [|ev evs IH]; intros w files H.
  - exists w, files. split; [reflexivity | exact H].
  - cbn [fold_left]. destruct (skel_step_inv w files ev H) as (w1 & f1 & -> & H1).
    apply IH, H1.
Qed.

(** X25: after a probe that returned 0, whatever opens, releases (of open
    files) and disconnect follow, in any order, no call touches the device
    structure after it was freed.  The structure is freed exactly when the
    interface has been disconnected and every file opened has been
    released; until then its reference count is the number of open files,
    plus one while the interface is bound.  After the disconnect an open
    returns [-ENODEV]. *)
Theorem device_structure_outlives_its_users
    (pe : probe_env) (eps : list usb_endpoint_descriptor)
    (w0 : skel_world) (tr : list usb_call) (evs : list skel_event) :
  skel_probe pe eps = (Ret 0, w0, tr) ->
  exists w files,
    skel_run w0 evs = Some (w, files) /\
    (skel w = None <-> registered w = false /\ files = O) /\
    (forall d, skel w = Some d ->
       kref d = Z.of_nat files + (if registered w then 1 else 0)) /\
    (registered w = false -> skel_open w = (Ret (- ENODEV), w, false)).
Proof.
  intros H.
  assert (H0 : skel_inv w0 O).
  { unfold skel_probe in H.
    destruct (kzalloc_ok pe); cbn [negb] in H; [|discriminate H].
    destruct (probe_endpoints _ _ _ eps) as [[d tr1] ok] eqn:E.
    assert (Hk : kref d = 1).
    { destruct (buffer_ok pe).
      - rewrite probe_endpoints_granted in E. now injection E as <- _ _.
      - destruct (probe_endpoints_refused (buffer_junk pe) eps (mk_skel None 0 0 0 1))
          as (d' & ok' & E' & Hk' & _). rewrite E' in E. now injection E as <- _ _. }
    unfold kref_put in H. cbn [skel] in H. rewrite Hk in H. cbn in H.
    destruct ok; cbn in H; [|discriminate H].
    destruct (negb (_ && _)); [discriminate H|].
    destruct (Z.eqb_spec (register_result pe) 0) as [E0|E0]; cbn in H.
    - injection H as <- _. split; [reflexivity|]. cbn. lia.
    - injection H as E1 _ _. congruence. }
  destruct (skel_run_inv evs w0 O H0) as (w & files & E & Hi & Hs).
  exists w, files. split; [exact E|].
  destruct w as [sk idata reg]. cbn [skel registered intfdata] in *. subst idata.
  split; [|split].
  - destruct sk as [d|].
    + split; [discriminate|]. intros [-> ->]. cbn in Hs. lia.
    + split; [intros _; exact Hs | reflexivity].
  - intros d ->. apply Hs.
  - intros ->. reflexivity.
Qed.

Lemma device_structure_outlives_its_users_witness :
  exists w,
    skel_run (snd (fst (skel_probe sample_probe_env [ep_bulk_in; ep_bulk_out])))
      [Ev_open; Ev_disconnect; Ev_open; Ev_release] = Some (w, O) /\
    skel w = None.
Proof.
  destruct (device_structure_outlives_its_users sample_probe_env
              [ep_bulk_in; ep_bulk_out] _ _
              [Ev_open; Ev_disconnect; Ev_open; Ev_release] eq_refl)
    as (w & files & E & Hn & _).
  assert (Ef : files = O /\ registered w = false).
  { vm_compute in E. injection E as <- <-. split; reflexivity. }
  destruct Ef as [-> Hr]. exists w. split; [exact E|]. apply Hn. auto.
Defined.

(** ** Write and read *)

(** X26: a write of length 0 returns 0 and makes no call.  A write of a
    positive length whose allocations succeed and whose user buffer is
    readable submits exactly one urb, to the bulk-out endpoint, carrying
    the first [count] bytes of the user buffer; when the submission is
    accepted it gives back its urb reference and returns [count], and the
    completion callback gives back the transfer buffer.  When
    the user buffer is not readable over [count] bytes it returns
    [-EFAULT], and when the submission is refused the error of the
    submission; on both paths the transfer buffer is handed to
    [usb_free_coherent] and afterwards to [kfree] as well. *)
Theorem skel_write_outcomes
    (we : write_env) (d : usb_skel) (user : list byte) (count : Z) :
  0 <= count < 2 ^ 63 ->
  (count = 0 -> skel_write we d user count = (Ret 0, [])) /\
  (0 < count -> urb_ok we = true -> coherent_ok we = true ->
   let taken := [Usb_alloc_urb; Usb_alloc_coherent count] in
   let sent := Usb_submit_urb (bulk_out_endpointAddr d) (firstn (Z.to_nat count) user) in
   let undone := [Usb_free_coherent; Usb_free_urb; Kfree_transfer_buffer] in
   (count <= Z.of_nat (length user) -> submit_result we = 0 ->
    skel_write we d user count = (Ret count, taken ++ [sent; Usb_free_urb]) /\
    forall status,
      snd (skel_write we d user count) ++ skel_write_bulk_callback status
      = [Usb_alloc_urb; Usb_alloc_coherent count; sent; Usb_free_urb;
         Usb_free_coherent]) /\
   (count <= Z.of_nat (length user) -> submit_result we <> 0 ->
    skel_write we d user count = (Ret (submit_result we), taken ++ sent :: undone)) /\
   (Z.of_nat (length user) < count ->
    skel_write we d user count = (Ret (- EFAULT), taken ++ undone))).
Proof.
  intros Hc. split.
  - intros ->. reflexivity.
  - intros Hp Hu Hk taken sent undone. unfold skel_write. rewrite Hu, Hk.
    destruct (Z.eqb_spec count 0) as [?|_]; [lia|]. cbn [negb].
    split; [|split].
    + intros Hl Hs. destruct (Z.ltb_spec (Z.of_nat (length user)) count); [lia|].
      rewrite Hs. cbn [Z.eqb negb]. rewrite wrap_long_id by lia.
      split; reflexivity.
    + intros Hl Hs. destruct (Z.ltb_spec (Z.of_nat (length user)) count); [lia|].
      destruct (Z.eqb_spec (submit_result we) 0); [contradiction|]. reflexivity.
    + intros Hl. destruct (Z.ltb_spec (Z.of_nat (length user)) count); [|lia].
      reflexivity.
Qed.

Lemma skel_write_outcomes_witness :
  skel_write (mk_write_env true true 0) (mk_skel None 64 129 2 1) [x01; x02; x03] 2
  = (Ret 2, [Usb_alloc_urb; Usb_alloc_coherent 2; Usb_submit_urb 2 [x01; x02];
             Usb_free_urb]).
Proof.
  destruct (skel_write_outcomes (mk_write_env true true 0) (mk_skel None 64 129 2 1)
              [x01; x02; x03] 2) as [_ H]; [lia|].
  destruct H as (H & _); [lia | reflexivity | reflexivity |].
  apply (proj1 (H ltac:(simpl; lia) eq_refl)).
Defined.

(** X27: a read of fewer than 2^32 bytes asks the device for
    [min(bulk_in_size, count)] bytes.  When the transfer fails its error
    is returned and nothing is delivered; when it succeeds and the user
    buffer takes the bytes received, exactly those bytes are delivered and
    their number, which is at most [min(bulk_in_size, count)], is
    returned. *)
Theorem skel_read_returns_what_was_received
    (re : read_env) (d : usb_skel) (buffer : list byte) (buf_len count : Z) :
  bulk_in_buffer d = Some buffer ->
  Z.of_nat (length buffer) = bulk_in_size d -> bulk_in_size d < 2 ^ 31 ->
  0 <= count < 2 ^ 32 ->
  let got := firstn (Z.to_nat (Z.min (bulk_in_size d) count)) (bulk_data re) in
  Z.of_nat (length got) <= Z.min (bulk_in_size d) count /\
  (bulk_result re <> 0 -> skel_read re d buf_len count = (Ret (bulk_result re), [])) /\
  (bulk_result re = 0 -> Z.of_nat (length got) <= buf_len ->
   skel_read re d buf_len count = (Ret (Z.of_nat (length got)), got)) /\
  (bulk_result re = 0 -> 0 <= buf_len < Z.of_nat (length got) ->
   fst (skel_read re d buf_len count) = Ret (- EFAULT)).
Proof.
  intros Hb Hlen Hsz Hc got.
  assert (Hgot : Z.of_nat (length got) <= Z.min (bulk_in_size d) count).
  { unfold got. rewrite length_firstn. lia. }
  split; [exact Hgot|].
  unfold skel_read. rewrite Hb. fold got.
  rewrite (Z.mod_small count) by lia.
  replace (count - count + Z.of_nat (length got)) with (Z.of_nat (length got)) by lia.
  assert (Hfit : (Z.of_nat (length (got ++ skipn (length got) buffer))
                  <? Z.of_nat (length got)) = false).
  { apply Z.ltb_ge. rewrite length_app. lia. }
  split; [|split].
  - intros Hr. destruct (Z.eqb_spec (bulk_result re) 0); [contradiction|]. reflexivity.
  - intros Hr Hbl. rewrite Hr, Hfit. cbn [Z.eqb negb].
    replace (Z.min (Z.of_nat (length got)) (Z.max 0 buf_len))
      with (Z.of_nat (length got)) by lia.
    rewrite Z.ltb_irrefl, Nat2Z.id, wrap_int_id by lia.
    rewrite firstn_app, Nat.sub_diag, firstn_all. cbn [firstn]. now rewrite app_nil_r.
  - intros Hr Hbl. rewrite Hr, Hfit. cbn [Z.eqb negb].
    destruct (Z.ltb_spec (Z.min (Z.of_nat (length got)) (Z.max 0 buf_len))
                (Z.of_nat (length got))); [reflexivity | lia].
Qed.

Lemma skel_read_returns_what_was_received_witness :
  skel_read (mk_read_env 0 [x01; x02; x03; x04; x05])
    (mk_skel (Some [x00; x00; x00; x00]) 4 129 2 1) 10 3
  = (Ret 3, [x01; x02; x03]).
Proof.
  destruct (skel_read_returns_what_was_received
              (mk_read_env 0 [x01; x02; x03; x04; x05])
              (mk_skel (Some [x00; x00; x00; x00]) 4 129 2 1)
              [x00; x00; x00; x00] 10 3 eq_refl eq_refl)
    as (_ & _ & H & _); [simpl; lia | lia |].
  apply H; [reflexivity | simpl; lia].
Defined.

(** ** scullp: mapped devices have one-page blocks *)

Lemma dev_step_mapped_ok k d c :
  scullp_admits d c = true -> mapped_ok d -> mapped_ok (dev_step k d c).
Proof.
  intros Ha [H0 Ho]. destruct c as [g pos refs o|g e w]; cbn [dev_step].
  - destruct o as [e bl cnt|e buf cnt|off wh|m| |m a s p]; cbn [step st_dev st_pos st_refs].
    + destruct (scull_read k Scullv e d bl cnt pos) as [[[r d1] pos1] out] eqn:E.
      destruct (read_frame _ _ _ _ _ _ _ _ _ _ _ E) as (_ & (Ev & _ & Eo & _) & _).
      cbn [st_dev]. unfold mapped_ok. rewrite Ev, Eo. auto.
    + destruct (scull_write k Scullv g e d buf cnt pos) as [[r d1] pos1] eqn:E.
      destruct (write_frame _ _ _ _ _ _ _ _ _ _ _ E) as ((Ev & _ & Eo & _) & _).
      cbn [st_dev]. unfold mapped_ok. rewrite Ev, Eo. auto.
    + split; assumption.
    + cbn [scullp_admits] in Ha. destruct m; [|discriminate Ha].
      apply Z.ltb_lt in Ha. cbn [scull_mmap].
      destruct (Z.eqb_spec (order d) 0) as [E0|E0]; cbn [negb snd].
      * unfold mapped_ok, scull_vma_open. destruct d; cbn in *.
        rewrite wrap_int_id by lia. split; [lia | auto].
      * split; [exact H0|]. intros Hv. now apply Ho.
    + cbn [scullp_admits] in Ha. apply Z.ltb_lt in Ha.
      unfold mapped_ok, scull_vma_close. destruct d; cbn in *.
      rewrite wrap_int_id by lia. split; [lia|]. intros _. apply Ho. lia.
    + destruct (scull_vma_nopage k m d refs a s p) as [[r pg] refs'].
      split; assumption.
  - destruct (Z.eq_dec (vmas d) 0) as [Ev|Ev].
    + destruct (open_trims_or_keeps Scullv g e d w) as [->|[_ ->]];
        [split; assumption|].
      unfold mapped_ok. cbn. rewrite Ev. split; [lia | congruence].
    + assert (E : snd (scull_open Scullv g e d w) = d).
      { unfold scull_open. destruct w; [|reflexivity].
        destruct (lock_interrupted e); [reflexivity|].
        now rewrite (trim_busy Scullv g d Ev). }
      rewrite E. split; assumption.
Qed.

(** X28: on scullp, from an unmapped device on, whatever admitted calls
    follow (reads, writes, seeks, opens that trim with whatever the
    parameters are by then, mapping requests, faults, closes of open
    vmas), the device is mapped only while its order is 0: its blocks are
    single pages, each served page is a whole block, and as long as it is
    mapped a trim is refused, so the order cannot change under a
    mapping. *)
Theorem scullp_mapped_device_has_order_zero
    (k : kernel) (cs : list dev_call) (d d' : scull_dev) :
  vmas d = 0 -> scullp_run k d cs = Some d' ->
  0 <= vmas d' < 2 ^ 31 /\
  (vmas d' <> 0 ->
   order d' = 0 /\
   (0 <= PAGE_SHIFT k < 31 -> quantum_of k Scullv d' = PAGE_SIZE k) /\
   forall g, scullp_trim g d' = (Ret (- EBUSY), d', [])).
Proof.
  intros Hv H.
  assert (Hm : mapped_ok d') .
  { assert (H0 : mapped_ok d) by (split; [lia | congruence]).
    clear Hv. revert d H H0. induction cs as [|c cs IH]; intros d H H0.
    - now injection H as <-.
    - cbn [scullp_run] in H. destruct (scullp_admits d c) eqn:Ha; [|discriminate H].
      apply (IH _ H). now apply dev_step_mapped_ok. }
  destruct Hm as [H0 Ho]. split; [exact H0|]. intros Hne.
  split; [now apply Ho|]. split.
  - intros Hk. apply quantum_of_order_zero; auto.
  - intros g. now apply trim_busy.
Qed.

Lemma scullp_mapped_device_has_order_zero_witness :
  exists d',
    scullp_run demo_kernel (fresh_dev 0 0 2)
      [Dev_op page_params 0 (fun _ => 0)
         (Op_write (mk_env false true true 8192 (fun _ => x00)) [x07; x08] 2);
       Dev_op page_params 0 (fun _ => 0) (Op_mmap Scullp_map);
       Dev_open (mk_params 0 0 3 2 0) demo_env true] = Some d' /\
    vmas d' = 1 /\ order d' = 0.
Proof.
  eexists. split; [reflexivity|]. split; [reflexivity|].
  refine (proj1 (proj2 (scullp_mapped_device_has_order_zero demo_kernel
            [Dev_op page_params 0 (fun _ => 0)
               (Op_write (mk_env false true true 8192 (fun _ => x00)) [x07; x08] 2);
             Dev_op page_params 0 (fun _ => 0) (Op_mmap Scullp_map);
             Dev_open (mk_params 0 0 3 2 0) demo_env true]
            (fresh_dev 0 0 2) _ eq_refl eq_refl) _)).
  discriminate.
Defined.
